(** * danmu_api: the source-merge engine of [utils/merge-util.js]

    A shallow embedding of the cross-source merge utilities (text
    normalisation, similarity, conflict rules, episode alignment, merged
    ids and the merge orchestrator) and the properties the specification
    states about them.

    Conventions of the embedding.
    - A JavaScript string is the list of its UTF-16 code units ([jsstring]);
      [length], [charAt], [includes], [startsWith] work on code units as in
      ECMAScript.  String literals of the source are written as UTF-8 Rocq
      strings and decoded by [js].
    - [toLowerCase] and the [i] flag are modelled on the Basic Latin letters
      (the only cased letters the patterns of this file mention); other code
      units are kept.
    - A JavaScript Number that is a score or a ratio is modelled by an exact
      rational ([Q]); integers (lengths, offsets, counts, ids) are [Z], [N]
      or [nat].
    - A regular expression literal is kept as a syntax tree and run by a
      backtracking matcher with the ECMAScript priorities (leftmost, greedy
      or lazy as written, captures).
    - What the module imports and the sources do not contain is a parameter
      of the section [Merge]: [simplized] (script conversion), the host's
      [Date] behind [parseDate], and [addAnime] (the cache insert).  [log]
      changes no state and is left out.
    - Optional fields ([title], [name], [links], [startDate],
      [typeDescription]) are options; the fields the code dereferences
      without a guard ([animeTitle], [url], [source]) are strings. *)

From Stdlib Require Import List Bool Arith ZArith NArith QArith Qround Lia Lqa String Ascii.
From Stdlib Require Import Permutation Sorted.
Import ListNotations.



(** ** JavaScript strings *)

Definition jsstring := list N.

(** Decoding of a UTF-8 literal into code points. *)
Fixpoint utf8_points (fuel : nat) (bs : list N) : list N :=
  match fuel with
  | O => []
  | S fuel' =>
    match bs with
    | [] => []
    | b0 :: r0 =>
      if (b0 <? 128)%N then b0 :: utf8_points fuel' r0
      else if (b0 <? 224)%N then
        match r0 with
        | b1 :: r1 => ((b0 - 192) * 64 + (b1 - 128))%N :: utf8_points fuel' r1
        | _ => []
        end
      else if (b0 <? 240)%N then
        match r0 with
        | b1 :: b2 :: r2 =>
          ((b0 - 224) * 4096 + (b1 - 128) * 64 + (b2 - 128))%N :: utf8_points fuel' r2
        | _ => []
        end
      else
        match r0 with
        | b1 :: b2 :: b3 :: r3 =>
          ((b0 - 240) * 262144 + (b1 - 128) * 4096 + (b2 - 128) * 64 + (b3 - 128))%N
            :: utf8_points fuel' r3
        | _ => []
        end
    end
  end.

(** A code point as one or two UTF-16 code units. *)
Definition utf16_units (cp : N) : list N :=
  if (cp <? 65536)%N then [cp]
  else [(55296 + (cp - 65536) / 1024)%N; (56320 + (cp - 65536) mod 1024)%N].

Definition js (s : string) : jsstring :=
  let bs := map N_of_ascii (list_ascii_of_string s) in
  flat_map utf16_units (utf8_points (List.length bs) bs).

(** Character classes of ECMAScript: [\s] (WhiteSpace and LineTerminator),
    the line terminators [.] refuses, and [\d]. *)
Definition isSpace (c : N) : bool :=
  ((9 <=? c) && (c <=? 13) || (c =? 32) || (c =? 160) || (c =? 5760)
   || (8192 <=? c) && (c <=? 8202) || (c =? 8232) || (c =? 8233)
   || (c =? 8239) || (c =? 8287) || (c =? 12288) || (c =? 65279))%N.

Definition isLineTerminator (c : N) : bool :=
  ((c =? 10) || (c =? 13) || (c =? 8232) || (c =? 8233))%N.

Definition isDigit (c : N) : bool := ((48 <=? c) && (c <=? 57))%N.

Definition isUpperAscii (c : N) : bool := ((65 <=? c) && (c <=? 90))%N.
Definition isLowerAscii (c : N) : bool := ((97 <=? c) && (c <=? 122))%N.

Definition lowerUnit (c : N) : N := if isUpperAscii c then (c + 32)%N else c.
Definition upperUnit (c : N) : N := if isLowerAscii c then (c - 32)%N else c.

(** [String.prototype.toLowerCase]. *)
Definition toLowerCase (s : jsstring) : jsstring := map lowerUnit s.

Fixpoint dropWhile (p : N -> bool) (s : jsstring) : jsstring :=
  match s with
  | [] => []
  | c :: r => if p c then dropWhile p r else s
  end.

(** [dropEndWhile p s] removes the longest suffix of [s] made of [p]. *)
Fixpoint dropEndWhile (p : N -> bool) (s : jsstring) : jsstring :=
  match s with
  | [] => []
  | c :: r =>
    match dropEndWhile p r with
    | [] => if p c then [] else [c]
    | r' => c :: r'
    end
  end.

(** [String.prototype.trim]. *)
Definition trim (s : jsstring) : jsstring :=
  dropEndWhile isSpace (dropWhile isSpace s).

Fixpoint jsstring_eqb (a b : jsstring) : bool :=
  match a, b with
  | [], [] => true
  | x :: a', y :: b' => (x =? y)%N && jsstring_eqb a' b'
  | _, _ => false
  end.

(** [s.startsWith(p)] *)
Fixpoint startsWith (s p : jsstring) : bool :=
  match p with
  | [] => true
  | c :: p' =>
    match s with
    | [] => false
    | d :: s' => (d =? c)%N && startsWith s' p'
    end
  end.

(** [s.includes(p)] *)
Fixpoint includes (s p : jsstring) : bool :=
  startsWith s p ||
  match s with
  | [] => false
  | _ :: s' => includes s' p
  end.

(** [s.split(d)[0]] for a non-empty delimiter [d]: the text before the first
    occurrence of [d], or all of [s]. *)
Fixpoint splitHead (s d : jsstring) : jsstring :=
  match s with
  | [] => []
  | c :: r => if startsWith s d then [] else c :: splitHead r d
  end.

(** Truthiness of a string: [!s] is [isEmpty s]. *)
Definition isEmpty (s : jsstring) : bool :=
  match s with [] => true | _ => false end.

(** [s || d] for strings. *)
Definition orElse (s d : jsstring) : jsstring := if isEmpty s then d else s.

(** An optional (possibly [undefined]) string under [x || ''], and its
    truthiness. *)
Definition orEmpty (o : option jsstring) : jsstring :=
  match o with Some s => s | None => [] end.

(** Join with a separator, as [Array.prototype.join]. *)
Fixpoint join (sep : jsstring) (l : list jsstring) : jsstring :=
  match l with
  | [] => []
  | [x] => x
  | x :: r => x ++ sep ++ join sep r
  end.

(** Decimal digits of a natural number, as Number-to-string gives them for
    an integer below 2^53. *)
Fixpoint digitsFuel (fuel : nat) (n : N) (acc : jsstring) : jsstring :=
  match fuel with
  | O => acc
  | S f =>
    let acc' := (48 + n mod 10)%N :: acc in
    if (n <? 10)%N then acc' else digitsFuel f (n / 10)%N acc'
  end.

Definition decimalN (n : N) : jsstring := digitsFuel (S (N.to_nat (N.log2 n))) n [].

Definition decimalZ (z : Z) : jsstring :=
  if (z <? 0)%Z then 45%N :: decimalN (Z.to_N (- z)) else decimalN (Z.to_N z).

(** [parseInt] of a run of decimal digits. *)
Definition parseDigits (ds : jsstring) : N :=
  fold_left (fun acc d => (acc * 10 + (d - 48))%N) ds 0%N.

(** An identifier of an entry ([animeId]): a number or a string.  [Set]
    membership and [===] tell the two apart (SameValueZero); [String(id)]
    and template literals print a number in decimal. *)
Inductive JsId : Type :=
| IdNum (n : Z)
| IdStr (s : jsstring).

Definition idToString (i : JsId) : jsstring :=
  match i with
  | IdNum n => decimalZ n
  | IdStr s => s
  end.

Definition JsId_eqb (a b : JsId) : bool :=
  match a, b with
  | IdNum x, IdNum y => (x =? y)%Z
  | IdStr x, IdStr y => jsstring_eqb x y
  | _, _ => false
  end.

(** ** MergedIdGenerator: [generateSafeMergedId] *)

(** [ToInt32]: wrap to a signed 32-bit integer ([x | 0]). *)
Definition toInt32 (z : Z) : Z := ((z + 2 ^ 31) mod 2 ^ 32 - 2 ^ 31)%Z.

(** [h << k] on 32-bit integers. *)
Definition shl32 (h k : Z) : Z := toInt32 (Z.shiftl (toInt32 h) (Z.land k 31)).

(** One round of the loop:
    [hash = ((hash << 5) - hash) + str.charCodeAt(i); hash |= 0]. *)
Definition hashStep (hash : Z) (c : N) : Z :=
  toInt32 ((shl32 hash 5 - hash) + Z.of_N c)%Z.

Definition hashString (str : jsstring) : Z := fold_left hashStep str 0%Z.

Definition underscore : jsstring := js "_".

Definition generateSafeMergedId (id1 id2 : JsId) (salt : jsstring) : Z :=
  let str := idToString id1 ++ underscore ++ idToString id2 ++ underscore ++ salt in
  let hash := hashString str in
  (Z.abs hash mod 1000000000 + 1000000000)%Z.

(** The generator in the words of the specification: the polynomial rolling
    hash [hash*31 + charCode] wrapped to 32-bit signed, then
    [abs(hash) mod 10^9] moved into the target range. *)
Definition polyStep (hash : Z) (c : N) : Z := toInt32 (hash * 31 + Z.of_N c)%Z.

Definition mergedIdSpec (idA idB : JsId) (salt : jsstring) : Z :=
  let hash := fold_left polyStep
                (idToString idA ++ js "_" ++ idToString idB ++ js "_" ++ salt) 0%Z in
  (Z.abs hash mod 1000000000 + 1000000000)%Z.

(** ** Regular expressions

    The patterns of the source are kept as syntax trees and run by a
    backtracking matcher in continuation-passing style: alternatives are
    tried left to right, a greedy star tries one more iteration before the
    continuation, a lazy one the continuation first, and an iteration that
    consumes nothing is not taken, as in ECMAScript. *)
Inductive regex : Type :=
| RChar (c : N)                         (* a literal code unit *)
| RSet (p : N -> bool)                  (* a class: [..], \s, \d, . *)
| RSeq (a b : regex)
| RAlt (a b : regex)
| RStar (greedy : bool) (a : regex)     (* a* and a*? *)
| RGroup (n : nat) (a : regex)          (* the n-th capturing group *)
| REmpty
| RBol                                  (* ^ (no m flag) *)
| REol.                                 (* $ (no m flag) *)

Definition RPlus (a : regex) : regex := RSeq a (RStar true a).
Definition ROpt (a : regex) : regex := RAlt a REmpty.
Definition RLit (s : jsstring) : regex := fold_right (fun c r => RSeq (RChar c) r) REmpty s.
Definition RAny : regex := RSet (fun c => negb (isLineTerminator c)).
Definition RSpace : regex := RSet isSpace.
Definition RDigit : regex := RSet isDigit.
Definition ROneOf (s : jsstring) : regex := RSet (fun c => existsb (N.eqb c) s).
Definition RNoneOf (s : jsstring) : regex := RSet (fun c => negb (existsb (N.eqb c) s)).
Fixpoint RAlts (l : list regex) : regex :=
  match l with
  | [] => REmpty
  | [a] => a
  | a :: r => RAlt a (RAlts r)
  end.
Fixpoint RSeqs (l : list regex) : regex :=
  match l with
  | [] => REmpty
  | [a] => a
  | a :: r => RSeq a (RSeqs r)
  end.

(** The state of a match: the input still to read, the index reached and
    the captures recorded so far (latest first). *)
Record mstate : Type := MState {
  m_rest : jsstring;
  m_pos : N;
  m_caps : list (nat * jsstring)
}.

Definition unitMatches (ignoreCase : bool) (x c : N) : bool :=
  if ignoreCase then (upperUnit x =? upperUnit c)%N else (x =? c)%N.

Definition orTry {A} (a : option A) (b : unit -> option A) : option A :=
  match a with
  | Some x => Some x
  | None => b tt
  end.

(** The iterations of a star over the matcher [body] of its operand: with
    fuel left, one more iteration (which has to consume input) is tried
    before or after the continuation [k]. *)
Fixpoint starLoop (body : mstate -> (mstate -> option mstate) -> option mstate)
         (greedy : bool) (k : mstate -> option mstate) (fuel : nat) (st0 : mstate)
  : option mstate :=
  match fuel with
  | O => k st0
  | S fuel' =>
    let again (_ : unit) :=
      body st0
           (fun st1 =>
              if (List.length (m_rest st1) <? List.length (m_rest st0))%nat
              then starLoop body greedy k fuel' st1 else None) in
    if greedy then orTry (again tt) (fun _ => k st0)
    else orTry (k st0) again
  end.

Fixpoint rmatch (ic : bool) (r : regex) (st : mstate)
         (k : mstate -> option mstate) {struct r} : option mstate :=
  match r with
  | RChar c =>
    match m_rest st with
    | x :: rest =>
      if unitMatches ic x c then k (MState rest (m_pos st + 1) (m_caps st)) else None
    | [] => None
    end
  | RSet p =>
    match m_rest st with
    | x :: rest => if p x then k (MState rest (m_pos st + 1) (m_caps st)) else None
    | [] => None
    end
  | RSeq a b => rmatch ic a st (fun st' => rmatch ic b st' k)
  | RAlt a b => orTry (rmatch ic a st k) (fun _ => rmatch ic b st k)
  | RStar greedy a => starLoop (rmatch ic a) greedy k (S (List.length (m_rest st))) st
  | RGroup n a =>
    rmatch ic a st
           (fun st' =>
              let len := (List.length (m_rest st) - List.length (m_rest st'))%nat in
              k (MState (m_rest st') (m_pos st')
                        ((n, firstn len (m_rest st)) :: m_caps st')))
  | REmpty => k st
  | RBol => if (m_pos st =? 0)%N then k st else None
  | REol => if isEmpty (m_rest st) then k st else None
  end.

(** A compiled pattern: its tree and the [i] flag. *)
Record pattern : Type := Pattern { p_re : regex; p_ignoreCase : bool }.

(** A match at the index [pos], [s] being the input from there on. *)
Definition matchAt (p : pattern) (s : jsstring) (pos : N) : option mstate :=
  rmatch (p_ignoreCase p) (p_re p) (MState s pos []) Some.

(** What a successful match exposes: the text before it, the matched text,
    the text after it and the captures. *)
Record matchInfo : Type := MatchInfo {
  mi_before : jsstring;
  mi_text : jsstring;
  mi_after : jsstring;
  mi_caps : list (nat * jsstring)
}.

(** The n-th capture, [None] when the group did not take part. *)
Fixpoint lookupCap (n : nat) (caps : list (nat * jsstring)) : option jsstring :=
  match caps with
  | [] => None
  | (m, t) :: r => if (m =? n)%nat then Some t else lookupCap n r
  end.

Definition cap (n : nat) (m : matchInfo) : option jsstring := lookupCap n (mi_caps m).
(** A capture spliced into a template: [undefined] prints as nothing. *)
Definition capText (n : nat) (m : matchInfo) : jsstring := orEmpty (cap n m).

(** The leftmost match of [p] in [s] read from index [pos] on; [before] is
    the reversed text already passed. *)
Fixpoint searchFrom (p : pattern) (before : jsstring) (s : jsstring) (pos : N)
  : option matchInfo :=
  match matchAt p s pos with
  | Some st =>
    let len := (List.length s - List.length (m_rest st))%nat in
    Some (MatchInfo (rev before) (firstn len s) (m_rest st) (m_caps st))
  | None =>
    match s with
    | [] => None
    | c :: s' => searchFrom p (c :: before) s' (pos + 1)
    end
  end.

(** [s.match(p)] and [p.exec(s)] for a pattern without the [g] flag. *)
Definition reExec (p : pattern) (s : jsstring) : option matchInfo :=
  searchFrom p [] s 0.

(** [p.test(s)] *)
Definition reTest (p : pattern) (s : jsstring) : bool :=
  match reExec p s with Some _ => true | None => false end.

(** [s.replace(p, f)] for a pattern without the [g] flag: the first match. *)
Definition replaceFirst (p : pattern) (f : matchInfo -> jsstring) (s : jsstring)
  : jsstring :=
  match reExec p s with
  | Some m => mi_before m ++ f m ++ mi_after m
  | None => s
  end.

(** [s.replace(p, f)] for a pattern with the [g] flag: every match, left to
    right, the search resuming where the previous match ended (one unit
    further after an empty match). *)
Fixpoint replaceAllFrom (fuel : nat) (p : pattern) (f : matchInfo -> jsstring)
         (before : jsstring) (s : jsstring) (pos : N) : jsstring :=
  match fuel with
  | O => s
  | S fuel' =>
    let skip (_ : unit) :=
      match s with
      | [] => []
      | c :: s' => c :: replaceAllFrom fuel' p f (c :: before) s' (pos + 1)
      end in
    match matchAt p s pos with
    | Some st =>
      let len := (List.length s - List.length (m_rest st))%nat in
      let m := MatchInfo (rev before) (firstn len s) (m_rest st) (m_caps st) in
      if (len =? 0)%nat then f m ++ skip tt
      else f m ++ replaceAllFrom fuel' p f (rev (firstn len s) ++ before)
                                 (m_rest st) (pos + N.of_nat len)
    | None => skip tt
    end
  end.

Definition replaceAll (p : pattern) (f : matchInfo -> jsstring) (s : jsstring)
  : jsstring :=
  replaceAllFrom (S (List.length s)) p f [] s 0.

(** The matches that [s.replace(p, f)] visits for a pattern with the [g]
    flag, left to right: those of [s.matchAll(p)]. *)
Fixpoint matchAllFrom (fuel : nat) (p : pattern) (before : jsstring) (s : jsstring)
         (pos : N) : list matchInfo :=
  match fuel with
  | O => []
  | S fuel' =>
    let skip (_ : unit) :=
      match s with
      | [] => []
      | c :: s' => matchAllFrom fuel' p (c :: before) s' (pos + 1)
      end in
    match matchAt p s pos with
    | Some st =>
      let len := (List.length s - List.length (m_rest st))%nat in
      let m := MatchInfo (rev before) (firstn len s) (m_rest st) (m_caps st) in
      if (len =? 0)%nat then m :: skip tt
      else m :: matchAllFrom fuel' p (rev (firstn len s) ++ before)
                             (m_rest st) (pos + N.of_nat len)
    | None => skip tt
    end
  end.

Definition matchAll (p : pattern) (s : jsstring) : list matchInfo :=
  matchAllFrom (S (List.length s)) p [] s 0.

(** Patterns with and without the [i] flag. *)
Definition re (r : regex) : pattern := Pattern r false.
Definition rei (r : regex) : pattern := Pattern r true.
Definition lit (s : string) : regex := RLit (js s).
Definition oneOf (s : string) : regex := ROneOf (js s).

(** ** Constants of the module *)

(** [MERGE_DELIMITER] and [DISPLAY_CONNECTOR]. *)
Definition MERGE_DELIMITER : jsstring := js "$$$".
Definition DISPLAY_CONNECTOR : jsstring := js "&".

(** Modelled from the spec: [simplized] of [utils/zh-util.js], which is not
    among the sources ("converts to simplified-script form").  The functions
    below take the converter as a parameter; this table-driven instance, a
    unit-by-unit conversion over a few traditional forms of the words the
    patterns mention, is the one the concrete runs use.  It leaves every
    other code unit, all of Basic Latin included, as it is. *)
Definition simplizedPairs : list (N * N) :=
  combine (js "劇場電視國語續話終區灣臺會")
          (js "剧场电视国语续话终区湾台会").

Fixpoint assocN (c : N) (t : list (N * N)) : N :=
  match t with
  | [] => c
  | (a, b) :: r => if (a =? c)%N then b else assocN c r
  end.

Definition simplizedModel (s : jsstring) : jsstring :=
  map (fun c => assocN c simplizedPairs) s.

(** ** Data model *)

(** An episode link.  [title] and [name] may be missing; [url] is a string. *)
Record Link : Type := mkLink {
  title : option jsstring;
  name : option jsstring;
  url : jsstring
}.

(** An anime entry.  [episodeCount] is [0] when the count is missing or
    zero (both are falsy under [episodeCount || ...]); [links] is [None]
    when the entry carries no link list. *)
Record Anime : Type := mkAnime {
  animeId : JsId;
  bangumiId : jsstring;
  animeTitle : jsstring;
  source : jsstring;
  startDate : option jsstring;
  typeDescription : option jsstring;
  episodeCount : Z;
  links : option (list Link);
  _isMerged : bool
}.

(** An element of the lists [filterEpisodes] returns. *)
Record LinkItem : Type := mkItem { link : Link; originalIndex : nat }.


(** The items of a link list with their indices, from [i] on. *)
Fixpoint withIndex (i : nat) (l : list Link) : list LinkItem :=
  match l with
  | [] => []
  | x :: r => mkItem x i :: withIndex (S i) r
  end.

(** A configured group of [globals.mergeSourcePairs]. *)
Record MergeGroup : Type := mkGroup { primary : jsstring; secondaries : list jsstring }.

(** ** Concrete data for the examples *)

(** Filtered link items with the given titles. *)
Definition sampleItems (ts : list string) : list LinkItem :=
  withIndex 0 (map (fun t => mkLink (Some (js t)) None (js "u")) ts).

(** A host without dates and a cache that appends, for the concrete runs. *)
Definition hostDateNone (_ : jsstring) : option (Z * Z) := None.
Definition addAnimePush (a : Anime) (cache : list Anime) : list Anime := cache ++ [a].

(** An entry of [src] titled [t] whose episodes are ["第1集"], ["第2集"], ..
    with the urls [u1], [u2], .. *)
Definition sampleLinks (u : string) (n : nat) : list Link :=
  map (fun k => mkLink (Some (js "第" ++ decimalN (N.of_nat k) ++ js "集")) None
                       (js u ++ decimalN (N.of_nat k)))
      (seq 1 n).

Definition sampleAnime (id : Z) (src t u : string) (n : nat) : Anime :=
  mkAnime (IdNum id) (decimalZ id) (js t ++ js " from " ++ js src) (js src) None None
          (Z.of_nat n) (Some (sampleLinks u n)) false.

(** Three sources for one title: six episodes on [A], one on [B], six on [C]. *)
Definition animeA : Anime := sampleAnime 101 "A" "Foo" "a" 6.
Definition animeB : Anime := sampleAnime 202 "B" "Foo" "b" 1.
Definition animeC : Anime := sampleAnime 303 "C" "Foo" "c" 6.
(** The entry of [B] with its only episode titled as an opening. *)
Definition animeBOpening : Anime :=
  mkAnime (IdNum 202) (js "202") (js "Foo from B") (js "B") None None 1
          (Some [mkLink (Some (js "Opening")) None (js "b1")]) false.
(** The urls of the links of an entry. *)
Definition linkUrls (a : Anime) : list jsstring :=
  match links a with Some l => map url l | None => [] end.
Definition groupABC : MergeGroup := mkGroup (js "A") [js "B"; js "C"].
Definition groupAB : MergeGroup := mkGroup (js "A") [js "B"].
Definition groupAC : MergeGroup := mkGroup (js "A") [js "C"].

(** The list and cache of the concrete runs, and two episode lists whose
    numbering differs by one. *)
Definition sampleCur : list Anime := [animeA; animeB; animeC].
Definition episodes123 : list LinkItem := sampleItems ["第1集"; "第2集"; "第3集"]%string.
Definition episodes234 : list LinkItem := sampleItems ["EP2"; "EP3"; "EP4"]%string.

(** Closed goals: a conjunction of equations between computed values. *)
Ltac conj_compute :=
  repeat match goal with |- _ /\ _ => split end; vm_compute; reflexivity.

Section Merge.

(** [simplized] (traditional to simplified script), imported from
    [utils/zh-util.js]. *)
Variable simplized : jsstring -> jsstring.

(** ** TextNormalizer *)

(** An object literal used as a table from strings to strings; a key it
    lacks reads as [undefined]. *)
Fixpoint tableGet (t : list (jsstring * jsstring)) (key : jsstring) : jsstring :=
  match t with
  | [] => js "undefined"
  | (k, v) :: r => if jsstring_eqb k key then v else tableGet r key
  end.

(** The table [cnNums] of [cleanText]. *)
Definition cnNums : list (jsstring * jsstring) :=
  [ (js "一", js "1"); (js "二", js "2"); (js "三", js "3"); (js "四", js "4");
    (js "五", js "5"); (js "六", js "6"); (js "七", js "7"); (js "八", js "8");
    (js "九", js "9"); (js "十", js "10") ].

(** The table [rMap] of [cleanText]. *)
Definition rMap : list (jsstring * jsstring) :=
  [ (js "I", js "1"); (js "II", js "2"); (js "III", js "3"); (js "IV", js "4") ].

(** [/(?:The\s+)?Final\s+Season/gi] *)
Definition reFinalSeason : pattern :=
  rei (RSeqs [ROpt (RSeq (lit "The") (RPlus RSpace)); lit "Final"; RPlus RSpace; lit "Season"]).
(** [/(?:Season|S)\s*(\d+)/gi] *)
Definition reSeasonN : pattern :=
  rei (RSeqs [RAlt (lit "Season") (lit "S"); RStar true RSpace; RGroup 1 (RPlus RDigit)]).
(** [/第([一二三四五六七八九十])季/g] *)
Definition reCnSeason : pattern :=
  re (RSeqs [lit "第"; RGroup 1 (oneOf "一二三四五六七八九十"); lit "季"]).
(** [/(?:Part|P)[\s.]*(\d+)/gi] *)
Definition rePartN : pattern :=
  rei (RSeqs [RAlt (lit "Part") (lit "P");
              RStar true (RSet (fun c => isSpace c || (c =? 46)%N));
              RGroup 1 (RPlus RDigit)]).
(** [/(\s|^)(IV|III|II|I)(\s|$)/g] *)
Definition reRoman : pattern :=
  re (RSeqs [RGroup 1 (RAlt RSpace RBol);
             RGroup 2 (RAlts [lit "IV"; lit "III"; lit "II"; lit "I"]);
             RGroup 3 (RAlt RSpace REol)]).
(** [/(\(|（)?(普通话|国语|中文配音|中配)版?(\)|）)?/g] *)
Definition reDubCn : pattern :=
  re (RSeqs [ROpt (RGroup 1 (RAlt (lit "(") (lit "（")));
             RGroup 2 (RAlts [lit "普通话"; lit "国语"; lit "中文配音"; lit "中配"]);
             ROpt (lit "版");
             ROpt (RGroup 3 (RAlt (lit ")") (lit "）")))]).
(** [/(\(|（)?(日语|日配|原版)版?(\)|）)?/g] *)
Definition reDubJp : pattern :=
  re (RSeqs [ROpt (RGroup 1 (RAlt (lit "(") (lit "（")));
             RGroup 2 (RAlts [lit "日语"; lit "日配"; lit "原版"]);
             ROpt (lit "版");
             ROpt (RGroup 3 (RAlt (lit ")") (lit "）")))]).
(** [/【.*?】/g] *)
Definition reSourceTag : pattern :=
  re (RSeqs [lit "【"; RStar false RAny; lit "】"]).
(** [/(\(|（)仅限.*?地区(\)|）)/g] *)
Definition reRegionNote : pattern :=
  re (RSeqs [RGroup 1 (RAlt (lit "(") (lit "（")); lit "仅限"; RStar false RAny; lit "地区";
             RGroup 2 (RAlt (lit ")") (lit "）"))]).
(** [/[!！?？,，.。、~～:：\-–—]/g] *)
Definition rePunct : pattern := re (oneOf "!！?？,，.。、~～:：-–—").
(** [/\s+/g] *)
Definition reSpaces : pattern := re (RPlus RSpace).

(** The rewriting rules of [cleanText], from the script conversion down to
    the removal of punctuation (all but its last statement). *)
Definition cleanRules (text : jsstring) : jsstring :=
  let clean := simplized text in
  let clean := replaceAll reFinalSeason (fun _ => js "最终季") clean in
  let clean := replaceAll reSeasonN (fun m => js "第" ++ capText 1 m ++ js "季") clean in
  let clean := replaceAll reCnSeason
                 (fun m => js "第" ++ tableGet cnNums (capText 1 m) ++ js "季") clean in
  let clean := replaceAll rePartN (fun m => js "第" ++ capText 1 m ++ js "部分") clean in
  let clean := replaceAll reRoman
                 (fun m => capText 1 m ++ js "第" ++ tableGet rMap (capText 2 m) ++ js "季"
                           ++ capText 3 m) clean in
  let clean := replaceAll reDubCn (fun _ => js "中配版") clean in
  let clean := replaceAll reDubJp (fun _ => []) clean in
  let clean := replaceAll reSourceTag (fun _ => []) clean in
  let clean := replaceAll reRegionNote (fun _ => []) clean in
  replaceAll rePunct (fun _ => js " ") clean.

(** The last statement of [cleanText]:
    [clean.replace(/\s+/g, ' ').toLowerCase().trim()]. *)
Definition squeeze (clean : jsstring) : jsstring :=
  trim (toLowerCase (replaceAll reSpaces (fun _ => js " ") clean)).

Definition cleanText (text : jsstring) : jsstring :=
  if isEmpty text then [] else squeeze (cleanRules text).

(** Two passes of [cleanText] over [x]: the normal form [y] of [x], that of
    [y], and for each rule that can apply to a normal form whether it finds
    nothing to rewrite in [y] (in the order final season, season number,
    Chinese season numeral, part number, Chinese dubbing, Japanese dubbing,
    source tag, region note; the rule of the Chinese dubbing rewrites
    nothing when each of its matches is the text it writes). *)
Definition secondPass (x : jsstring) : jsstring * jsstring * list bool :=
  let y := cleanText x in
  (y, cleanText y,
   [negb (reTest reFinalSeason y); negb (reTest reSeasonN y); negb (reTest reCnSeason y);
    negb (reTest rePartN y);
    forallb (fun m => jsstring_eqb (mi_text m) (js "中配版")) (matchAll reDubCn y);
    negb (reTest reDubJp y); negb (reTest reSourceTag y); negb (reTest reRegionNote y)]).

(** [/(\(|（).*?(\)|）)/g] *)
Definition reParens : pattern :=
  re (RSeqs [RGroup 1 (RAlt (lit "(") (lit "（")); RStar false RAny;
             RGroup 2 (RAlt (lit ")") (lit "）"))]).

Definition removeParentheses (text : jsstring) : jsstring :=
  if isEmpty text then [] else trim (replaceAll reParens (fun _ => []) text).

(** [/^([^:]+):(.+)$/] *)
Definition reSourceId : pattern :=
  re (RSeqs [RBol; RGroup 1 (RPlus (RNoneOf (js ":"))); lit ":"; RGroup 2 (RPlus RAny); REol]).
(** [/^https?:\/\//i] *)
Definition reHttpScheme : pattern :=
  rei (RSeqs [RBol; lit "http"; ROpt (lit "s"); lit "://"]).

(** [sanitizeUrl]: the request id or URL behind a combined or prefixed
    string. *)
Definition sanitizeUrl (urlStr : jsstring) : jsstring :=
  if isEmpty urlStr then [] else
  let clean := trim (splitHead urlStr MERGE_DELIMITER) in
  if startsWith clean (js "//") then js "https:" ++ clean else
  match reExec reSourceId clean with
  | Some m =>
    let prefix := toLowerCase (capText 1 m) in
    let body := capText 2 m in
    if jsstring_eqb prefix (js "http") || jsstring_eqb prefix (js "https") then clean
    else if reTest reHttpScheme body then body
    else if startsWith body (js "//") then js "https:" ++ body
    else body
  | None => clean
  end.

(** ** SimilarityScorer *)

Definition Zlen (s : jsstring) : Z := Z.of_nat (List.length s).

(** One row of the matrix of [editDistance] after the first column:
    [diag] is [matrix[i-1][j-1]], [left] is [matrix[i][j-1]] and [up] runs
    over [matrix[i-1][j..]]. *)
Fixpoint fillRow (c : N) (s2 : jsstring) (diag left : Z) (up : list Z) : list Z :=
  match s2, up with
  | d :: s2', u :: up' =>
    let cost := if (c =? d)%N then 0%Z else 1%Z in
    let v := Z.min (Z.min (u + 1) (left + 1)) (diag + cost) in
    v :: fillRow c s2' u v up'
  | _, _ => []
  end.

(** The row [matrix[i]] from [matrix[i-1]], [c] being [s1.charAt(i-1)]. *)
Definition nextRow (i : Z) (c : N) (s2 : jsstring) (prev : list Z) : list Z :=
  match prev with
  | p0 :: up => i :: fillRow c s2 p0 i up
  | [] => [i]
  end.

(** The row [matrix[0]]: [0, 1, .., len2]. *)
Fixpoint firstRow (j : Z) (s2 : jsstring) : list Z :=
  match s2 with
  | [] => [j]
  | _ :: s2' => j :: firstRow (j + 1) s2'
  end.

Fixpoint editRows (i : Z) (s1 s2 : jsstring) (row : list Z) : list Z :=
  match s1 with
  | [] => row
  | c :: s1' => editRows (i + 1) s1' s2 (nextRow (i + 1) c s2 row)
  end.

(** [editDistance]: the Levenshtein distance, by rows;
    the result is [matrix[len1][len2]]. *)
Definition editDistance (s1 s2 : jsstring) : Z :=
  nth (List.length s2) (editRows 0 s1 s2 (firstRow 0 s2)) 0%Z.

(** The string iterator: code points, a surrogate pair read as one. *)
Definition isHighSurrogate (c : N) : bool := ((55296 <=? c) && (c <=? 56319))%N.
Definition isLowSurrogate (c : N) : bool := ((56320 <=? c) && (c <=? 57343))%N.

Fixpoint codePoints (s : jsstring) : list N :=
  match s with
  | [] => []
  | c :: r =>
    match r with
    | d :: r' =>
      if isHighSurrogate c && isLowSurrogate d then
        match codePoints r with
        | _ :: t => (65536 + (c - 55296) * 1024 + (d - 56320))%N :: t
        | [] => [c]
        end
      else c :: codePoints r
    | [] => [c]
    end
  end.

(** A [Set] of code points in insertion order. *)
Definition setHas (x : N) (s : list N) : bool := existsb (N.eqb x) s.
Definition setAdd (s : list N) (x : N) : list N := if setHas x s then s else s ++ [x].
(** [new Set(str)] *)
Definition newSet (str : jsstring) : list N := fold_left setAdd (codePoints str) [].

(** [/\s/g] *)
Definition reSpace : pattern := re RSpace.

Definition Qmax2 (a b : Q) : Q := if Qle_bool a b then b else a.
Definition Qmin2 (a b : Q) : Q := if Qle_bool a b then a else b.
Definition Qltb (a b : Q) : bool := negb (Qle_bool b a).
(** A division of two integers whose divisor is positive. *)
Definition Zratio (a b : Z) : Q := Qmake a (Z.to_pos b).

(** ** Numbers

    A Number is a binary64 value.  A finite one is kept as the rational it
    denotes; [round64] is the rounding of a real to the nearest binary64
    value, ties to even, with gradual underflow and without the overflow to
    an infinity, which [toNumber] adds.  Every arithmetic operation and every
    decimal literal of the source rounds its exact value this way. *)
Definition pow2 (e : Z) : Q :=
  if (0 <=? e)%Z then inject_Z (2 ^ e) else Qmake 1 (Z.to_pos (2 ^ (- e))).

(** [floor (log2 (n / d))] *)
Definition floorLog2 (n d : positive) : Z :=
  let k := (Z.log2 (Zpos n) - Z.log2 (Zpos d))%Z in
  let below := if (0 <=? k)%Z then (Zpos n <? Zpos d * 2 ^ k)%Z
               else (Zpos n * 2 ^ (- k) <? Zpos d)%Z in
  if below then (k - 1)%Z else k.

(** The integer nearest to [num / den], ties to even; [den] is positive. *)
Definition roundHalfEven (num den : Z) : Z :=
  let q := (num / den)%Z in
  match (2 * (num mod den) ?= den)%Z with
  | Lt => q
  | Gt => (q + 1)%Z
  | Eq => if Z.even q then q else (q + 1)%Z
  end.

(** A significand of 53 bits, the exponent not below [-1074]. *)
Definition round64pos (n d : positive) : Q :=
  let e := Z.max (floorLog2 n d - 52) (- 1074) in
  let m := if (0 <=? e)%Z then roundHalfEven (Zpos n) (Zpos d * 2 ^ e)
           else roundHalfEven (Zpos n * 2 ^ (- e)) (Zpos d) in
  Qred (inject_Z m * pow2 e).

Definition round64 (x : Q) : Q :=
  match Qnum x with
  | Z0 => 0
  | Zpos n => round64pos n (Qden x)
  | Zneg n => - round64pos n (Qden x)
  end.

(** [a + b], [a - b], [a * b] and [a / b] on finite Numbers whose result is
    finite ([b] is not [0] in a division). *)
Definition fadd (a b : Q) : Q := round64 (a + b).
Definition fsub (a b : Q) : Q := round64 (a - b).
Definition fmul (a b : Q) : Q := round64 (a * b).
Definition fdiv (a b : Q) : Q := round64 (a / b).

(** A Number that may be infinite or [NaN]: the episode and season numbers
    read from a text can be. *)
Inductive JsNumber : Type :=
| Finite (q : Q)
| PosInf
| NegInf
| NaN.

(** The Number value of a real: [round64], and an infinity from [2^1024]
    on. *)
Definition toNumber (x : Q) : JsNumber :=
  let r := round64 x in
  if Qle_bool (pow2 1024) r then PosInf
  else if Qle_bool r (- pow2 1024) then NegInf
  else Finite r.

(** [a - b] *)
Definition numSub (a b : JsNumber) : JsNumber :=
  match a, b with
  | NaN, _ | _, NaN => NaN
  | Finite x, Finite y => toNumber (x - y)
  | PosInf, PosInf | NegInf, NegInf => NaN
  | PosInf, _ | _, NegInf => PosInf
  | NegInf, _ | _, PosInf => NegInf
  end.

(** [a === b] *)
Definition numEqb (a b : JsNumber) : bool :=
  match a, b with
  | Finite x, Finite y => Qeq_bool x y
  | PosInf, PosInf | NegInf, NegInf => true
  | _, _ => false
  end.

(** [a < b] *)
Definition numLtb (a b : JsNumber) : bool :=
  match a, b with
  | Finite x, Finite y => Qltb x y
  | NegInf, Finite _ | NegInf, PosInf | Finite _, PosInf => true
  | _, _ => false
  end.

(** [c * scale] rounds to the Number [v]. *)
Definition roundsTo (c scale v : N) : bool :=
  Qeq_bool (round64 (inject_Z (Z.of_N (c * scale)))) (inject_Z (Z.of_N v)).

(** The digits of Number-to-string for a positive integer Number [v]: the
    shortest [c] with [c * scale] rounding to [v], [scale] running down the
    powers of ten from that of the leading digit of [v]; of two candidates
    the one nearer to [v], the even one if they are as near. *)
Fixpoint shortestDigits (fuel : nat) (scale v : N) : N * N :=
  match fuel with
  | O => (v, 1%N)
  | S f =>
    let lo := (v / scale)%N in
    let hi := (lo + 1)%N in
    let okLo := roundsTo lo scale v in
    let okHi := roundsTo hi scale v in
    if okLo && okHi then
      let dl := (v - lo * scale)%N in
      let dh := (hi * scale - v)%N in
      if (dl <? dh)%N then (lo, scale)
      else if (dh <? dl)%N then (hi, scale)
      else if N.even lo then (lo, scale) else (hi, scale)
    else if okLo then (lo, scale)
    else if okHi then (hi, scale)
    else shortestDigits f (scale / 10)%N v
  end.

(** Number-to-string of a non-negative integer Number: the shortest digits
    followed by zeros up to 21 digits, the exponent form [d.ddde+n] beyond. *)
Definition integerToString (v : N) : jsstring :=
  if (v =? 0)%N then js "0" else
  let n := List.length (decimalN v) in
  let '(c, scale) := shortestDigits n (10 ^ N.of_nat (n - 1))%N v in
  let digits := decimalN (c * scale) in
  if (List.length digits <=? 21)%nat then digits
  else
    match dropEndWhile (N.eqb 48) (decimalN c) with
    | [] => digits
    | d :: rest =>
      (d :: (if isEmpty rest then [] else js "." ++ rest))
        ++ js "e+" ++ decimalN (N.of_nat (List.length digits - 1))
    end.

(** Number-to-string of an integer Number or of one that is not finite, the
    Numbers the module prints. *)
Definition numberToString (x : JsNumber) : jsstring :=
  match x with
  | NaN => js "NaN"
  | PosInf => js "Infinity"
  | NegInf => js "-Infinity"
  | Finite q =>
    if Qltb q 0 then js "-" ++ integerToString (Z.to_N (Qfloor (- q)))
    else integerToString (Z.to_N (Qfloor q))
  end.

(** [parseInt] of a run of decimal digits, taken as correctly rounded. *)
Definition parseIntDigits (ds : jsstring) : JsNumber :=
  if isEmpty ds then NaN else toNumber (inject_Z (Z.of_N (parseDigits ds))).

(** [calculateDiceSimilarity] *)
Definition calculateDiceSimilarity (s1 s2 : jsstring) : Q :=
  if isEmpty s1 || isEmpty s2 then 0 else
  let set1 := newSet (replaceAll reSpace (fun _ => []) s1) in
  let set2 := newSet (replaceAll reSpace (fun _ => []) s2) in
  let size1 := Z.of_nat (List.length set1) in
  let size2 := Z.of_nat (List.length set2) in
  if (size1 =? 0)%Z && (size2 =? 0)%Z then 1
  else if (size1 =? 0)%Z || (size2 =? 0)%Z then 0
  else
    let intersection := Z.of_nat (List.length (filter (fun ch => setHas ch set2) set1)) in
    Zratio (2 * intersection) (size1 + size2).

(** [calculateSimilarity] *)
Definition calculateSimilarity (str1 str2 : jsstring) : Q :=
  if isEmpty str1 || isEmpty str2 then 0 else
  let s1 := cleanText str1 in
  let s2 := cleanText str2 in
  if jsstring_eqb s1 s2 then 1
  else if includes s1 s2 || includes s2 s1 then
    let lenRatio := Zratio (Z.min (Zlen s1) (Zlen s2)) (Z.max (Zlen s1) (Zlen s2)) in
    (8 # 10) + lenRatio * (2 # 10)
  else
    let distance := editDistance s1 s2 in
    let maxLength := Z.max (Zlen s1) (Zlen s2) in
    let editScore := if (maxLength =? 0)%Z then 1 else 1 - Zratio distance maxLength in
    let diceScore := calculateDiceSimilarity s1 s2 in
    Qmax2 editScore diceScore.

(** The two scores as the Number arithmetic gives them: each operation
    rounds, and [0.8] and [0.2] are the Numbers nearest to these decimals.
    [calculateDiceSimilarity] and [calculateSimilarity] above are the same
    expressions in exact arithmetic. *)
Definition calculateDiceSimilarity64 (s1 s2 : jsstring) : Q :=
  if isEmpty s1 || isEmpty s2 then 0 else
  let set1 := newSet (replaceAll reSpace (fun _ => []) s1) in
  let set2 := newSet (replaceAll reSpace (fun _ => []) s2) in
  let size1 := Z.of_nat (List.length set1) in
  let size2 := Z.of_nat (List.length set2) in
  if (size1 =? 0)%Z && (size2 =? 0)%Z then 1
  else if (size1 =? 0)%Z || (size2 =? 0)%Z then 0
  else
    let intersection := Z.of_nat (List.length (filter (fun ch => setHas ch set2) set1)) in
    fdiv (inject_Z (2 * intersection)) (inject_Z (size1 + size2)).

Definition calculateSimilarity64 (str1 str2 : jsstring) : Q :=
  if isEmpty str1 || isEmpty str2 then 0 else
  let s1 := cleanText str1 in
  let s2 := cleanText str2 in
  if jsstring_eqb s1 s2 then 1
  else if includes s1 s2 || includes s2 s1 then
    let lenRatio := fdiv (inject_Z (Z.min (Zlen s1) (Zlen s2)))
                         (inject_Z (Z.max (Zlen s1) (Zlen s2))) in
    fadd (round64 (8 # 10)) (fmul lenRatio (round64 (2 # 10)))
  else
    let distance := editDistance s1 s2 in
    let maxLength := Z.max (Zlen s1) (Zlen s2) in
    let editScore :=
      if (maxLength =? 0)%Z then 1 else fsub 1 (fdiv (inject_Z distance) (inject_Z maxLength)) in
    let diceScore := calculateDiceSimilarity64 s1 s2 in
    Qmax2 editScore diceScore.

(** ** ConflictDetector *)

(** [/(\(|（)(续篇|TV版|无修|未删减|完整版)(\)|）)/gi] *)
Definition reMetaSuffix : pattern :=
  rei (RSeqs [RGroup 1 (RAlt (lit "(") (lit "（"));
              RGroup 2 (RAlts [lit "续篇"; lit "TV版"; lit "无修"; lit "未删减"; lit "完整版"]);
              RGroup 3 (RAlt (lit ")") (lit "）"))]).
(** [/(\(|（)\d{4}(\)|）).*$/i] *)
Definition reYearTail : pattern :=
  rei (RSeqs [RGroup 1 (RAlt (lit "(") (lit "（")); RDigit; RDigit; RDigit; RDigit;
              RGroup 2 (RAlt (lit ")") (lit "）")); RStar true RAny; REol]).
(** [/\s*from\s+.*$/i] *)
Definition reFromTail : pattern :=
  rei (RSeqs [RStar true RSpace; lit "from"; RPlus RSpace; RStar true RAny; REol]).
(** [/^[\s:：\-–—(（\[【]/] *)
Definition reSeparator : pattern :=
  re (RSeq RBol (RSet (fun c => isSpace c || existsb (N.eqb c) (js ":：-–—(（[【")))).

(** The [lightClean] of [checkTitleSubtitleConflict]. *)
Definition lightCleanSubtitle (str : jsstring) : jsstring :=
  if isEmpty str then [] else
  let s := simplized str in
  let s := replaceAll reMetaSuffix (fun _ => []) s in
  let s := replaceFirst reYearTail (fun _ => []) s in
  let s := replaceAll reSourceTag (fun _ => []) s in
  let s := replaceFirst reFromTail (fun _ => []) s in
  toLowerCase (trim s).

(** [checkTitleSubtitleConflict] *)
Definition checkTitleSubtitleConflict (titleA titleB : jsstring) : bool :=
  if isEmpty titleA || isEmpty titleB then false else
  let t1 := lightCleanSubtitle titleA in
  let t2 := lightCleanSubtitle titleB in
  if jsstring_eqb t1 t2 then false else
  let '(short, long) :=
    if (List.length t1 <? List.length t2)%nat then (t1, t2) else (t2, t1) in
  if startsWith long short then
    if (List.length long =? List.length short)%nat then false else
    let nextChar := firstn 1 (skipn (List.length short) long) in
    if reTest reSeparator nextChar then
      let subtitle :=
        trim (replaceFirst reSeparator (fun _ => []) (skipn (List.length short) long)) in
      (2 <? List.length subtitle)%nat
    else false
  else false.

(** A [Set] of marker strings in insertion order. *)
Definition markerHas (m : jsstring) (s : list jsstring) : bool := existsb (jsstring_eqb m) s.
Definition markerAdd (s : list jsstring) (m : jsstring) : list jsstring :=
  if markerHas m s then s else s ++ [m].

(** One entry of the table [patterns] of [extractSeasonMarkers]: a pattern
    with either a [prefix] put before the number captured or a fixed [val]. *)
Inductive markerRule : Type :=
| PrefixRule (p : pattern) (prefix : jsstring)
| ValRule (p : pattern) (val : jsstring).

Definition seasonPatterns : list markerRule :=
  [ (* /(?:第)?(\d+)[季期部]/ *)
    PrefixRule (re (RSeqs [ROpt (lit "第"); RGroup 1 (RPlus RDigit); oneOf "季期部"])) (js "S");
    (* /season\s*(\d+)/ *)
    PrefixRule (re (RSeqs [lit "season"; RStar true RSpace; RGroup 1 (RPlus RDigit)])) (js "S");
    (* /s(\d+)/ *)
    PrefixRule (re (RSeqs [lit "s"; RGroup 1 (RPlus RDigit)])) (js "S");
    (* /part\s*(\d+)/ *)
    PrefixRule (re (RSeqs [lit "part"; RStar true RSpace; RGroup 1 (RPlus RDigit)])) (js "P");
    (* /(ova|oad)/ *)
    ValRule (re (RGroup 1 (RAlt (lit "ova") (lit "oad")))) (js "OVA");
    (* /(剧场版|movie|film|电影)/ *)
    ValRule (re (RGroup 1 (RAlts [lit "剧场版"; lit "movie"; lit "film"; lit "电影"]))) (js "MOVIE");
    (* /(续篇|续集)/ *)
    ValRule (re (RGroup 1 (RAlt (lit "续篇") (lit "续集")))) (js "SEQUEL");
    (* /sp/ *)
    ValRule (re (lit "sp")) (js "SP");
    (* /[^0-9](\d)$/ *)
    PrefixRule (re (RSeqs [RSet (fun c => negb (isDigit c)); RGroup 1 RDigit; REol])) (js "S") ].

(** The body of [patterns.forEach]. *)
Definition applyMarkerRule (t : jsstring) (markers : list jsstring) (rule : markerRule)
  : list jsstring :=
  match rule with
  | PrefixRule p prefix =>
    match reExec p t with
    | Some m => markerAdd markers (prefix ++ numberToString (parseIntDigits (capText 1 m)))
    | None => markers
    end
  | ValRule p val =>
    match reExec p t with
    | Some _ => markerAdd markers val
    | None => markers
    end
  end.

(** The table [cnNums] of [extractSeasonMarkers], in the order of its keys. *)
Definition seasonCnNums : list (jsstring * N) :=
  [ (js "一", 1); (js "二", 2); (js "三", 3); (js "四", 4); (js "五", 5); (js "final", 99) ]%N.

(** [extractSeasonMarkers] *)
Definition extractSeasonMarkers (title : jsstring) (typeDesc : option jsstring)
  : list jsstring :=
  let t := cleanText title in
  let type := cleanText (orEmpty typeDesc) in
  let markers := fold_left (applyMarkerRule t) seasonPatterns [] in
  let markers :=
    if includes type (js "剧场版") || includes type (js "movie") || includes type (js "film")
       || includes type (js "电影")
    then markerAdd markers (js "MOVIE") else markers in
  let markers :=
    if includes type (js "ova") || includes type (js "oad")
    then markerAdd markers (js "OVA") else markers in
  let markers :=
    if includes type (js "sp") || includes type (js "special")
    then markerAdd markers (js "SP") else markers in
  fold_left
    (fun markers '(cn, num) =>
       if includes t (js "第" ++ cn ++ js "季")
       then markerAdd markers (js "S" ++ decimalN num) else markers)
    seasonCnNums markers.

(** The strict media types. *)
Inductive MediaType : Type := MOVIE | TV.

Definition MediaType_eqb (a b : MediaType) : bool :=
  match a, b with
  | MOVIE, MOVIE | TV, TV => true
  | _, _ => false
  end.

(** [getStrictMediaType] *)
Definition getStrictMediaType (title : jsstring) (typeDesc : option jsstring)
  : option MediaType :=
  let fullText := toLowerCase (title ++ js " " ++ orEmpty typeDesc) in
  let hasMovie := includes fullText (js "电影") in
  let hasTV := includes fullText (js "电视剧") in
  if hasMovie && negb hasTV then Some MOVIE
  else if hasTV && negb hasMovie then Some TV
  else None.

(** The [lightClean] of [checkTheatricalExemption]. *)
Definition lightCleanTheatrical (str : jsstring) : jsstring :=
  if isEmpty str then [] else
  let s := simplized str in
  let s := replaceFirst reYearTail (fun _ => []) s in
  let s := replaceAll reSourceTag (fun _ => []) s in
  let s := replaceFirst reFromTail (fun _ => []) s in
  trim s.

(** [/.+[\s\u00A0\u3000].+/] *)
Definition reSpaceStructure : pattern :=
  re (RSeqs [RPlus RAny;
             RSet (fun c => isSpace c || (c =? 160)%N || (c =? 12288)%N);
             RPlus RAny]).

(** [checkTheatricalExemption] *)
Definition checkTheatricalExemption (titleA titleB : jsstring)
           (typeDescA typeDescB : option jsstring) : bool :=
  let isTheatrical :=
    includes (orEmpty typeDescA) (js "剧场版") || includes (orEmpty typeDescB) (js "剧场版") in
  if negb isTheatrical then false else
  let t1 := lightCleanTheatrical titleA in
  let t2 := lightCleanTheatrical titleB in
  reTest reSpaceStructure t1 && reTest reSpaceStructure t2.

(** [checkMediaTypeMismatch] *)
Definition checkMediaTypeMismatch (titleA titleB : jsstring)
           (typeDescA typeDescB : option jsstring) (countA countB : Z) : bool :=
  let mediaA := getStrictMediaType titleA typeDescA in
  let mediaB := getStrictMediaType titleB typeDescB in
  match mediaA, mediaB with
  | Some a, Some b =>
    if MediaType_eqb a b then false
    else if checkTheatricalExemption titleA titleB typeDescA typeDescB then false
    else
      let hasValidCounts := (0 <? countA)%Z && (0 <? countB)%Z in
      if hasValidCounts then
        let diff := Z.abs (countA - countB) in
        if (5 <? diff)%Z then true else false
      else true
  | _, _ => false
  end.

(** [checkSeasonMismatch] *)
Definition checkSeasonMismatch (titleA titleB : jsstring) (typeA typeB : option jsstring)
  : bool :=
  let markersA := extractSeasonMarkers titleA typeA in
  let markersB := extractSeasonMarkers titleB typeB in
  let sizeA := List.length markersA in
  let sizeB := List.length markersB in
  if (sizeA =? 0)%nat && (sizeB =? 0)%nat then false
  else if (0 <? sizeA)%nat && (0 <? sizeB)%nat then
    existsb (fun m => startsWith m (js "S") && negb (markerHas m markersB)
                      && existsb (fun b => startsWith b (js "S")) markersB) markersA
  else if negb (sizeA =? sizeB)%nat then
    if checkTheatricalExemption titleA titleB typeA typeB then false else true
  else false.

(** [hasSameSeasonMarker] *)
Definition hasSameSeasonMarker (titleA titleB : jsstring) (typeA typeB : option jsstring)
  : bool :=
  let markersA := extractSeasonMarkers titleA typeA in
  let markersB := extractSeasonMarkers titleB typeB in
  let seasonsA := filter (fun m => startsWith m (js "S")) markersA in
  let seasonsB := filter (fun m => startsWith m (js "S")) markersB in
  if (0 <? List.length seasonsA)%nat && (0 <? List.length seasonsB)%nat
  then existsb (fun sa => markerHas sa seasonsB) seasonsA
  else false.

(** The object [parseDate] returns; [None] is [null]. *)
Record DateInfo : Type := mkDate { year : option Z; month : option Z }.

Definition noDate : DateInfo := mkDate None None.

(** A year or month under [!x]: [null] and [0] are falsy. *)
Definition truthyNum (o : option Z) : bool :=
  match o with Some v => negb (v =? 0)%Z | None => false end.
Definition numOr0 (o : option Z) : Z := match o with Some v => v | None => 0%Z end.

(** [checkDateMatch]; [-1] is the hard mismatch. *)
Definition checkDateMatch (dateA dateB : DateInfo) : Q :=
  if negb (truthyNum (year dateA)) || negb (truthyNum (year dateB)) then 0 else
  let yearDiff := Z.abs (numOr0 (year dateA) - numOr0 (year dateB)) in
  if (1 <? yearDiff)%Z then -(1)
  else if (yearDiff =? 0)%Z then
    if truthyNum (month dateA) && truthyNum (month dateB) then
      let monthDiff := Z.abs (numOr0 (month dateA) - numOr0 (month dateB)) in
      if (2 <? monthDiff)%Z then 0
      else if (monthDiff =? 0)%Z then 2 # 10 else 1 # 10
    else 1 # 10
  else 0.

(** [isMergeRatioValid] *)
Definition isMergeRatioValid (mergedCount totalA totalB : Z) (sourceA sourceB : jsstring)
  : bool :=
  if jsstring_eqb sourceA (js "animeko") || jsstring_eqb sourceB (js "animeko") then true else
  let maxTotal := Z.max totalA totalB in
  if (maxTotal =? 0)%Z then false else
  let ratio := Zratio mergedCount maxTotal in
  if (5 <? maxTotal)%Z && Qltb ratio (18 # 100) then false else true.

(** ** MatchFinder *)

(** [new Date(s)] of the host: [None] for an invalid date, else the local
    full year and the month index [getMonth()] of the date. *)
Variable hostDate : jsstring -> option (Z * Z).

(** [parseDate] *)
Definition parseDate (dateStr : option jsstring) : DateInfo :=
  match dateStr with
  | None => noDate
  | Some str =>
    if isEmpty str then noDate else
    match hostDate str with
    | None => noDate
    | Some (y, m) => mkDate (Some y) (Some (m + 1)%Z)
    end
  end.

(** [/\(\d{4}\).*$/] *)
Definition reYearTailAscii : pattern :=
  re (RSeqs [lit "("; RDigit; RDigit; RDigit; RDigit; lit ")"; RStar true RAny; REol]).
(** [/【(电影|电视剧)】/g] *)
Definition reTypeTag : pattern :=
  re (RSeqs [lit "【"; RGroup 1 (RAlt (lit "电影") (lit "电视剧")); lit "】"]).

(** The title used for similarity: year and type tag removed. *)
Definition titleForSim (rawTitle : jsstring) : jsstring :=
  trim (replaceAll reTypeTag (fun _ => []) (replaceFirst reYearTailAscii (fun _ => []) rawTitle)).

(** [a.episodeCount || (a.links ? a.links.length : 0)] *)
Definition knownCount (a : Anime) : Z :=
  if (episodeCount a =? 0)%Z
  then match links a with Some l => Z.of_nat (List.length l) | None => 0%Z end
  else episodeCount a.

(** The body of the loop of [findSecondaryMatch] over the candidates;
    the state is [(bestMatch, maxScore)]. *)
Definition matchStep (primaryAnime : Anime) (st : option Anime * Q) (secAnime : Anime)
  : option Anime * Q :=
  let '(bestMatch, maxScore) := st in
  let rawPrimaryTitle := animeTitle primaryAnime in
  let primaryTitleForSim := titleForSim rawPrimaryTitle in
  let primaryDate := parseDate (startDate primaryAnime) in
  let primaryCount := knownCount primaryAnime in
  let rawSecTitle := animeTitle secAnime in
  let secDate := parseDate (startDate secAnime) in
  let secTitleForSim := titleForSim rawSecTitle in
  let secCount := knownCount secAnime in
  if checkMediaTypeMismatch rawPrimaryTitle rawSecTitle (typeDescription primaryAnime)
                            (typeDescription secAnime) primaryCount secCount
  then st else
  let hasStructureConflict := checkTitleSubtitleConflict rawPrimaryTitle rawSecTitle in
  let isSeasonExactMatch :=
    hasSameSeasonMarker primaryTitleForSim secTitleForSim (typeDescription primaryAnime)
                        (typeDescription secAnime) in
  let dateScore := checkDateMatch primaryDate secDate in
  if negb isSeasonExactMatch && Qeq_bool dateScore (-(1)) then st else
  if checkSeasonMismatch primaryTitleForSim secTitleForSim (typeDescription primaryAnime)
                         (typeDescription secAnime)
  then st else
  let scoreFull := calculateSimilarity64 primaryTitleForSim secTitleForSim in
  let baseA := removeParentheses primaryTitleForSim in
  let baseB := removeParentheses secTitleForSim in
  let scoreBase := calculateSimilarity64 baseA baseB in
  let score := Qmax2 scoreFull scoreBase in
  let score := if hasStructureConflict then fsub score (round64 (15 # 100)) else score in
  let score :=
    if negb (Qeq_bool dateScore (-(1))) then fadd score (round64 dateScore) else score in
  if Qltb maxScore score then (Some secAnime, score) else st.

(** [findSecondaryMatch] *)
Definition findSecondaryMatch (primaryAnime : Anime) (secondaryList : list Anime)
  : option Anime :=
  match secondaryList with
  | [] => None
  | _ =>
    let '(bestMatch, maxScore) := fold_left (matchStep primaryAnime) secondaryList (None, 0) in
    if Qle_bool (round64 (6 # 10)) maxScore then bestMatch else None
  end.

(** ** EpisodeAligner *)

(** The object [extractEpisodeInfo] returns; [num] is [None] for [null]. *)
Record EpisodeInfo : Type :=
  mkInfo { isMovie : bool; num : option JsNumber; isSpecial : bool }.

(** The real a text matched by [\d+(\.\d+)?] denotes. *)
Definition decimalValue (s : jsstring) : Q :=
  let intPart := splitHead s (js ".") in
  let fracPart := skipn (S (List.length intPart)) s in
  if isEmpty fracPart then inject_Z (Z.of_N (parseDigits intPart))
  else inject_Z (Z.of_N (parseDigits intPart))
       + Qmake (Z.of_N (parseDigits fracPart)) (Pos.pow 10 (Pos.of_nat (List.length fracPart))).

(** [parseFloat] of such a text: the Number nearest to its value. *)
Definition parseDecimal (s : jsstring) : JsNumber :=
  if isEmpty s then NaN else toNumber (decimalValue s).

(** [/剧场版|movie|film/i] *)
Definition reMovieWord : pattern := rei (RAlts [lit "剧场版"; lit "movie"; lit "film"]).
(** [/^(s|o|sp|special)\d/i] *)
Definition reSpecialHead : pattern :=
  rei (RSeqs [RBol; RGroup 1 (RAlts [lit "s"; lit "o"; lit "sp"; lit "special"]); RDigit]).
(** [\d+(\.\d+)?] with the groups [n] and [n+1]. *)
Definition reNumber (n : nat) : regex :=
  RGroup n (RSeq (RPlus RDigit) (ROpt (RGroup (S n) (RSeq (lit ".") (RPlus RDigit))))).
(** [/(?:ep|o|s|part|第)\s*(\d+(\.\d+)?)/i] *)
Definition reStrongPrefix : pattern :=
  rei (RSeqs [RAlts [lit "ep"; lit "o"; lit "s"; lit "part"; lit "第"]; RStar true RSpace;
              reNumber 1]).
(** [/(?:^|\s)(\d+(\.\d+)?)(?:话|集|\s|$)/] *)
Definition reWeakPrefix : pattern :=
  re (RSeqs [RAlt RBol RSpace; reNumber 1; RAlts [lit "话"; lit "集"; RSpace; REol]]).

(** [extractEpisodeInfo]; the argument is the link title, possibly missing. *)
Definition extractEpisodeInfo (title : option jsstring) : EpisodeInfo :=
  let t := cleanText (orEmpty title) in
  let isMovie := reTest reMovieWord t in
  let isSpecial := reTest reSpecialHead t in
  let num :=
    match reExec reStrongPrefix t with
    | Some m => Some (parseDecimal (capText 1 m))
    | None =>
      match reExec reWeakPrefix t with
      | Some m => Some (parseDecimal (capText 1 m))
      | None => None
      end
    end in
  mkInfo isMovie num isSpecial.

(** The values [getSpecialEpisodeType] names. *)
Inductive SpecialType : Type := opening | ending | interview | Bloopers.

Definition SpecialType_eqb (a b : SpecialType) : bool :=
  match a, b with
  | opening, opening | ending, ending | interview, interview | Bloopers, Bloopers => true
  | _, _ => false
  end.

Definition optSpecial_eqb (a b : option SpecialType) : bool :=
  match a, b with
  | None, None => true
  | Some x, Some y => SpecialType_eqb x y
  | _, _ => false
  end.

(** [getSpecialEpisodeType] *)
Definition getSpecialEpisodeType (title : option jsstring) : option SpecialType :=
  if isEmpty (orEmpty title) then None else
  let t := toLowerCase (orEmpty title) in
  if includes t (js "opening") then Some opening
  else if includes t (js "ending") then Some ending
  else if includes t (js "interview") then Some interview
  else if includes t (js "Bloopers") then Some Bloopers
  else None.

(** [x.title || x.name || ""] *)
Definition titleOrName (l : Link) : jsstring :=
  orElse (orEmpty (title l)) (orElse (orEmpty (name l)) []).

(** [filterEpisodes]; the filter is given by its [test]. *)
Definition filterEpisodes (links : option (list Link)) (filterRegex : option (jsstring -> bool))
  : list LinkItem :=
  match links with
  | None => []
  | Some l =>
    match filterRegex with
    | None => withIndex 0 l
    | Some test => filter (fun item => negb (test (titleOrName (link item)))) (withIndex 0 l)
    end
  end.

(** [x.toFixed(4)] of a finite [x] below [10^21] in magnitude: [x] rounded
    to four decimals, ties away from zero. *)
Definition pad4 (n : N) : jsstring :=
  [48 + n / 1000 mod 10; 48 + n / 100 mod 10; 48 + n / 10 mod 10; 48 + n mod 10]%N.

Definition toFixed4 (x : Q) : jsstring :=
  let neg := Qltb x 0 in
  let ax := if neg then - x else x in
  let n := Z.to_N (Qfloor (ax * 10000 + (1 # 2))) in
  (if neg then js "-" else []) ++ decimalN (n / 10000) ++ js "." ++ pad4 (n mod 10000).

(** [x.toFixed(4)]: Number-to-string from [10^21] on and for a Number that
    is not finite. *)
Definition numToFixed4 (x : JsNumber) : jsstring :=
  match x with
  | Finite q =>
    if Qle_bool (inject_Z (10 ^ 21)) q || Qle_bool q (inject_Z (- 10 ^ 21))
    then numberToString x else toFixed4 q
  | _ => numberToString x
  end.

(** The [Map] [numericDiffs]: keys in insertion order. *)
Fixpoint mapGet (key : jsstring) (m : list (jsstring * Z)) : option Z :=
  match m with
  | [] => None
  | (k, v) :: r => if jsstring_eqb k key then Some v else mapGet key r
  end.

Fixpoint mapSet (key : jsstring) (v : Z) (m : list (jsstring * Z)) : list (jsstring * Z) :=
  match m with
  | [] => [(key, v)]
  | (k, w) :: r => if jsstring_eqb k key then (k, v) :: r else (k, w) :: mapSet key v r
  end.

(** [x || 0] on a count read from the map. *)
Definition countOr0 (o : option Z) : Z := match o with Some v => v | None => 0%Z end.

(** A [num] inside an arithmetic expression: [null] counts as [0]. *)
Definition numOrZero (o : option JsNumber) : JsNumber :=
  match o with Some x => x | None => Finite 0 end.

(** The smallest episode number among the items that are not special
    ([minNormalA], [minNormalB]). *)
Definition minNormal (items : list LinkItem) : option JsNumber :=
  fold_left
    (fun (acc : option JsNumber) item =>
       let info := extractEpisodeInfo (title (link item)) in
       match num info with
       | Some n =>
         if negb (isSpecial info) then
           match acc with
           | None => Some n
           | Some m => if numLtb n m then Some n else acc
           end
         else acc
       | None => acc
       end)
    items None.

(** The accumulators of one offset. *)
Record OffsetAcc : Type := mkOffsetAcc {
  totalTextScore : Q;
  rawTextScoreSum : Q;
  matchCount : Z;
  numericDiffs : list (jsstring * Z)
}.

(** The body of the loop over [secondaryLinks] for one offset.  The value
    [calculateSimilarity] returns for two titles is the argument
    [similarity]; [mergeInto] passes [calculateSimilarity64]. *)
Definition pairStep (similarity : jsstring -> jsstring -> Q)
           (primaryLinks : list LinkItem) (seasonShift : option JsNumber) (offset : Z)
           (acc : OffsetAcc) (i : Z) (sItem : LinkItem) : OffsetAcc :=
  let pIndex := (i + offset)%Z in
  if (0 <=? pIndex)%Z && (pIndex <? Z.of_nat (List.length primaryLinks))%Z then
    match nth_error primaryLinks (Z.to_nat pIndex) with
    | None => acc
    | Some pItem =>
      let titleA := orEmpty (title (link pItem)) in
      let titleB := orEmpty (title (link sItem)) in
      let infoA := extractEpisodeInfo (Some titleA) in
      let infoB := extractEpisodeInfo (Some titleB) in
      let pairScore : Q := 0 in
      let pairScore :=
        if negb (Bool.eqb (isMovie infoA) (isMovie infoB)) then fsub pairScore 5
        else pairScore in
      let specialTypeA := getSpecialEpisodeType (Some titleA) in
      let specialTypeB := getSpecialEpisodeType (Some titleB) in
      let pairScore :=
        match specialTypeA, specialTypeB with
        | None, None => pairScore
        | _, _ =>
          if negb (optSpecial_eqb specialTypeA specialTypeB)
          then fsub pairScore 10 else fadd pairScore 3
        end in
      let pairScore :=
        if Bool.eqb (isSpecial infoA) (isSpecial infoB) then fadd pairScore 3 else pairScore in
      let pairScore :=
        match seasonShift with
        | Some shift =>
          if negb (isSpecial infoA) && negb (isSpecial infoB)
             && numEqb (numSub (numOrZero (num infoA)) (numOrZero (num infoB))) shift
          then fadd pairScore 5 else pairScore
        | None => pairScore
        end in
      let sim := similarity titleA titleB in
      let pairScore := fadd pairScore sim in
      let pairScore :=
        match num infoA, num infoB with
        | Some a, Some b => if numEqb a b then fadd pairScore 2 else pairScore
        | _, _ => pairScore
        end in
      let diffs :=
        match num infoA, num infoB with
        | Some a, Some b =>
          let diffKey := numToFixed4 (numSub b a) in
          let count := countOr0 (mapGet diffKey (numericDiffs acc)) in
          mapSet diffKey (count + 1)%Z (numericDiffs acc)
        | _, _ => numericDiffs acc
        end in
      mkOffsetAcc (fadd (totalTextScore acc) pairScore) (fadd (rawTextScoreSum acc) sim)
                  (matchCount acc + 1)%Z diffs
    end
  else acc.

(** A loop [for (let i = i0; i < list.length; i++)] over the items. *)
Fixpoint forIndexed {A S : Type} (body : S -> Z -> A -> S) (i : Z) (l : list A) (st : S) : S :=
  match l with
  | [] => st
  | x :: r => forIndexed body (i + 1)%Z r (body st i x)
  end.

(** The final score of one offset; [None] when no pair is in range
    ([matchCount] is [0]).  [0.6], [0.33] and [0.15] are the Numbers nearest
    to these decimals. *)
Definition offsetScore (similarity : jsstring -> jsstring -> Q)
           (primaryLinks secondaryLinks : list LinkItem)
           (seasonShift : option JsNumber) (offset : Z) : option Q :=
  let acc := forIndexed (pairStep similarity primaryLinks seasonShift offset) 0%Z
                        secondaryLinks (mkOffsetAcc 0 0 0%Z []) in
  if (0 <? matchCount acc)%Z then
    let count := inject_Z (matchCount acc) in
    let finalScore := fdiv (totalTextScore acc) count in
    let maxFrequency :=
      fold_left (fun (m : Z) kv => if (m <? snd kv)%Z then snd kv else m)
                (numericDiffs acc) 0%Z in
    let consistencyRatio := fdiv (inject_Z maxFrequency) count in
    let avgRawTextScore := fdiv (rawTextScoreSum acc) count in
    let finalScore :=
      if Qltb (round64 (6 # 10)) consistencyRatio && Qltb (round64 (33 # 100)) avgRawTextScore
      then fadd finalScore 2 else finalScore in
    let coverageBonus := Qmin2 (fmul count (round64 (15 # 100))) (15 # 10) in
    let finalScore := fadd finalScore coverageBonus in
    let zeroDiffCount := countOr0 (mapGet (js "0.0000") (numericDiffs acc)) in
    let finalScore :=
      if (0 <? zeroDiffCount)%Z then fadd finalScore (fmul (inject_Z zeroDiffCount) 2)
      else finalScore in
    Some finalScore
  else None.

(** The offsets [-maxShift, .., maxShift] in the order of the loop. *)
Definition offsetRange (maxShift : Z) : list Z :=
  map (fun k => (Z.of_nat k - maxShift)%Z) (seq 0 (Z.to_nat (2 * maxShift + 1))).

(** The selection [if (finalScore > maxScore) ...] of the loop over the
    offsets; the state is [(bestOffset, maxScore)]. *)
Definition selectOffset (score : Z -> option Q) (st : Z * Q) (offset : Z) : Z * Q :=
  match score offset with
  | Some finalScore => if Qltb (snd st) finalScore then (offset, finalScore) else st
  | None => st
  end.

(** [Math.min(Math.max(primaryLinks.length, secondaryLinks.length), 15)] *)
Definition maxShiftOf (primaryLinks secondaryLinks : list LinkItem) : Z :=
  Z.min (Z.max (Z.of_nat (List.length primaryLinks)) (Z.of_nat (List.length secondaryLinks))) 15.

(** The [seasonShift] of two lists. *)
Definition seasonShiftOf (primaryLinks secondaryLinks : list LinkItem) : option JsNumber :=
  match minNormal primaryLinks, minNormal secondaryLinks with
  | Some a, Some b => Some (numSub a b)
  | _, _ => None
  end.

(** [findBestAlignmentOffset]; [0.3] is the Number nearest to this
    decimal. *)
Definition findBestAlignmentOffset (similarity : jsstring -> jsstring -> Q)
           (primaryLinks secondaryLinks : list LinkItem) : Z :=
  if (List.length primaryLinks =? 0)%nat || (List.length secondaryLinks =? 0)%nat then 0%Z else
  let seasonShift := seasonShiftOf primaryLinks secondaryLinks in
  let maxShift := maxShiftOf primaryLinks secondaryLinks in
  let '(bestOffset, maxScore) :=
    fold_left (selectOffset (offsetScore similarity primaryLinks secondaryLinks seasonShift))
              (offsetRange maxShift) (0%Z, -(999)) in
  if Qltb (round64 (3 # 10)) maxScore then bestOffset else 0%Z.

(** ** MergeOrchestrator

    The calls to [log] are left out: they read the state and change
    nothing.  [globals.animes] (the cache) and the sets and lists the
    function keeps are threaded through the loops as a record. *)

(** [addAnime] of [utils/cache-util.js]: its effect on [globals.animes]. *)
Variable addAnime : Anime -> list Anime -> list Anime.

(** A [Set] of ids. *)
Definition idHas (x : JsId) (s : list JsId) : bool := existsb (JsId_eqb x) s.
Definition idAdd (s : list JsId) (x : JsId) : list JsId := if idHas x s then s else s ++ [x].

(** What the trace of a run records (a ghost of the two places where the
    function takes an entry out of play): a secondary [matched] accepted
    for the primary [pid], and the merged entry pushed for the primary
    [pid]. *)
Inductive MergeEvent : Type :=
| Linked (pid matched : JsId)
| Emitted (pid : JsId) (merged : Anime).

Record MergeState : Type := mkState {
  animes : list Anime;                    (* globals.animes *)
  newMergedAnimes : list Anime;
  generatedSignatures : list jsstring;
  globalConsumedIds : list JsId;
  groupConsumedIds : list JsId;
  mergeTrace : list MergeEvent            (* ghost *)
}.

(** The locals of one primary entry. *)
Record PrimaryRun : Type := mkRun {
  derivedAnime : Anime;
  actualMergedSources : list jsstring;
  contentSignatureParts : list JsId;
  hasMergedAny : bool
}.

(** [globals.animes.find(a => String(a.animeId) === String(id))] *)
Definition findCached (cache : list Anime) (id : JsId) : option Anime :=
  find (fun a => jsstring_eqb (idToString (animeId a)) (idToString id)) cache.

(** [/^【([^】\d]+)(?:\d* )】/] (written without the blank) *)
Definition reSourceLabel : pattern :=
  re (RSeqs [RBol; lit "【";
             RGroup 1 (RPlus (RSet (fun c => negb (existsb (N.eqb c) (js "】")) && negb (isDigit c))));
             RStar true RDigit; lit "】"]).
(** [/^【([^】]+)】/] *)
Definition reLabel : pattern :=
  re (RSeqs [RBol; lit "【"; RGroup 1 (RPlus (RNoneOf (js "】"))); lit "】"]).

Definition truthy (o : option jsstring) : bool := negb (isEmpty (orEmpty o)).

Definition setUrl (l : Link) (u : jsstring) : Link := mkLink (title l) (name l) u.
Definition setTitle (l : Link) (t : option jsstring) : Link := mkLink t (name l) (url l).

(** [list[i] = x] for an index in range. *)
Fixpoint setNth {A : Type} (i : nat) (x : A) (l : list A) : list A :=
  match l, i with
  | [], _ => []
  | _ :: r, O => x :: r
  | y :: r, S i' => y :: setNth i' x r
  end.

(** The fusion of the link [sourceLink] of the secondary into the link
    [targetLink] of the derived entry. *)
Definition fuseLink (currentPrimarySource secSource : jsstring) (targetLink sourceLink : Link)
  : Link :=
  let idB := sanitizeUrl (url sourceLink) in
  let currentUrl := url targetLink in
  let secPart := secSource ++ js ":" ++ idB in
  let currentUrl :=
    if negb (includes currentUrl MERGE_DELIMITER) then
      if negb (startsWith currentUrl (currentPrimarySource ++ js ":"))
      then currentPrimarySource ++ js ":" ++ currentUrl else currentUrl
    else currentUrl in
  let targetLink := setUrl targetLink (currentUrl ++ MERGE_DELIMITER ++ secPart) in
  if truthy (title targetLink) then
    let sLabel :=
      if truthy (title sourceLink) then
        match reExec reSourceLabel (orEmpty (title sourceLink)) with
        | Some sMatch => trim (capText 1 sMatch)
        | None => secSource
        end
      else secSource in
    setTitle targetLink
             (Some (replaceFirst reLabel
                      (fun m => js "【" ++ capText 1 m ++ DISPLAY_CONNECTOR ++ sLabel ++ js "】")
                      (orEmpty (title targetLink))))
  else targetLink.

(** The body of the loop [for (let k = 0; k < filteredMLinksWithIndex.length; k++)];
    the state is the links of the derived entry and [mergedCount]. *)
Definition mergeLinkStep (currentPrimarySource secSource : jsstring) (offset : Z)
           (st : list Link * Z) (k : Z) (item : LinkItem) : list Link * Z :=
  let '(derivedLinks, mergedCount) := st in
  let pIndex := (k + offset)%Z in
  let sourceLink := link item in
  if (0 <=? pIndex)%Z && (pIndex <? Z.of_nat (List.length derivedLinks))%Z then
    match nth_error derivedLinks (Z.to_nat pIndex) with
    | None => st
    | Some targetLink =>
      let specialP := getSpecialEpisodeType (title targetLink) in
      let specialS := getSpecialEpisodeType (title sourceLink) in
      if negb (optSpecial_eqb specialP specialS) then st
      else
        (setNth (Z.to_nat pIndex)
                (fuseLink currentPrimarySource secSource targetLink sourceLink) derivedLinks,
         (mergedCount + 1)%Z)
    end
  else st.

Definition setIds (a : Anime) (id : JsId) (bid : jsstring) : Anime :=
  mkAnime id bid (animeTitle a) (source a) (startDate a) (typeDescription a)
          (episodeCount a) (links a) (_isMerged a).
Definition setLinks (a : Anime) (l : list Link) : Anime :=
  mkAnime (animeId a) (bangumiId a) (animeTitle a) (source a) (startDate a)
          (typeDescription a) (episodeCount a) (Some l) (_isMerged a).
Definition setTitleSource (a : Anime) (t src : jsstring) : Anime :=
  mkAnime (animeId a) (bangumiId a) t src (startDate a) (typeDescription a)
          (episodeCount a) (links a) (_isMerged a).

(** What one merge attempt against the matched entry [matched] does to the
    derived entry, and the number of links it merged: the statements from
    the computation of the offset to the end of the two link loops. *)
Definition mergeInto (epFilter : option (jsstring -> bool)) (groupFingerprint : jsstring)
           (currentPrimarySource secSource : jsstring)
           (derived : Anime) (matched : Anime) (cachedLinks : list Link)
  : Anime * Z * Z * Z :=
  let filteredPLinksWithIndex := filterEpisodes (links derived) epFilter in
  let filteredMLinksWithIndex := filterEpisodes (Some cachedLinks) epFilter in
  let offset :=
    findBestAlignmentOffset calculateSimilarity64 filteredPLinksWithIndex
                            filteredMLinksWithIndex in
  let newId := generateSafeMergedId (animeId derived) (animeId matched) groupFingerprint in
  let derived := setIds derived (IdNum newId) (decimalZ newId) in
  let '(newLinks, mergedCount) :=
    forIndexed (mergeLinkStep currentPrimarySource secSource offset) 0%Z
               filteredMLinksWithIndex (match links derived with Some l => l | None => [] end, 0%Z) in
  (setLinks derived newLinks, mergedCount,
   Z.of_nat (List.length filteredPLinksWithIndex),
   Z.of_nat (List.length filteredMLinksWithIndex)).

(** The body of the loop over [availableSecondaries] for the primary entry
    [pAnime]. *)
Definition trySecondary (curAnimes : list Anime) (epFilter : option (jsstring -> bool))
           (groupFingerprint currentPrimarySource : jsstring) (pAnime : Anime)
           (acc : MergeState * PrimaryRun) (secSource : jsstring) : MergeState * PrimaryRun :=
  let '(st, run) := acc in
  let secondaryItems :=
    filter (fun a => jsstring_eqb (source a) secSource
                     && negb (idHas (animeId a) (groupConsumedIds st))) curAnimes in
  match secondaryItems with
  | [] => acc
  | _ =>
    match findSecondaryMatch pAnime secondaryItems with
    | None => acc
    | Some matched =>
      match findCached (animes st) (animeId matched) with
      | None => acc
      | Some cachedMatch =>
        match links cachedMatch with
        | None => acc
        | Some cachedLinks =>
          let '(derived, mergedCount, totalP, totalM) :=
            mergeInto epFilter groupFingerprint currentPrimarySource secSource
                      (derivedAnime run) matched cachedLinks in
          if (0 <? mergedCount)%Z
             && isMergeRatioValid mergedCount totalP totalM currentPrimarySource secSource
          then
            (mkState (animes st) (newMergedAnimes st) (generatedSignatures st)
                     (idAdd (globalConsumedIds st) (animeId matched))
                     (idAdd (groupConsumedIds st) (animeId matched))
                     (mergeTrace st ++ [Linked (animeId pAnime) (animeId matched)]),
             mkRun derived (actualMergedSources run ++ [secSource])
                   (contentSignatureParts run ++ [animeId matched]) true)
          else
            (st, mkRun derived (actualMergedSources run) (contentSignatureParts run)
                       (hasMergedAny run))
        end
      end
    end
  end.

(** [GetSubstitution] for a string pattern: [$$], [$&], [$`] and [$'] in the
    replacement text. *)
Fixpoint expandTemplate (before matched after : jsstring) (t : jsstring) : jsstring :=
  match t with
  | [] => []
  | c :: r =>
    if (c =? 36)%N then
      match r with
      | d :: r' =>
        if (d =? 36)%N then 36%N :: expandTemplate before matched after r'
        else if (d =? 38)%N then matched ++ expandTemplate before matched after r'
        else if (d =? 96)%N then before ++ expandTemplate before matched after r'
        else if (d =? 39)%N then after ++ expandTemplate before matched after r'
        else c :: expandTemplate before matched after r
      | [] => [c]
      end
    else c :: expandTemplate before matched after r
  end.

(** [s.replace(pat, repl)] for a string [pat]: the first occurrence. *)
Fixpoint replaceStringFrom (before s pat repl : jsstring) : jsstring :=
  if startsWith s pat then
    rev before ++ expandTemplate (rev before) pat (skipn (List.length pat) s) repl
        ++ skipn (List.length pat) s
  else
    match s with
    | [] => rev before
    | c :: r => replaceStringFrom (c :: before) r pat repl
    end.

Definition replaceString (s pat repl : jsstring) : jsstring :=
  replaceStringFrom [] s pat repl.

(** The body of the loop over [primaryItems]. *)
Definition processPrimary (curAnimes : list Anime) (epFilter : option (jsstring -> bool))
           (groupFingerprint currentPrimarySource : jsstring)
           (availableSecondaries : list jsstring) (st : MergeState) (pAnime : Anime)
  : MergeState :=
  match findCached (animes st) (animeId pAnime) with
  | None => st
  | Some cachedPAnime =>
    match links cachedPAnime with
    | None => st
    | Some _ =>
      let '(st, run) :=
        fold_left (trySecondary curAnimes epFilter groupFingerprint currentPrimarySource pAnime)
                  availableSecondaries
                  (st, mkRun cachedPAnime [] [animeId pAnime] false) in
      if hasMergedAny run then
        let signature := join (js "|") (map idToString (contentSignatureParts run)) in
        if existsb (jsstring_eqb signature) (generatedSignatures st) then st
        else
          let joinedSources := join DISPLAY_CONNECTOR (actualMergedSources run) in
          let derived :=
            setTitleSource (derivedAnime run)
              (replaceString (animeTitle (derivedAnime run))
                             (js "from " ++ currentPrimarySource)
                             (js "from " ++ currentPrimarySource ++ DISPLAY_CONNECTOR
                                 ++ joinedSources))
              currentPrimarySource in
          mkState (addAnime derived (animes st))
                  (newMergedAnimes st ++ [derived])
                  (generatedSignatures st ++ [signature])
                  (idAdd (globalConsumedIds st) (animeId pAnime))
                  (idAdd (groupConsumedIds st) (animeId pAnime))
                  (mergeTrace st ++ [Emitted (animeId pAnime) derived])
      else st
    end
  end.

(** One step of the rotation: [currentPrimarySource] against the sources
    after it. *)
Definition rotationStep (curAnimes : list Anime) (epFilter : option (jsstring -> bool))
           (groupFingerprint currentPrimarySource : jsstring)
           (availableSecondaries : list jsstring) (st : MergeState) : MergeState :=
  let allSourceItems := filter (fun a => jsstring_eqb (source a) currentPrimarySource) curAnimes in
  match allSourceItems with
  | [] => st
  | _ =>
    let primaryItems :=
      filter (fun a => negb (idHas (animeId a) (groupConsumedIds st))) allSourceItems in
    fold_left (processPrimary curAnimes epFilter groupFingerprint currentPrimarySource
                              availableSecondaries) primaryItems st
  end.

(** The loop [for (let i = 0; i < fullPriorityList.length - 1; i++)]. *)
Fixpoint rotate (curAnimes : list Anime) (epFilter : option (jsstring -> bool))
         (groupFingerprint : jsstring) (chain : list jsstring) (st : MergeState)
  : MergeState :=
  match chain with
  | [] => st
  | currentPrimarySource :: availableSecondaries =>
    match availableSecondaries with
    | [] => st
    | _ =>
      rotate curAnimes epFilter groupFingerprint availableSecondaries
             (rotationStep curAnimes epFilter groupFingerprint currentPrimarySource
                           availableSecondaries st)
    end
  end.

(** The body of the loop over the groups. *)
Definition processGroup (curAnimes : list Anime) (epFilter : option (jsstring -> bool))
           (st : MergeState) (group : MergeGroup) : MergeState :=
  let st := mkState (animes st) (newMergedAnimes st) (generatedSignatures st)
                    (globalConsumedIds st) [] (mergeTrace st) in
  let fullPriorityList := primary group :: secondaries group in
  let groupFingerprint := join (js "&") fullPriorityList in
  rotate curAnimes epFilter groupFingerprint fullPriorityList st.

(** [arr.splice(i, 1)] *)
Fixpoint removeAt {A : Type} (i : nat) (l : list A) : list A :=
  match l, i with
  | [], _ => []
  | _ :: r, O => r
  | x :: r, S i' => x :: removeAt i' r
  end.

(** The cleanup [for (let i = curAnimes.length - 1; i >= 0; i--)]: [n] is
    [i + 1]. *)
Fixpoint cleanupFrom (consumed : list JsId) (n : nat) (curAnimes : list Anime) : list Anime :=
  match n with
  | O => curAnimes
  | S i =>
    match nth_error curAnimes i with
    | Some item =>
      if _isMerged item || idHas (animeId item) consumed
      then cleanupFrom consumed i (removeAt i curAnimes)
      else cleanupFrom consumed i curAnimes
    | None => cleanupFrom consumed i curAnimes
    end
  end.

(** What a call leaves behind: the list [curAnimes] and the state. *)
Record MergeResult : Type := mkResult { curAnimesOut : list Anime; finalState : MergeState }.

(** [applyMergeLogic]: [groups] is [globals.mergeSourcePairs], [epFilter]
    the compiled [globals.episodeTitleFilter] and [cache] the list
    [globals.animes] at the call. *)
Definition applyMergeLogic (groups : list MergeGroup) (epFilter : option (jsstring -> bool))
           (cache : list Anime) (curAnimes : list Anime) : MergeResult :=
  let st0 := mkState cache [] [] [] [] [] in
  match groups with
  | [] => mkResult curAnimes st0
  | _ =>
    let st := fold_left (processGroup curAnimes epFilter) groups st0 in
    let curAnimes :=
      match newMergedAnimes st with
      | [] => curAnimes
      | merged => merged ++ curAnimes
      end in
    mkResult (cleanupFrom (globalConsumedIds st) (List.length curAnimes) curAnimes) st
  end.

(** ** Notions the properties are stated with *)

(** The shape [squeeze] leaves: every whitespace unit is a single U+0020
    that no whitespace follows. *)
Definition headSpace (s : jsstring) : bool :=
  match s with
  | c :: _ => isSpace c
  | [] => false
  end.

Fixpoint collapsed (s : jsstring) : bool :=
  match s with
  | [] => true
  | c :: r => (if isSpace c then (c =? 32)%N && negb (headSpace r) else true) && collapsed r
  end.

(** The Levenshtein distance by its recurrence (on the strings read from
    their last unit to their first), against which the matrix is checked. *)
Fixpoint levenshtein (s t : jsstring) : Z :=
  match s with
  | [] => Zlen t
  | a :: s' =>
    (fix inner (t : jsstring) : Z :=
       match t with
       | [] => Zlen s
       | b :: t' =>
         Z.min (Z.min (levenshtein s' t + 1) (inner t' + 1))
               (levenshtein s' t' + (if (a =? b)%N then 0 else 1))
       end) t
  end.

(** The entries [matrix[i][j+1..]] of the row of the prefix [rp] (reversed),
    [acc] being the first [j] units of [s2] reversed. *)
Fixpoint levRow (rp acc todo : jsstring) : list Z :=
  match todo with
  | [] => []
  | d :: todo' => levenshtein rp (d :: acc) :: levRow rp (d :: acc) todo'
  end.

(** The entry an event takes out of play. *)
Definition consumedOf (ev : MergeEvent) : JsId :=
  match ev with
  | Linked _ matched => matched
  | Emitted pid _ => pid
  end.

(** The invariant of the run: what the trace says was consumed is in the
    global set. *)
Definition traceConsumed (st : MergeState) : Prop :=
  forall ev, In ev (mergeTrace st) -> In (consumedOf ev) (globalConsumedIds st).

(** The state a call starts from, and the state and locals at the start of
    the loop over the secondaries for the primary entry [cached]. *)
Definition initialState (cache : list Anime) : MergeState := mkState cache [] [] [] [] [].
Definition initialRun (cached : Anime) (pAnime : Anime) : PrimaryRun :=
  mkRun cached [] [animeId pAnime] false.


(** ** Notions the further properties are stated with *)

(** The score the loop of [findSecondaryMatch] reaches for the candidate
    [secAnime], [None] when one of its [continue] statements skips the
    candidate: the body of the loop without the update of [bestMatch]. *)
Definition candidateScore (primaryAnime secAnime : Anime) : option Q :=
  let rawPrimaryTitle := animeTitle primaryAnime in
  let primaryTitleForSim := titleForSim rawPrimaryTitle in
  let primaryDate := parseDate (startDate primaryAnime) in
  let primaryCount := knownCount primaryAnime in
  let rawSecTitle := animeTitle secAnime in
  let secDate := parseDate (startDate secAnime) in
  let secTitleForSim := titleForSim rawSecTitle in
  let secCount := knownCount secAnime in
  if checkMediaTypeMismatch rawPrimaryTitle rawSecTitle (typeDescription primaryAnime)
                            (typeDescription secAnime) primaryCount secCount
  then None else
  let hasStructureConflict := checkTitleSubtitleConflict rawPrimaryTitle rawSecTitle in
  let isSeasonExactMatch :=
    hasSameSeasonMarker primaryTitleForSim secTitleForSim (typeDescription primaryAnime)
                        (typeDescription secAnime) in
  let dateScore := checkDateMatch primaryDate secDate in
  if negb isSeasonExactMatch && Qeq_bool dateScore (-(1)) then None else
  if checkSeasonMismatch primaryTitleForSim secTitleForSim (typeDescription primaryAnime)
                         (typeDescription secAnime)
  then None else
  let scoreFull := calculateSimilarity64 primaryTitleForSim secTitleForSim in
  let baseA := removeParentheses primaryTitleForSim in
  let baseB := removeParentheses secTitleForSim in
  let scoreBase := calculateSimilarity64 baseA baseB in
  let score := Qmax2 scoreFull scoreBase in
  let score := if hasStructureConflict then fsub score (round64 (15 # 100)) else score in
  let score :=
    if negb (Qeq_bool dateScore (-(1))) then fadd score (round64 dateScore) else score in
  Some score.

(** A link passes the episode filter. *)
Definition passesFilter (filterRegex : option (jsstring -> bool)) (l : Link) : bool :=
  match filterRegex with
  | None => true
  | Some test => negb (test (titleOrName l))
  end.

(** The ids of a merged entry: a number of the range of
    [generateSafeMergedId], and its decimal print as [bangumiId]. *)
Definition mergedIdOk (d : Anime) : Prop :=
  exists n : Z,
    animeId d = IdNum n /\ (1000000000 <= n <= 2147483647)%Z /\ bangumiId d = decimalZ n.

(** What the loops of [applyMergeLogic] keep true of their state, [cache]
    being [globals.animes] at the call and [curAnimes] the list given. *)
Definition runInvariant (cache curAnimes : list Anime) (st : MergeState) : Prop :=
  NoDup (generatedSignatures st)
  /\ List.length (newMergedAnimes st) = List.length (generatedSignatures st)
  /\ (forall d, In d (newMergedAnimes st) ->
                mergedIdOk d /\ exists a, In a curAnimes /\ source a = source d)
  /\ incl (globalConsumedIds st) (map animeId curAnimes)
  /\ incl (groupConsumedIds st) (globalConsumedIds st)
  /\ animes st = fold_left (fun c d => addAnime d c) (newMergedAnimes st) cache.

(** The number of positions at which the url of [after] is not the url of
    [before]. *)
Definition changedUrls (before after : list Link) : Z :=
  Z.of_nat (List.length
              (filter (fun pr => negb (jsstring_eqb (url (fst pr)) (url (snd pr))))
                      (combine before after))).

(** What the link loop of a merge attempt leaves at position [i] of the
    links [l] of the derived entry, [l0] being the links before the attempt
    and [items] the filtered links of the matched entry: the link as it
    was, or its fusion with the item [k] for which [i = k + offset], whose
    special episode type is that of the link. *)
Definition fusedAt (currentPrimarySource secSource : jsstring) (offset : Z)
           (items : list LinkItem) (l0 l : list Link) (i : nat) : Prop :=
  nth_error l i = nth_error l0 i
  \/ exists targetLink k item,
      nth_error l0 i = Some targetLink
      /\ nth_error items k = Some item
      /\ Z.of_nat i = (Z.of_nat k + offset)%Z
      /\ optSpecial_eqb (getSpecialEpisodeType (title targetLink))
                        (getSpecialEpisodeType (title (link item))) = true
      /\ nth_error l i = Some (fuseLink currentPrimarySource secSource targetLink (link item)).

(** The code units [cleanText] replaces by a blank:
    [[!！?？,，.。、~～:：\-–—]]. *)
Definition isStrippedPunct (c : N) : bool := existsb (N.eqb c) (js "!！?？,，.。、~～:：-–—").

(** The last unit of a string is whitespace. *)
Definition lastSpace (s : jsstring) : bool := headSpace (rev s).

(** [x] occurs in [s] as a run of consecutive units. *)
Definition isFactor (x s : jsstring) : Prop := exists a b, s = a ++ x ++ b.

(** A state of the matcher on the input [s0]: what is left to read is a
    suffix of [s0] and every capture is a factor of [s0]. *)
Definition goodState (s0 : jsstring) (st : mstate) : Prop :=
  (exists a, s0 = a ++ m_rest st)
  /\ Forall (fun c => isFactor (snd c) s0) (m_caps st).

(** Every match of [r] reads at least one unit. *)
Fixpoint consumes (r : regex) : bool :=
  match r with
  | RChar _ | RSet _ => true
  | RSeq a b => consumes a || consumes b
  | RAlt a b => consumes a && consumes b
  | RGroup _ a => consumes a
  | RStar _ _ | REmpty | RBol | REol => false
  end.

(** Every match of [r] records the group [n]. *)
Fixpoint records (n : nat) (r : regex) : bool :=
  match r with
  | RGroup m a => (m =? n)%nat || records n a
  | RSeq a b => records n a || records n b
  | RAlt a b => records n a && records n b
  | _ => false
  end.

(** The group [n] of [r] encloses only expressions that read a unit. *)
Fixpoint groupReads (n : nat) (r : regex) : bool :=
  match r with
  | RGroup m a => (negb (m =? n)%nat || consumes a) && groupReads n a
  | RSeq a b | RAlt a b => groupReads n a && groupReads n b
  | RStar _ a => groupReads n a
  | _ => true
  end.


(** The captures [new] a match of [r] adds: one for the group [n] when [r]
    always records it, none of them empty when the group reads a unit. *)
Definition capsNew (n : nat) (r : regex) (new : list (nat * jsstring)) : Prop :=
  (records n r = true -> exists t, In (n, t) new)
  /\ (groupReads n r = true -> forall t, In (n, t) new -> t <> []).

(** The markers [extractSeasonMarkers] can return: four fixed values, and
    [S] or [P] followed by what Number-to-string gives for the Number of a
    natural number. *)
Definition markerVocabulary (m : jsstring) : Prop :=
  (m = js "OVA" \/ m = js "MOVIE" \/ m = js "SEQUEL" \/ m = js "SP")
  \/ exists n : N,
      m = js "S" ++ numberToString (toNumber (inject_Z (Z.of_N n)))
      \/ m = js "P" ++ numberToString (toNumber (inject_Z (Z.of_N n))).

(** An entry of the table [patterns] stays in the vocabulary: its first
    group is part of every match and reads a unit, and its prefix is [S] or
    [P]; or its value is one of the four. *)
Definition ruleInVocabulary (rule : markerRule) : Prop :=
  match rule with
  | PrefixRule p prefix =>
    records 1 (p_re p) = true /\ groupReads 1 (p_re p) = true
    /\ (prefix = js "S" \/ prefix = js "P")
  | ValRule _ val => val = js "OVA" \/ val = js "MOVIE" \/ val = js "SEQUEL" \/ val = js "SP"
  end.

(** ** DanmakuListMerger *)

(** A comment: its fields [t], a number when present, and [p], a string
    when present. *)
Record Danmaku : Type := mkDanmaku { dm_t : option Q; dm_p : option jsstring }.

(** [parseFloat] of the host: [None] is [NaN]; the times of the comments
    are finite numbers. *)
Variable parseFloat : jsstring -> option Q.

(** [getTime] of [mergeDanmakuList]; the item may be [null]. *)
Definition getTime (item : option Danmaku) : Q :=
  match item with
  | None => 0
  | Some d =>
    match dm_t d with
    | Some time => time
    | None =>
      match dm_p d with
      | Some str =>
        if isEmpty str then 0 else
        match parseFloat (splitHead str (js ",")) with
        | Some pTime => pTime
        | None => 0
        end
      | None => 0
      end
    end
  end.

(** [Array.prototype.sort] with the comparator [getTime(a) - getTime(b)]:
    a stable sort, here by insertion from the right. *)
Fixpoint insertByTime (x : option Danmaku) (l : list (option Danmaku)) : list (option Danmaku) :=
  match l with
  | [] => [x]
  | y :: r => if Qle_bool (getTime x) (getTime y) then x :: l else y :: insertByTime x r
  end.

Definition sortByTime (l : list (option Danmaku)) : list (option Danmaku) :=
  fold_right insertByTime [] l.

(** [mergeDanmakuList]; a list may be [null]. *)
Definition mergeDanmakuList (listA listB : option (list (option Danmaku)))
  : list (option Danmaku) :=
  let final := match listA with Some l => l | None => [] end
               ++ match listB with Some l => l | None => [] end in
  sortByTime final.

(** * Properties *)

(** ** MergedIdGenerator *)

Lemma toInt32_range (z : Z) : (- 2 ^ 31 <= toInt32 z < 2 ^ 31)%Z.
Proof.
  unfold toInt32.
  pose proof (Z.mod_pos_bound (z + 2 ^ 31) (2 ^ 32) ltac:(lia)).
  lia.
Qed.

Lemma toInt32_congr (a b k : Z) : (a = b + k * 2 ^ 32)%Z -> toInt32 a = toInt32 b.
Proof.
  intros ->. unfold toInt32.
  replace (b + k * 2 ^ 32 + 2 ^ 31)%Z with (b + 2 ^ 31 + k * 2 ^ 32)%Z by ring.
  now rewrite Z_mod_plus_full.
Qed.

Lemma toInt32_decomp (z : Z) : exists k, (toInt32 z = z + k * 2 ^ 32)%Z.
Proof.
  exists (- ((z + 2 ^ 31) / 2 ^ 32))%Z. unfold toInt32.
  rewrite Z.mod_eq by lia. ring.
Qed.

(** The shift-and-subtract round of the source is the round [hash*31 + c]. *)
Lemma hashStep_polyStep (h : Z) (c : N) : hashStep h c = polyStep h c.
Proof.
  unfold hashStep, polyStep, shl32.
  change (Z.land 5 31) with 5%Z. rewrite Z.shiftl_mul_pow2 by lia.
  destruct (toInt32_decomp h) as [k1 Hk1].
  destruct (toInt32_decomp (toInt32 h * 2 ^ 5)) as [k2 Hk2].
  apply toInt32_congr with (k := (k2 + 32 * k1)%Z).
  rewrite Hk2, Hk1. ring.
Qed.

Lemma hashString_poly (str : jsstring) (h : Z) :
  fold_left hashStep str h = fold_left polyStep str h.
Proof.
  revert h. induction str as [|c r IH]; intro h; simpl; [reflexivity|].
  now rewrite hashStep_polyStep, IH.
Qed.

Lemma hashString_range (str : jsstring) : (- 2 ^ 31 <= hashString str < 2 ^ 31)%Z.
Proof.
  unfold hashString.
  assert (G : forall s h, (- 2 ^ 31 <= h < 2 ^ 31)%Z ->
                          (- 2 ^ 31 <= fold_left hashStep s h < 2 ^ 31)%Z).
  { induction s as [|c r IH]; intros h Hh; simpl; [exact Hh|].
    apply IH. unfold hashStep. apply toInt32_range. }
  apply G. lia.
Qed.

(** C3. [generateSafeMergedId] is a function of its three arguments (equal
    arguments give equal ids); it is the polynomial rolling hash
    [hash = hash*31 + charCode], wrapped to a signed 32-bit integer at every
    round, over the string ["{idA}_{idB}_{salt}"], followed by
    [abs(hash) mod 10^9 + 10^9]; and its result lies in
    [[1_000_000_000, 2_147_483_647]]. *)
Theorem generateSafeMergedId_hash_range :
  forall (idA idB : JsId) (salt : jsstring),
    generateSafeMergedId idA idB salt = mergedIdSpec idA idB salt
    /\ (- 2 ^ 31 <= hashString (idToString idA ++ js "_" ++ idToString idB ++ js "_" ++ salt)
        < 2 ^ 31)%Z
    /\ (1000000000 <= generateSafeMergedId idA idB salt <= 2147483647)%Z
    /\ (forall (idA' idB' : JsId) (salt' : jsstring),
           idA' = idA -> idB' = idB -> salt' = salt ->
           generateSafeMergedId idA' idB' salt' = generateSafeMergedId idA idB salt).
Proof.
  intros idA idB salt. repeat split.
  - unfold generateSafeMergedId, mergedIdSpec, hashString, underscore.
    now rewrite hashString_poly.
  - apply hashString_range.
  - apply hashString_range.
  - unfold generateSafeMergedId.
    pose proof (Z.mod_pos_bound (Z.abs (hashString
      (idToString idA ++ underscore ++ idToString idB ++ underscore ++ salt))) 1000000000
      ltac:(lia)). lia.
  - unfold generateSafeMergedId.
    pose proof (Z.mod_pos_bound (Z.abs (hashString
      (idToString idA ++ underscore ++ idToString idB ++ underscore ++ salt))) 1000000000
      ltac:(lia)). lia.
  - intros idA' idB' salt' -> -> ->. reflexivity.
Qed.

(** ** Strings *)

Lemma jsstring_eqb_eq (a b : jsstring) : jsstring_eqb a b = true <-> a = b.
Proof.
  revert b. induction a as [|x a IH]; destruct b as [|y b]; simpl; split; intro H;
    try reflexivity; try discriminate.
  - apply andb_prop in H as [H1 H2]. apply N.eqb_eq in H1. apply IH in H2. congruence.
  - inversion H; subst. rewrite N.eqb_refl. simpl. now apply IH.
Qed.

Lemma jsstring_eqb_refl (a : jsstring) : jsstring_eqb a a = true.
Proof. now apply jsstring_eqb_eq. Qed.

Lemma jsstring_eqb_sym (a b : jsstring) : jsstring_eqb a b = jsstring_eqb b a.
Proof.
  destruct (jsstring_eqb a b) eqn:E.
  - apply jsstring_eqb_eq in E. subst. symmetry. apply jsstring_eqb_refl.
  - destruct (jsstring_eqb b a) eqn:E'; [|reflexivity].
    apply jsstring_eqb_eq in E'. subst. now rewrite jsstring_eqb_refl in E.
Qed.

Lemma JsId_eqb_eq (a b : JsId) : JsId_eqb a b = true <-> a = b.
Proof.
  destruct a, b; simpl; split; intro H; try discriminate.
  - apply Z.eqb_eq in H. congruence.
  - inversion H. apply Z.eqb_refl.
  - apply jsstring_eqb_eq in H. congruence.
  - inversion H. apply jsstring_eqb_refl.
Qed.

Lemma includes_head_In (s p : jsstring) (c : N) : includes s (c :: p) = true -> In c s.
Proof.
  induction s as [|d s IH]; simpl; intro H; [discriminate|].
  apply orb_prop in H as [H|H].
  - apply andb_prop in H as [H _]. apply N.eqb_eq in H. now left.
  - right. now apply IH.
Qed.

Lemma lowerUnit_not_upper (c : N) : isUpperAscii (lowerUnit c) = false.
Proof.
  unfold lowerUnit. destruct (isUpperAscii c) eqn:E; [|exact E].
  unfold isUpperAscii in *. apply andb_prop in E as [E1 E2].
  apply N.leb_le in E1, E2. apply andb_false_iff. right. apply N.leb_gt. lia.
Qed.

Lemma toLowerCase_no_upper (s : jsstring) (c : N) :
  In c (toLowerCase s) -> isUpperAscii c = false.
Proof.
  unfold toLowerCase. intro H. apply in_map_iff in H as [x [<- _]].
  apply lowerUnit_not_upper.
Qed.

Lemma lowerUnit_idem (c : N) : lowerUnit (lowerUnit c) = lowerUnit c.
Proof. unfold lowerUnit at 1. now rewrite lowerUnit_not_upper. Qed.

(** ** EpisodeAligner: the special episode types *)

(** C10. [getSpecialEpisodeType] never returns ['Bloopers']: the title is
    lower-cased before the test for the capitalised token, so the values it
    returns are exactly ['opening'], ['ending'], ['interview'] and [null],
    each of which some title reaches. *)
Theorem getSpecialEpisodeType_never_Bloopers :
  forall title : option jsstring,
    getSpecialEpisodeType title <> Some Bloopers
    /\ In (getSpecialEpisodeType title) [Some opening; Some ending; Some interview; None]
    /\ getSpecialEpisodeType (Some (js "Opening 1")) = Some opening
    /\ getSpecialEpisodeType (Some (js "ENDING")) = Some ending
    /\ getSpecialEpisodeType (Some (js "Cast Interview")) = Some interview
    /\ getSpecialEpisodeType (Some (js "Bloopers")) = None
    /\ getSpecialEpisodeType None = None.
Proof.
  intro title.
  assert (B : includes (toLowerCase (orEmpty title)) (js "Bloopers") = false).
  { destruct (includes (toLowerCase (orEmpty title)) (js "Bloopers")) eqn:E; [|reflexivity].
    change (js "Bloopers") with (66 :: js "loopers")%N in E.
    apply includes_head_In, toLowerCase_no_upper in E. discriminate E. }
  repeat split; try (vm_compute; reflexivity).
  - unfold getSpecialEpisodeType. rewrite B.
    repeat match goal with |- context [if ?c then _ else _] => destruct c end; discriminate.
  - unfold getSpecialEpisodeType. rewrite B.
    repeat match goal with |- context [if ?c then _ else _] => destruct c end;
      simpl; tauto.
Qed.

(** ** SimilarityScorer: the Dice coefficient *)

Lemma matchAt_reSpace (s : jsstring) (pos : N) :
  matchAt reSpace s pos =
  match s with
  | c :: r => if isSpace c then Some (MState r (pos + 1) []) else None
  | [] => None
  end.
Proof. destruct s; reflexivity. Qed.

Lemma replaceAllFrom_reSpace (fuel : nat) :
  forall (before s : jsstring) (pos : N),
    (List.length s < fuel)%nat ->
    replaceAllFrom fuel reSpace (fun _ => []) before s pos
    = filter (fun c => negb (isSpace c)) s.
Proof.
  induction fuel as [|fuel IH]; intros before s pos Hlen; [lia|].
  cbn [replaceAllFrom]. rewrite matchAt_reSpace.
  destruct s as [|c r]; [reflexivity|].
  cbn [List.length] in Hlen.
  destruct (isSpace c) eqn:E; cbn [filter]; rewrite E; cbn [negb m_rest].
  - replace (List.length (c :: r) - List.length r)%nat with 1%nat by (cbn [List.length]; lia).
    cbn [Nat.eqb app]. apply IH. lia.
  - f_equal. apply IH. lia.
Qed.

(** Removing whitespace with [/\s/g] keeps the other code units. *)
Lemma replaceAll_reSpace (s : jsstring) :
  replaceAll reSpace (fun _ => []) s = filter (fun c => negb (isSpace c)) s.
Proof. unfold replaceAll. apply replaceAllFrom_reSpace. lia. Qed.

Lemma setHas_In (x : N) (s : list N) : setHas x s = true <-> In x s.
Proof.
  unfold setHas. rewrite existsb_exists. split.
  - intros [y [Hy E]]. apply N.eqb_eq in E. now subst.
  - intro H. exists x. split; [exact H|apply N.eqb_refl].
Qed.

Lemma setAdd_NoDup (s : list N) (x : N) : NoDup s -> NoDup (setAdd s x).
Proof.
  intro H. unfold setAdd. destruct (setHas x s) eqn:E; [exact H|].
  apply NoDup_rev in H. rewrite <- (rev_involutive (s ++ [x])), rev_app_distr.
  apply NoDup_rev. simpl. constructor; [|exact H].
  rewrite <- in_rev. intro Hin. apply setHas_In in Hin. congruence.
Qed.

Lemma fold_setAdd_NoDup (l s : list N) : NoDup s -> NoDup (fold_left setAdd l s).
Proof.
  revert s. induction l as [|x l IH]; intros s H; simpl; [exact H|].
  apply IH, setAdd_NoDup, H.
Qed.

Lemma newSet_NoDup (str : jsstring) : NoDup (newSet str).
Proof. apply fold_setAdd_NoDup. constructor. Qed.

Lemma fold_setAdd_nonempty (l s : list N) : s <> [] -> fold_left setAdd l s <> [].
Proof.
  revert s. induction l as [|x l IH]; intros s H; simpl; [exact H|].
  apply IH. unfold setAdd. destruct (setHas x s); [exact H|]. now destruct s.
Qed.

Lemma codePoints_nil (s : jsstring) : codePoints s = [] -> s = [].
Proof.
  destruct s as [|c r]; [reflexivity|]. simpl.
  destruct r as [|d r']; [discriminate|].
  destruct (isHighSurrogate c && isLowSurrogate d).
  - destruct (codePoints (d :: r')); discriminate.
  - discriminate.
Qed.

(** The set of a string is empty exactly for the empty string. *)
Lemma newSet_nil (s : jsstring) : newSet s = [] <-> s = [].
Proof.
  split.
  - intro H. apply codePoints_nil. unfold newSet in H.
    destruct (codePoints s) as [|x l]; [reflexivity|]. exfalso.
    simpl in H. revert H. apply fold_setAdd_nonempty. unfold setAdd. simpl. discriminate.
  - intros ->. reflexivity.
Qed.

Lemma filter_nonspace_nil (s : jsstring) :
  filter (fun c => negb (isSpace c)) s = [] <-> forallb isSpace s = true.
Proof.
  induction s as [|c r IH]; simpl; [tauto|].
  destruct (isSpace c); simpl; [exact IH|]. split; discriminate.
Qed.

(** The intersection counted by the loop is at most each of the two sets. *)
Lemma intersection_le (set1 set2 : list N) :
  NoDup set1 ->
  (List.length (filter (fun ch => setHas ch set2) set1) <= List.length set1)%nat
  /\ (List.length (filter (fun ch => setHas ch set2) set1) <= List.length set2)%nat.
Proof.
  intro H1. split.
  - apply filter_length_le.
  - apply NoDup_incl_length.
    + now apply NoDup_filter.
    + intros x Hx. apply filter_In in Hx as [_ Hx]. now apply setHas_In.
Qed.

(** The intersection does not depend on the side it is counted from. *)
Lemma intersection_sym (set1 set2 : list N) :
  NoDup set1 -> NoDup set2 ->
  List.length (filter (fun ch => setHas ch set2) set1)
  = List.length (filter (fun ch => setHas ch set1) set2).
Proof.
  intros H1 H2.
  assert (L : forall a b : list N, NoDup a ->
            (List.length (filter (fun ch => setHas ch b) a)
             <= List.length (filter (fun ch => setHas ch a) b))%nat).
  { intros a b Ha. apply NoDup_incl_length; [now apply NoDup_filter|].
    intros x Hx. apply filter_In in Hx as [Hxa Hxb]. apply filter_In. split.
    - now apply setHas_In.
    - now apply setHas_In. }
  apply Nat.le_antisymm; now apply L.
Qed.

Lemma calculateDiceSimilarity_range (s1 s2 : jsstring) :
  0 <= calculateDiceSimilarity s1 s2 <= 1.
Proof.
  unfold calculateDiceSimilarity.
  destruct (isEmpty s1 || isEmpty s2); [split; discriminate|].
  set (set1 := newSet (replaceAll reSpace (fun _ => []) s1)).
  set (set2 := newSet (replaceAll reSpace (fun _ => []) s2)).
  destruct ((Z.of_nat (List.length set1) =? 0)%Z && (Z.of_nat (List.length set2) =? 0)%Z);
    [split; discriminate|].
  destruct ((Z.of_nat (List.length set1) =? 0)%Z || (Z.of_nat (List.length set2) =? 0)%Z) eqn:E;
    [split; discriminate|].
  apply orb_false_iff in E as [E1 E2]. apply Z.eqb_neq in E1, E2.
  destruct (intersection_le set1 set2 (newSet_NoDup (replaceAll reSpace (fun _ => []) s1)))
    as [L1 L2].
  unfold Zratio, Qle. cbn [Qnum Qden].
  rewrite Z2Pos.id by lia. split; lia.
Qed.

(** C5 (as amended). [calculateDiceSimilarity] returns a value in [[0, 1]];
    it returns [0] as soon as one input is the empty string, both being
    empty included (the guard [!s1 || !s2]); for two non-empty inputs it
    returns [1.0] when both consist of whitespace only and [0.0] when exactly
    one does. *)
Theorem calculateDiceSimilarity_range_and_blanks :
  forall s1 s2 : jsstring,
    0 <= calculateDiceSimilarity s1 s2 <= 1
    /\ (s1 = [] \/ s2 = [] -> calculateDiceSimilarity s1 s2 = 0)
    /\ (s1 <> [] -> s2 <> [] -> forallb isSpace s1 = true -> forallb isSpace s2 = true ->
        calculateDiceSimilarity s1 s2 = 1)
    /\ (s1 <> [] -> s2 <> [] -> forallb isSpace s1 <> forallb isSpace s2 ->
        calculateDiceSimilarity s1 s2 = 0).
Proof.
  intros s1 s2. split; [apply calculateDiceSimilarity_range|].
  assert (Z0 : forall s, (Z.of_nat (List.length (newSet (replaceAll reSpace (fun _ => []) s)))
                          =? 0)%Z = forallb isSpace s).
  { intro s. rewrite replaceAll_reSpace.
    destruct (forallb isSpace s) eqn:E.
    - apply filter_nonspace_nil in E. rewrite E. reflexivity.
    - apply Z.eqb_neq. intro H.
      assert (N0 : newSet (filter (fun c => negb (isSpace c)) s) = []).
      { destruct (newSet (filter (fun c => negb (isSpace c)) s)); [reflexivity|].
        simpl in H. lia. }
      apply newSet_nil, filter_nonspace_nil in N0. congruence. }
  unfold calculateDiceSimilarity. rewrite !Z0. repeat split.
  - intros [-> | ->]; simpl; [reflexivity|]. now rewrite orb_true_r.
  - intros N1 N2 B1 B2. destruct s1; [congruence|]. destruct s2; [congruence|].
    cbn [isEmpty orb]. now rewrite B1, B2.
  - intros N1 N2 B. destruct s1; [congruence|]. destruct s2; [congruence|].
    cbn [isEmpty orb].
    destruct (forallb isSpace (n :: s1)), (forallb isSpace (n0 :: s2));
      try reflexivity; congruence.
Qed.

(** ** ConflictDetector *)

(** C6. [checkMediaTypeMismatch]: when the two strict media types are
    defined and differ and the theatrical exemption does not apply, it
    reports no conflict when both counts are positive and at most 5 apart,
    a conflict when both are positive and more than 5 apart, and a conflict
    whenever one count is [0]; when a media type is [null] or the two are
    equal it reports no conflict. *)
Theorem checkMediaTypeMismatch_cases :
  forall (titleA titleB : jsstring) (typeDescA typeDescB : option jsstring)
         (countA countB : Z),
    let mediaA := getStrictMediaType titleA typeDescA in
    let mediaB := getStrictMediaType titleB typeDescB in
    let conflict := checkMediaTypeMismatch titleA titleB typeDescA typeDescB countA countB in
    (mediaA = None \/ mediaB = None \/ mediaA = mediaB -> conflict = false)
    /\ (forall a b : MediaType,
           mediaA = Some a -> mediaB = Some b -> a <> b ->
           checkTheatricalExemption titleA titleB typeDescA typeDescB = false ->
           ((0 < countA)%Z /\ (0 < countB)%Z /\ (Z.abs (countA - countB) <= 5)%Z ->
            conflict = false)
           /\ ((0 < countA)%Z /\ (0 < countB)%Z /\ (5 < Z.abs (countA - countB))%Z ->
               conflict = true)
           /\ (countA = 0%Z \/ countB = 0%Z -> conflict = true)).
Proof.
  intros titleA titleB typeDescA typeDescB countA countB mediaA mediaB conflict.
  subst conflict mediaA mediaB. unfold checkMediaTypeMismatch. split.
  - intros [H | [H | H]].
    + now rewrite H.
    + rewrite H. now destruct (getStrictMediaType titleA typeDescA).
    + rewrite H. destruct (getStrictMediaType titleB typeDescB) as [m|]; [|reflexivity].
      now destruct m.
  - intros a b Ha Hb Hab Hex. rewrite Ha, Hb, Hex.
    assert (E : MediaType_eqb a b = false) by (destruct a, b; simpl; congruence).
    rewrite E. repeat split.
    + intros (HA & HB & HD).
      apply Z.ltb_lt in HA, HB. rewrite HA, HB. cbn [andb].
      apply Z.ltb_ge in HD. now rewrite HD.
    + intros (HA & HB & HD).
      apply Z.ltb_lt in HA, HB, HD. now rewrite HA, HB, HD.
    + intros [-> | ->].
      * reflexivity.
      * now rewrite andb_false_r.
Qed.

Lemma markerHas_In (m : jsstring) (s : list jsstring) : markerHas m s = true <-> In m s.
Proof.
  unfold markerHas. rewrite existsb_exists. split.
  - intros [y [Hy E]]. rewrite jsstring_eqb_sym in E. apply jsstring_eqb_eq in E. now subst.
  - intro H. exists m. split; [exact H|apply jsstring_eqb_refl].
Qed.

(** C7. [checkSeasonMismatch]: no markers on either side, no conflict; both
    sides with markers, a conflict exactly when A has a marker starting with
    [S] that B lacks while B has some marker starting with [S]; markers on
    exactly one side, a conflict unless the theatrical exemption applies. *)
Theorem checkSeasonMismatch_cases :
  forall (titleA titleB : jsstring) (typeA typeB : option jsstring),
    let markersA := extractSeasonMarkers titleA typeA in
    let markersB := extractSeasonMarkers titleB typeB in
    let conflict := checkSeasonMismatch titleA titleB typeA typeB in
    (markersA = [] /\ markersB = [] -> conflict = false)
    /\ (markersA <> [] /\ markersB <> [] ->
        (conflict = true <->
         (exists m, In m markersA /\ startsWith m (js "S") = true /\ ~ In m markersB)
         /\ (exists b, In b markersB /\ startsWith b (js "S") = true)))
    /\ ((markersA = [] /\ markersB <> []) \/ (markersA <> [] /\ markersB = []) ->
        conflict = negb (checkTheatricalExemption titleA titleB typeA typeB)).
Proof.
  intros titleA titleB typeA typeB markersA markersB conflict.
  subst conflict. unfold checkSeasonMismatch. fold markersA markersB.
  split; [|split].
  - intros [-> ->]. reflexivity.
  - intros [HA HB].
    destruct markersA as [|a ra] eqn:EA; [congruence|].
    destruct markersB as [|b rb] eqn:EB; [congruence|].
    cbn [List.length Nat.eqb Nat.ltb Nat.leb andb]. split.
    + intro H. apply existsb_exists in H as [m [Hm Hc]].
      apply andb_prop in Hc as [Hc Hsome]. apply andb_prop in Hc as [Hs Hn]. split.
      * exists m. split; [exact Hm|]. split; [exact Hs|].
        intro Hin. apply markerHas_In in Hin. rewrite Hin in Hn. discriminate.
      * apply existsb_exists in Hsome as [x [Hx Hxs]]. exists x. now split.
    + intros [[m (Hm & Hs & Hn)] [x (Hx & Hxs)]].
      apply existsb_exists. exists m. split; [exact Hm|].
      rewrite Hs. cbn [andb].
      assert (Hh : markerHas m (b :: rb) = false).
      { destruct (markerHas m (b :: rb)) eqn:E; [|reflexivity].
        apply markerHas_In in E. contradiction. }
      rewrite Hh. cbn [negb andb]. apply existsb_exists. exists x. now split.
  - intros [[-> HB] | [HA ->]].
    + destruct markersB as [|b rb]; [congruence|].
      cbn [List.length Nat.eqb Nat.ltb Nat.leb andb negb].
      now destruct (checkTheatricalExemption titleA titleB typeA typeB).
    + destruct markersA as [|a ra]; [congruence|].
      cbn [List.length Nat.eqb Nat.ltb Nat.leb andb negb].
      now destruct (checkTheatricalExemption titleA titleB typeA typeB).
Qed.

(** ** SimilarityScorer: the edit distance and the combined score *)

Lemma levenshtein_nil_r (s : jsstring) : levenshtein s [] = Zlen s.
Proof. destruct s; reflexivity. Qed.

Lemma levenshtein_cons (a b : N) (s t : jsstring) :
  levenshtein (a :: s) (b :: t)
  = Z.min (Z.min (levenshtein s (b :: t) + 1) (levenshtein (a :: s) t + 1))
          (levenshtein s t + (if (a =? b)%N then 0 else 1)).
Proof. reflexivity. Qed.

Lemma levenshtein_sym (s t : jsstring) : levenshtein s t = levenshtein t s.
Proof.
  revert t. induction s as [|a s IHs]; intro t.
  - now rewrite levenshtein_nil_r.
  - induction t as [|b t IHt].
    + now rewrite levenshtein_nil_r.
    + rewrite !levenshtein_cons, IHt, !IHs, (N.eqb_sym b a). lia.
Qed.

Lemma fillRow_levRow (c : N) (rp : jsstring) :
  forall todo acc : jsstring,
    fillRow c todo (levenshtein rp acc) (levenshtein (c :: rp) acc) (levRow rp acc todo)
    = levRow (c :: rp) acc todo.
Proof.
  induction todo as [|d todo IH]; intro acc; [reflexivity|].
  cbn [levRow fillRow]. rewrite levenshtein_cons. f_equal.
  rewrite <- (levenshtein_cons c d rp acc). apply IH.
Qed.

Lemma firstRow_levRow :
  forall todo acc : jsstring,
    firstRow (Zlen acc) todo = levenshtein [] acc :: levRow [] acc todo.
Proof.
  induction todo as [|d todo IH]; intro acc; [reflexivity|].
  cbn [firstRow levRow]. f_equal.
  replace (Zlen acc + 1)%Z with (Zlen (d :: acc)) by (unfold Zlen; cbn [List.length]; lia).
  apply IH.
Qed.

Lemma editRows_levRow (s2 : jsstring) :
  forall s1 rp : jsstring,
    editRows (Zlen rp) s1 s2 (levenshtein rp [] :: levRow rp [] s2)
    = levenshtein (rev s1 ++ rp) [] :: levRow (rev s1 ++ rp) [] s2.
Proof.
  induction s1 as [|c s1 IH]; intro rp; [reflexivity|].
  cbn [editRows nextRow rev]. rewrite <- app_assoc. cbn [app].
  replace (Zlen rp + 1)%Z with (Zlen (c :: rp)) by (unfold Zlen; cbn [List.length]; lia).
  rewrite <- IH. f_equal. f_equal.
  rewrite <- fillRow_levRow. now rewrite (levenshtein_nil_r (c :: rp)).
Qed.

Lemma nth_levRow (rp : jsstring) :
  forall todo acc : jsstring,
    nth (List.length todo) (levenshtein rp acc :: levRow rp acc todo) 0%Z
    = levenshtein rp (rev todo ++ acc).
Proof.
  induction todo as [|d todo IH]; intro acc; [reflexivity|].
  cbn [List.length nth levRow rev]. rewrite <- app_assoc. apply IH.
Qed.

(** The matrix of [editDistance] computes the Levenshtein recurrence. *)
Lemma editDistance_levenshtein (s1 s2 : jsstring) :
  editDistance s1 s2 = levenshtein (rev s1) (rev s2).
Proof.
  unfold editDistance.
  pose proof (firstRow_levRow s2 []) as H0. change (Zlen []) with 0%Z in H0.
  pose proof (editRows_levRow s2 s1 []) as H1. change (Zlen []) with 0%Z in H1.
  rewrite H0, H1, nth_levRow, !app_nil_r. reflexivity.
Qed.

Lemma editDistance_sym (s1 s2 : jsstring) : editDistance s1 s2 = editDistance s2 s1.
Proof. rewrite !editDistance_levenshtein. apply levenshtein_sym. Qed.

Lemma calculateDiceSimilarity_sym (s1 s2 : jsstring) :
  calculateDiceSimilarity s1 s2 = calculateDiceSimilarity s2 s1.
Proof.
  unfold calculateDiceSimilarity.
  rewrite (orb_comm (isEmpty s2)).
  destruct (isEmpty s1 || isEmpty s2); [reflexivity|].
  rewrite (intersection_sym _ _ (newSet_NoDup (replaceAll reSpace (fun _ => []) s2))
                            (newSet_NoDup (replaceAll reSpace (fun _ => []) s1))).
  set (set1 := newSet (replaceAll reSpace (fun _ => []) s1)).
  set (set2 := newSet (replaceAll reSpace (fun _ => []) s2)).
  rewrite (andb_comm (Z.of_nat (List.length set2) =? 0)%Z).
  rewrite (orb_comm (Z.of_nat (List.length set2) =? 0)%Z).
  now rewrite (Z.add_comm (Z.of_nat (List.length set2))).
Qed.

(** C9. [calculateSimilarity] is symmetric, and the similarity of a
    non-empty string with itself is [1.0]. *)
Theorem calculateSimilarity_symmetric :
  (forall a b : jsstring, calculateSimilarity a b = calculateSimilarity b a)
  /\ (forall a : jsstring, a <> [] -> calculateSimilarity a a = 1).
Proof.
  split.
  - intros a b. unfold calculateSimilarity.
    rewrite (orb_comm (isEmpty b)).
    destruct (isEmpty a || isEmpty b); [reflexivity|].
    rewrite (jsstring_eqb_sym (cleanText b)).
    destruct (jsstring_eqb (cleanText a) (cleanText b)); [reflexivity|].
    rewrite (orb_comm (includes (cleanText b) (cleanText a))).
    rewrite (Z.min_comm (Zlen (cleanText b))), (Z.max_comm (Zlen (cleanText b))).
    destruct (includes (cleanText a) (cleanText b) || includes (cleanText b) (cleanText a));
      [reflexivity|].
    now rewrite (editDistance_sym (cleanText b)), (calculateDiceSimilarity_sym (cleanText b)).
  - intros a Ha. unfold calculateSimilarity.
    destruct a; [congruence|]. cbn [isEmpty orb].
    now rewrite jsstring_eqb_refl.
Qed.

(** ** EpisodeAligner: the choice of the offset *)

Lemma Qltb_lt (a b : Q) : Qltb a b = true <-> a < b.
Proof.
  unfold Qltb. rewrite negb_true_iff. split; intro H.
  - apply Qnot_le_lt. intro L. apply Qle_bool_iff in L. congruence.
  - destruct (Qle_bool b a) eqn:E; [|reflexivity].
    apply Qle_bool_iff in E. exfalso. revert E. now apply Qlt_not_le.
Qed.

Lemma Qltb_ge (a b : Q) : Qltb a b = false <-> b <= a.
Proof.
  unfold Qltb. rewrite negb_false_iff. apply Qle_bool_iff.
Qed.

(** The loop over the offsets keeps the first offset of the highest score
    above the initial [maxScore]. *)
Lemma selectOffset_fold (score : Z -> option Q) :
  forall (offs : list Z) (b0 : Z) (m0 : Q) (b : Z) (m : Q),
    fold_left (selectOffset score) offs (b0, m0) = (b, m) ->
    (forall o s, In o offs -> score o = Some s -> s <= m)
    /\ m0 <= m
    /\ ((b = b0 /\ m = m0)
        \/ (exists l1 l2, offs = l1 ++ b :: l2 /\ score b = Some m /\ m0 < m
                          /\ forall o s, In o l1 -> score o = Some s -> s < m)).
Proof.
  induction offs as [|o rest IH]; intros b0 m0 b m H.
  - cbn in H. inversion H; subst. repeat split.
    + intros o s [].
    + apply Qle_refl.
    + now left.
  - cbn [fold_left] in H. unfold selectOffset at 2 in H. cbn [snd] in H.
    destruct (score o) as [s|] eqn:Es.
    + destruct (Qltb m0 s) eqn:El.
      * apply Qltb_lt in El. apply IH in H as (A & B & C). repeat split.
        -- intros o' s' [<- | Hin] Hs'; [|now apply (A o')].
           rewrite Es in Hs'. inversion Hs'; subst. exact B.
        -- apply Qlt_le_weak. now apply Qlt_le_trans with s.
        -- right. destruct C as [[-> ->] | (l1 & l2 & -> & Sb & Lt & F)].
           ++ exists [], rest. repeat split; [exact Es|exact El|]. intros o' s' [].
           ++ exists (o :: l1), l2. repeat split; [exact Sb| |].
              ** now apply Qlt_trans with s.
              ** intros o' s' [<- | Hin] Hs'; [|now apply (F o')].
                 rewrite Es in Hs'. inversion Hs'; subst. exact Lt.
      * apply Qltb_ge in El. apply IH in H as (A & B & C). repeat split.
        -- intros o' s' [<- | Hin] Hs'; [|now apply (A o')].
           rewrite Es in Hs'. inversion Hs'; subst. now apply Qle_trans with m0.
        -- exact B.
        -- destruct C as [C | (l1 & l2 & -> & Sb & Lt & F)]; [now left|right].
           exists (o :: l1), l2. repeat split; [exact Sb|exact Lt|].
           intros o' s' [<- | Hin] Hs'; [|now apply (F o')].
           rewrite Es in Hs'. inversion Hs'; subst. now apply Qle_lt_trans with m0.
    + apply IH in H as (A & B & C). repeat split.
      * intros o' s' [<- | Hin] Hs'; [congruence|now apply (A o')].
      * exact B.
      * destruct C as [C | (l1 & l2 & -> & Sb & Lt & F)]; [now left|right].
        exists (o :: l1), l2. repeat split; [exact Sb|exact Lt|].
        intros o' s' [<- | Hin] Hs'; [congruence|now apply (F o')].
Qed.




(** ** TextNormalizer: the last statement of [cleanText] *)

(** A greedy star over [\s] reads the whole run of whitespace. *)
Lemma starLoop_spaces (fuel : nat) :
  forall (rest : jsstring) (pos : N) (caps : list (nat * jsstring)),
    (List.length rest < fuel)%nat ->
    exists pos',
      starLoop (rmatch false RSpace) true Some fuel (MState rest pos caps)
      = Some (MState (dropWhile isSpace rest) pos' caps).
Proof.
  set (body := rmatch false RSpace).
  assert (B : forall st k,
             body st k = match m_rest st with
                         | [] => None
                         | x :: rest =>
                           if isSpace x
                           then k (MState rest (m_pos st + 1) (m_caps st)) else None
                         end) by reflexivity.
  induction fuel as [|fuel IH]; intros rest pos caps Hlen; [lia|].
  cbn [starLoop]. rewrite B. cbn [m_rest m_pos m_caps].
  destruct rest as [|c r].
  - exists pos. reflexivity.
  - cbn [dropWhile]. destruct (isSpace c) eqn:E.
    + cbn [List.length] in Hlen |- *.
      replace (List.length r <? S (List.length r))%nat with true
        by (symmetry; apply Nat.ltb_lt; lia).
      destruct (IH r (pos + 1)%N caps ltac:(lia)) as [pos' ->].
      exists pos'. reflexivity.
    + exists pos. reflexivity.
Qed.

Lemma matchAt_reSpaces (s : jsstring) (pos : N) :
  match s with
  | c :: r =>
    if isSpace c
    then exists pos', matchAt reSpaces s pos = Some (MState (dropWhile isSpace r) pos' [])
    else matchAt reSpaces s pos = None
  | [] => matchAt reSpaces s pos = None
  end.
Proof.
  destruct s as [|c r]; [reflexivity|].
  unfold matchAt, reSpaces, re, RPlus. cbn [p_re p_ignoreCase].
  cbn [rmatch RSpace m_rest m_pos m_caps].
  destruct (isSpace c); [|reflexivity].
  apply starLoop_spaces. lia.
Qed.

Lemma dropWhile_length (p : N -> bool) (s : jsstring) :
  (List.length (dropWhile p s) <= List.length s)%nat.
Proof.
  induction s as [|c r IH]; simpl; [lia|]. destruct (p c); simpl; lia.
Qed.

Lemma dropWhile_headSpace (s : jsstring) : headSpace (dropWhile isSpace s) = false.
Proof.
  induction s as [|c r IH]; simpl; [reflexivity|].
  destruct (isSpace c) eqn:E; [exact IH|]. simpl. exact E.
Qed.

Lemma dropWhile_id (s : jsstring) : headSpace s = false -> dropWhile isSpace s = s.
Proof. destruct s as [|c r]; simpl; [reflexivity|]. now intros ->. Qed.

(** The three shapes of one round of [replace(/\s+/g, ' ')]. *)
Lemma replaceAllFrom_reSpaces_step (fuel : nat) (before s : jsstring) (pos : N) :
  match s with
  | [] => replaceAllFrom (S fuel) reSpaces (fun _ => js " ") before s pos = []
  | c :: r =>
    if isSpace c then
      exists before' pos',
        replaceAllFrom (S fuel) reSpaces (fun _ => js " ") before s pos
        = 32%N :: replaceAllFrom fuel reSpaces (fun _ => js " ") before'
                                 (dropWhile isSpace r) pos'
    else
      replaceAllFrom (S fuel) reSpaces (fun _ => js " ") before s pos
      = c :: replaceAllFrom fuel reSpaces (fun _ => js " ") (c :: before) r (pos + 1)
  end.
Proof.
  pose proof (matchAt_reSpaces s pos) as M.
  destruct s as [|c r].
  - cbn [replaceAllFrom]. now rewrite M.
  - destruct (isSpace c).
    + destruct M as [pos' M]. cbn [replaceAllFrom]. rewrite M. cbn [m_rest m_caps].
      pose proof (dropWhile_length isSpace r) as L.
      replace (List.length (c :: r) - List.length (dropWhile isSpace r) =? 0)%nat with false
        by (symmetry; apply Nat.eqb_neq; cbn [List.length]; lia).
      eexists. eexists. reflexivity.
    + cbn [replaceAllFrom]. now rewrite M.
Qed.

Lemma replaceAllFrom_reSpaces_head (fuel : nat) (before s : jsstring) (pos : N) :
  headSpace s = false ->
  headSpace (replaceAllFrom (S fuel) reSpaces (fun _ => js " ") before s pos) = false.
Proof.
  intro H. pose proof (replaceAllFrom_reSpaces_step fuel before s pos) as R.
  destruct s as [|c r]; [now rewrite R|].
  cbn [headSpace] in H. rewrite H in R. rewrite R. exact H.
Qed.

Lemma replaceAllFrom_reSpaces_collapsed (fuel : nat) :
  forall (before s : jsstring) (pos : N),
    (List.length s < fuel)%nat ->
    collapsed (replaceAllFrom fuel reSpaces (fun _ => js " ") before s pos) = true.
Proof.
  induction fuel as [|fuel IH]; intros before s pos Hlen; [lia|].
  pose proof (replaceAllFrom_reSpaces_step fuel before s pos) as R.
  destruct s as [|c r]; [now rewrite R|].
  cbn [List.length] in Hlen. pose proof (dropWhile_length isSpace r) as L.
  destruct (isSpace c) eqn:E.
  - destruct R as (before' & pos' & ->).
    cbn [collapsed]. change (isSpace 32) with true. cbn [N.eqb Pos.eqb andb].
    rewrite IH by lia. rewrite andb_true_r. apply negb_true_iff.
    destruct fuel as [|fuel']; [lia|].
    apply replaceAllFrom_reSpaces_head, dropWhile_headSpace.
  - rewrite R. cbn [collapsed]. rewrite E. cbn [andb]. apply IH. lia.
Qed.


Lemma isSpace_letter (x : N) : (65 <= x <= 122)%N -> isSpace x = false.
Proof.
  intro Hx. unfold isSpace.
  replace (x <=? 13)%N with false by (symmetry; apply N.leb_gt; lia).
  replace (8192 <=? x)%N with false by (symmetry; apply N.leb_gt; lia).
  repeat match goal with
         | |- context [(x =? ?b)%N] =>
           replace (x =? b)%N with false by (symmetry; apply N.eqb_neq; lia)
         end.
  now rewrite andb_false_r.
Qed.

Lemma isSpace_lowerUnit (c : N) : isSpace (lowerUnit c) = isSpace c.
Proof.
  unfold lowerUnit. destruct (isUpperAscii c) eqn:E; [|reflexivity].
  unfold isUpperAscii in E. apply andb_prop in E as [E1 E2]. apply N.leb_le in E1, E2.
  rewrite !isSpace_letter by lia. reflexivity.
Qed.

Lemma lowerUnit_space (c : N) : isSpace c = true -> lowerUnit c = c.
Proof.
  intro H. unfold lowerUnit. destruct (isUpperAscii c) eqn:E; [|reflexivity].
  unfold isUpperAscii in E. apply andb_prop in E as [E1 E2]. apply N.leb_le in E1, E2.
  rewrite isSpace_letter in H by lia. discriminate.
Qed.

Lemma headSpace_toLowerCase (s : jsstring) : headSpace (toLowerCase s) = headSpace s.
Proof. destruct s; simpl; [reflexivity|apply isSpace_lowerUnit]. Qed.

Lemma collapsed_toLowerCase (s : jsstring) :
  collapsed s = true -> collapsed (toLowerCase s) = true.
Proof.
  induction s as [|c r IH]; [reflexivity|]. cbn [toLowerCase map collapsed].
  intro C. apply andb_prop in C as [C1 C2]. fold (toLowerCase r).
  rewrite (IH C2), andb_true_r, isSpace_lowerUnit, headSpace_toLowerCase.
  destruct (isSpace c) eqn:E; [|reflexivity]. now rewrite (lowerUnit_space c E).
Qed.

Lemma collapsed_dropWhile (s : jsstring) :
  collapsed s = true -> collapsed (dropWhile isSpace s) = true.
Proof.
  induction s as [|c r IH]; [reflexivity|]. intro C. cbn [dropWhile].
  destruct (isSpace c); [|exact C].
  cbn [collapsed] in C. apply andb_prop in C as [_ C]. now apply IH.
Qed.

Lemma headSpace_dropEndWhile (s : jsstring) :
  headSpace s = false -> headSpace (dropEndWhile isSpace s) = false.
Proof.
  destruct s as [|c r]; [reflexivity|]. cbn [headSpace dropEndWhile]. intro H.
  destruct (dropEndWhile isSpace r); [now rewrite H|exact H].
Qed.

Lemma dropEndWhile_head (r : jsstring) (d : N) (r' : jsstring) :
  dropEndWhile isSpace r = d :: r' -> headSpace r = isSpace d.
Proof.
  destruct r as [|e r'']; [discriminate|]. cbn [dropEndWhile headSpace].
  destruct (dropEndWhile isSpace r'').
  - destruct (isSpace e) eqn:E; [discriminate|]. intro H. inversion H; subst. now rewrite E.
  - intro H. inversion H; subst. reflexivity.
Qed.

Lemma collapsed_dropEndWhile (s : jsstring) :
  collapsed s = true -> collapsed (dropEndWhile isSpace s) = true.
Proof.
  induction s as [|c r IH]; [reflexivity|]. intro C. cbn [collapsed] in C.
  apply andb_prop in C as [C1 C2]. specialize (IH C2). cbn [dropEndWhile].
  destruct (dropEndWhile isSpace r) as [|d r'] eqn:D.
  - destruct (isSpace c) eqn:E; [reflexivity|]. cbn [collapsed]. now rewrite E.
  - change (collapsed (c :: d :: r'))
      with ((if isSpace c then (c =? 32)%N && negb (isSpace d) else true)
            && collapsed (d :: r')).
    rewrite IH, andb_true_r. rewrite <- (dropEndWhile_head r d r' D). exact C1.
Qed.

Lemma dropEndWhile_idem (p : N -> bool) (s : jsstring) :
  dropEndWhile p (dropEndWhile p s) = dropEndWhile p s.
Proof.
  induction s as [|c r IH]; [reflexivity|]. cbn [dropEndWhile].
  destruct (dropEndWhile p r) as [|d r'] eqn:D.
  - destruct (p c) eqn:E; [reflexivity|]. cbn [dropEndWhile]. now rewrite E.
  - change (dropEndWhile p (c :: d :: r'))
      with (match dropEndWhile p (d :: r') with
            | [] => if p c then [] else [c]
            | x :: l => c :: x :: l
            end).
    now rewrite IH.
Qed.

Lemma trim_fixed (s : jsstring) :
  headSpace s = false -> dropEndWhile isSpace s = s -> trim s = s.
Proof. intros H D. unfold trim. now rewrite (dropWhile_id s H). Qed.

Lemma toLowerCase_idem (s : jsstring) : toLowerCase (toLowerCase s) = toLowerCase s.
Proof.
  unfold toLowerCase. rewrite map_map. apply map_ext. intro c. apply lowerUnit_idem.
Qed.

Lemma toLowerCase_dropWhile (s : jsstring) :
  toLowerCase (dropWhile isSpace s) = dropWhile isSpace (toLowerCase s).
Proof.
  induction s as [|c r IH]; [reflexivity|]. cbn [dropWhile toLowerCase map].
  rewrite isSpace_lowerUnit. destruct (isSpace c); [exact IH|reflexivity].
Qed.

Lemma toLowerCase_dropEndWhile (s : jsstring) :
  toLowerCase (dropEndWhile isSpace s) = dropEndWhile isSpace (toLowerCase s).
Proof.
  induction s as [|c r IH]; [reflexivity|]. cbn [dropEndWhile toLowerCase map].
  fold (toLowerCase r). rewrite <- IH, isSpace_lowerUnit.
  destruct (dropEndWhile isSpace r); cbn [toLowerCase map]; [|reflexivity].
  now destruct (isSpace c).
Qed.



Lemma cleanText_eq (text : jsstring) :
  cleanText text = if isEmpty text then [] else squeeze (cleanRules text).
Proof. reflexivity. Qed.


(** ** MergeOrchestrator: consumed entries *)

Lemma JsId_eqb_refl (a : JsId) : JsId_eqb a a = true.
Proof. now apply JsId_eqb_eq. Qed.

Lemma idHas_In (x : JsId) (s : list JsId) : idHas x s = true <-> In x s.
Proof.
  unfold idHas. rewrite existsb_exists. split.
  - intros [y [Hy E]]. apply JsId_eqb_eq in E. now subst.
  - intro H. exists x. split; [exact H|apply JsId_eqb_refl].
Qed.

Lemma idAdd_In (s : list JsId) (x y : JsId) : In y (idAdd s x) <-> In y s \/ y = x.
Proof.
  unfold idAdd. destruct (idHas x s) eqn:E.
  - apply idHas_In in E. split; [now left|]. intros [H | ->]; assumption.
  - rewrite in_app_iff. simpl. intuition.
Qed.

Lemma trySecondary_traceConsumed (curAnimes : list Anime) (epFilter : option (jsstring -> bool))
      (fp src : jsstring) (pAnime : Anime) (acc : MergeState * PrimaryRun) (sec : jsstring) :
  traceConsumed (fst acc) ->
  traceConsumed (fst (trySecondary curAnimes epFilter fp src pAnime acc sec)).
Proof.
  intro I. unfold trySecondary. destruct acc as [st run]. cbn [fst] in I.
  destruct (filter _ curAnimes); [exact I|].
  destruct (findSecondaryMatch pAnime _) as [matched|]; [|exact I].
  destruct (findCached (animes st) (animeId matched)) as [cachedMatch|]; [|exact I].
  destruct (links cachedMatch) as [cachedLinks|]; [|exact I].
  destruct (mergeInto _ _ _ _ _ _ _) as [[[derived mergedCount] totalP] totalM].
  destruct (_ && _); [|exact I].
  cbn [fst]. intros ev Hev. cbn [mergeTrace globalConsumedIds] in *.
  apply idAdd_In. apply in_app_iff in Hev as [Hev | [<- | []]].
  - left. now apply I.
  - now right.
Qed.

Lemma fold_trySecondary_traceConsumed (curAnimes : list Anime)
      (epFilter : option (jsstring -> bool)) (fp src : jsstring) (pAnime : Anime) :
  forall (secs : list jsstring) (acc : MergeState * PrimaryRun),
    traceConsumed (fst acc) ->
    traceConsumed (fst (fold_left (trySecondary curAnimes epFilter fp src pAnime) secs acc)).
Proof.
  induction secs as [|sec secs IH]; intros acc I; [exact I|].
  cbn [fold_left]. apply IH. now apply trySecondary_traceConsumed.
Qed.

Lemma processPrimary_traceConsumed (curAnimes : list Anime)
      (epFilter : option (jsstring -> bool)) (fp src : jsstring) (secs : list jsstring)
      (st : MergeState) (pAnime : Anime) :
  traceConsumed st ->
  traceConsumed (processPrimary curAnimes epFilter fp src secs st pAnime).
Proof.
  intro I. unfold processPrimary.
  destruct (findCached (animes st) (animeId pAnime)) as [cachedPAnime|]; [|exact I].
  destruct (links cachedPAnime); [|exact I].
  pose proof (fold_trySecondary_traceConsumed curAnimes epFilter fp src pAnime secs
                (st, mkRun cachedPAnime [] [animeId pAnime] false) I) as I'.
  destruct (fold_left _ secs _) as [st' run]. cbn [fst] in I'.
  destruct (hasMergedAny run); [|exact I'].
  destruct (existsb _ (generatedSignatures st')); [exact I'|].
  intros ev Hev. cbn [mergeTrace globalConsumedIds] in *.
  apply idAdd_In. apply in_app_iff in Hev as [Hev | [<- | []]].
  - left. now apply I'.
  - now right.
Qed.

Lemma fold_processPrimary_traceConsumed (curAnimes : list Anime)
      (epFilter : option (jsstring -> bool)) (fp src : jsstring) (secs : list jsstring) :
  forall (items : list Anime) (st : MergeState),
    traceConsumed st ->
    traceConsumed (fold_left (processPrimary curAnimes epFilter fp src secs) items st).
Proof.
  induction items as [|p items IH]; intros st I; [exact I|].
  cbn [fold_left]. apply IH. now apply processPrimary_traceConsumed.
Qed.

Lemma rotate_traceConsumed (curAnimes : list Anime) (epFilter : option (jsstring -> bool))
      (fp : jsstring) :
  forall (chain : list jsstring) (st : MergeState),
    traceConsumed st -> traceConsumed (rotate curAnimes epFilter fp chain st).
Proof.
  induction chain as [|src secs IH]; intros st I; [exact I|].
  cbn [rotate]. destruct secs as [|s secs']; [exact I|].
  apply IH. unfold rotationStep.
  destruct (filter _ curAnimes); [exact I|].
  now apply fold_processPrimary_traceConsumed.
Qed.

Lemma processGroup_traceConsumed (curAnimes : list Anime)
      (epFilter : option (jsstring -> bool)) (st : MergeState) (group : MergeGroup) :
  traceConsumed st -> traceConsumed (processGroup curAnimes epFilter st group).
Proof.
  intro I. unfold processGroup. apply rotate_traceConsumed. exact I.
Qed.

Lemma fold_processGroup_traceConsumed (curAnimes : list Anime)
      (epFilter : option (jsstring -> bool)) :
  forall (groups : list MergeGroup) (st : MergeState),
    traceConsumed st ->
    traceConsumed (fold_left (processGroup curAnimes epFilter) groups st).
Proof.
  induction groups as [|g groups IH]; intros st I; [exact I|].
  cbn [fold_left]. apply IH. now apply processGroup_traceConsumed.
Qed.

Lemma removeAt_middle {A : Type} (a : list A) (x : A) (b : list A) :
  removeAt (List.length a) (a ++ x :: b) = a ++ b.
Proof. induction a as [|y a IH]; [reflexivity|]. cbn. now rewrite IH. Qed.

Lemma nth_error_middle {A : Type} (a : list A) (x : A) (b : list A) :
  nth_error (a ++ x :: b) (List.length a) = Some x.
Proof. induction a as [|y a IH]; [reflexivity|exact IH]. Qed.

(** The backward loop with [splice] is a filter. *)
Lemma cleanupFrom_filter (consumed : list JsId) :
  forall (n : nat) (a b : list Anime),
    List.length a = n ->
    cleanupFrom consumed n (a ++ b)
    = filter (fun item => negb (_isMerged item || idHas (animeId item) consumed)) a ++ b.
Proof.
  induction n as [|n IH]; intros a b Hlen.
  - destruct a; [reflexivity|discriminate].
  - destruct (exists_last (l := a)) as (a' & x & ->).
    { intros ->. discriminate. }
    rewrite length_app in Hlen. cbn [List.length] in Hlen.
    assert (Hn : List.length a' = n) by lia. subst n.
    rewrite <- app_assoc. cbn [app cleanupFrom].
    rewrite nth_error_middle, filter_app. cbn [filter].
    destruct (_isMerged x || idHas (animeId x) consumed); cbn [negb].
    + rewrite removeAt_middle, app_nil_r. now apply IH.
    + rewrite <- app_assoc. cbn [app]. now apply IH.
Qed.

Lemma cleanupFrom_all (consumed : list JsId) (l : list Anime) :
  cleanupFrom consumed (List.length l) l
  = filter (fun item => negb (_isMerged item || idHas (animeId item) consumed)) l.
Proof.
  pose proof (cleanupFrom_filter consumed (List.length l) l [] eq_refl) as H.
  now rewrite !app_nil_r in H.
Qed.

(** C1. After [applyMergeLogic], no entry of the final list [curAnimes] has
    an [animeId] of the global consumed-id set; in particular an entry the
    run accepted as matched secondary ([Linked]) or pushed a merged entry
    for as primary ([Emitted]) is absent from it.  When there are groups the
    final list is the merged entries followed by the original ones, without
    those flagged [_isMerged] or consumed. *)
Theorem applyMergeLogic_consumed_absent :
  forall (groups : list MergeGroup) (epFilter : option (jsstring -> bool))
         (cache curAnimes : list Anime),
    let r := applyMergeLogic groups epFilter cache curAnimes in
    let consumed := globalConsumedIds (finalState r) in
    (forall item, In item (curAnimesOut r) -> idHas (animeId item) consumed = false)
    /\ (forall pid matched item,
           In (Linked pid matched) (mergeTrace (finalState r)) ->
           In item (curAnimesOut r) -> animeId item <> matched)
    /\ (forall pid merged item,
           In (Emitted pid merged) (mergeTrace (finalState r)) ->
           In item (curAnimesOut r) -> animeId item <> pid)
    /\ (groups <> [] ->
        curAnimesOut r
        = filter (fun item => negb (_isMerged item || idHas (animeId item) consumed))
                 (newMergedAnimes (finalState r) ++ curAnimes)).
Proof.
  intros groups epFilter cache curAnimes r consumed.
  assert (I : traceConsumed (finalState r)).
  { subst r. unfold applyMergeLogic. destruct groups as [|g groups].
    - intros ev [].
    - cbn [finalState]. apply fold_processGroup_traceConsumed. intros ev []. }
  assert (F : forall item, In item (curAnimesOut r) -> idHas (animeId item) consumed = false).
  { subst consumed r. unfold applyMergeLogic. destruct groups as [|g groups].
    - reflexivity.
    - cbn [finalState curAnimesOut]. intros item Hin.
      set (st := fold_left (processGroup curAnimes epFilter) (g :: groups)
                           (mkState cache [] [] [] [] [])) in *.
      set (l := match newMergedAnimes st with [] => curAnimes | a :: m => (a :: m) ++ curAnimes end)
        in *.
      rewrite cleanupFrom_all in Hin. apply filter_In in Hin as [_ Hk].
      apply negb_true_iff, orb_false_iff in Hk. tauto. }
  split; [exact F|]. split; [|split].
  - intros pid matched item Hev Hin Heq. specialize (F item Hin).
    apply I in Hev. cbn [consumedOf] in Hev. apply idHas_In in Hev.
    subst matched. fold consumed in Hev. congruence.
  - intros pid merged item Hev Hin Heq. specialize (F item Hin).
    apply I in Hev. cbn [consumedOf] in Hev. apply idHas_In in Hev.
    subst pid. fold consumed in Hev. congruence.
  - intro NE. subst consumed r. unfold applyMergeLogic.
    destruct groups as [|g groups]; [congruence|].
    cbn [finalState curAnimesOut].
    set (st := fold_left (processGroup curAnimes epFilter) (g :: groups)
                         (mkState cache [] [] [] [] [])).
    assert (E : match newMergedAnimes st with [] => curAnimes | a :: m => (a :: m) ++ curAnimes end
                = newMergedAnimes st ++ curAnimes) by (now destruct (newMergedAnimes st)).
    rewrite E. apply cleanupFrom_all.
Qed.

(** ** MergeOrchestrator: what a merge attempt leaves in the derived entry *)

(** Every attempt recomputes the ids of the derived entry, whatever the
    number of links it merges. *)
Lemma mergeInto_ids (epFilter : option (jsstring -> bool)) (fp src sec : jsstring)
      (derived matched : Anime) (cachedLinks : list Link) :
  let '(derived', _, _, _) := mergeInto epFilter fp src sec derived matched cachedLinks in
  animeId derived' = IdNum (generateSafeMergedId (animeId derived) (animeId matched) fp)
  /\ bangumiId derived'
     = decimalZ (generateSafeMergedId (animeId derived) (animeId matched) fp).
Proof.
  unfold mergeInto.
  destruct (forIndexed _ _ _ _) as [newLinks mergedCount]. split; reflexivity.
Qed.

(** An attempt that reaches the final check and fails it changes neither
    the sets nor the trace, and hands the entry as [mergeInto] left it to
    the next secondary. *)
Lemma trySecondary_rejected (curAnimes : list Anime) (epFilter : option (jsstring -> bool))
      (fp src : jsstring) (pAnime : Anime) (st : MergeState) (run : PrimaryRun)
      (sec : jsstring) (matched cachedMatch : Anime) (cachedLinks : list Link)
      (derived : Anime) (mergedCount totalP totalM : Z) :
  findSecondaryMatch pAnime
    (filter (fun a => jsstring_eqb (source a) sec
                      && negb (idHas (animeId a) (groupConsumedIds st))) curAnimes)
  = Some matched ->
  findCached (animes st) (animeId matched) = Some cachedMatch ->
  links cachedMatch = Some cachedLinks ->
  mergeInto epFilter fp src sec (derivedAnime run) matched cachedLinks
  = (derived, mergedCount, totalP, totalM) ->
  (0 <? mergedCount)%Z && isMergeRatioValid mergedCount totalP totalM src sec = false ->
  trySecondary curAnimes epFilter fp src pAnime (st, run) sec
  = (st, mkRun derived (actualMergedSources run) (contentSignatureParts run)
               (hasMergedAny run)).
Proof.
  intros Hm Hc Hl Hi Hr. unfold trySecondary.
  destruct (filter _ curAnimes) as [|a l] eqn:F.
  - cbn in Hm. discriminate Hm.
  - rewrite Hm, Hc, Hl, Hi, Hr. reflexivity.
Qed.

(** * Further properties of the module *)

(** ** SimilarityScorer: [editDistance] is a metric *)

Lemma levenshtein_nonneg (s t : jsstring) : (0 <= levenshtein s t)%Z.
Proof.
  revert t. induction s as [|a s IHs]; intro t.
  - cbn. unfold Zlen. lia.
  - induction t as [|b t IHt].
    + rewrite levenshtein_nil_r. unfold Zlen. lia.
    + rewrite levenshtein_cons. pose proof (IHs (b :: t)). pose proof (IHs t).
      destruct (a =? b)%N; lia.
Qed.

Lemma levenshtein_nil_l (t : jsstring) : levenshtein [] t = Zlen t.
Proof. reflexivity. Qed.

Lemma Zlen_cons (a : N) (s : jsstring) : Zlen (a :: s) = (Zlen s + 1)%Z.
Proof. unfold Zlen. cbn [List.length]. lia. Qed.

Lemma Zlen_nonneg (s : jsstring) : (0 <= Zlen s)%Z.
Proof. unfold Zlen. lia. Qed.

Lemma levenshtein_bounds (s t : jsstring) :
  (Z.abs (Zlen s - Zlen t) <= levenshtein s t <= Z.max (Zlen s) (Zlen t))%Z.
Proof.
  revert t. induction s as [|a s IHs]; intro t.
  - change (levenshtein [] t) with (Zlen t). pose proof (Zlen_nonneg t).
    change (Zlen []) with 0%Z. lia.
  - induction t as [|b t IHt].
    + rewrite levenshtein_nil_r. pose proof (Zlen_nonneg (a :: s)).
      change (Zlen []) with 0%Z. lia.
    + rewrite levenshtein_cons. pose proof (IHs (b :: t)). pose proof (IHs t).
      rewrite !Zlen_cons in *. destruct (a =? b)%N; lia.
Qed.

Lemma levenshtein_refl (s : jsstring) : levenshtein s s = 0%Z.
Proof.
  induction s as [|a s IH]; [reflexivity|].
  rewrite levenshtein_cons, IH, N.eqb_refl.
  pose proof (levenshtein_nonneg s (a :: s)). pose proof (levenshtein_nonneg (a :: s) s). lia.
Qed.

Lemma levenshtein_zero (s t : jsstring) : levenshtein s t = 0%Z -> s = t.
Proof.
  revert t. induction s as [|a s IHs]; intro t.
  - change (levenshtein [] t) with (Zlen t). destruct t; [reflexivity|]. rewrite Zlen_cons.
    pose proof (Zlen_nonneg t). lia.
  - destruct t as [|b t].
    + rewrite levenshtein_nil_r, Zlen_cons. pose proof (Zlen_nonneg s). lia.
    + rewrite levenshtein_cons. intro H.
      pose proof (levenshtein_nonneg s (b :: t)). pose proof (levenshtein_nonneg (a :: s) t).
      pose proof (levenshtein_nonneg s t).
      destruct (N.eqb_spec a b) as [-> | Hne]; [|lia].
      f_equal. apply IHs. lia.
Qed.

Lemma levenshtein_triangle_aux (n : nat) :
  forall s t u : jsstring,
    (List.length s + List.length t + List.length u <= n)%nat ->
    (levenshtein s u <= levenshtein s t + levenshtein t u)%Z.
Proof.
  induction n as [|n IH]; intros s t u Hn.
  - destruct s, t, u; cbn in Hn; try lia. cbn. lia.
  - destruct s as [|a s].
    + change (levenshtein [] u) with (Zlen u). change (levenshtein [] t) with (Zlen t).
      pose proof (levenshtein_bounds t u). lia.
    + destruct t as [|b t].
      * rewrite levenshtein_nil_r. change (levenshtein [] u) with (Zlen u).
        pose proof (levenshtein_bounds (a :: s) u).
        pose proof (Zlen_nonneg (a :: s)). pose proof (Zlen_nonneg u). lia.
      * destruct u as [|c u].
        -- rewrite !levenshtein_nil_r. pose proof (levenshtein_bounds (a :: s) (b :: t)). lia.
        -- cbn [List.length] in Hn.
           pose proof (IH s (b :: t) (c :: u) ltac:(cbn [List.length]; lia)) as T1.
           pose proof (IH (a :: s) (b :: t) u ltac:(cbn [List.length]; lia)) as T2.
           pose proof (IH (a :: s) t (c :: u) ltac:(cbn [List.length]; lia)) as T3.
           pose proof (IH (a :: s) t u ltac:(cbn [List.length]; lia)) as T4.
           pose proof (IH s t (c :: u) ltac:(cbn [List.length]; lia)) as T5.
           pose proof (IH s t u ltac:(cbn [List.length]; lia)) as T6.
           rewrite (levenshtein_cons a c s u), (levenshtein_cons a b s t),
             (levenshtein_cons b c t u) in *.
           destruct (N.eqb_spec a b), (N.eqb_spec b c), (N.eqb_spec a c); subst; try congruence;
             lia.
Qed.

Lemma rev_eq_inv (s t : jsstring) : rev s = rev t -> s = t.
Proof. intro H. apply (f_equal (@rev N)) in H. now rewrite !rev_involutive in H. Qed.

Lemma Zlen_rev (s : jsstring) : Zlen (rev s) = Zlen s.
Proof. unfold Zlen. now rewrite length_rev. Qed.

(** X1. [editDistance] is a metric on strings: it is [0] exactly when the
    two strings are equal, it is symmetric, and it obeys the triangle
    inequality. *)
Theorem editDistance_metric :
  forall s1 s2 s3 : jsstring,
    (editDistance s1 s2 = 0%Z <-> s1 = s2)
    /\ editDistance s1 s2 = editDistance s2 s1
    /\ (editDistance s1 s3 <= editDistance s1 s2 + editDistance s2 s3)%Z.
Proof.
  intros s1 s2 s3. rewrite !editDistance_levenshtein. split; [|split].
  - split.
    + intro H. apply rev_eq_inv. now apply levenshtein_zero.
    + intros ->. apply levenshtein_refl.
  - apply levenshtein_sym.
  - apply (levenshtein_triangle_aux
             (List.length (rev s1) + List.length (rev s2) + List.length (rev s3))).
    lia.
Qed.

Lemma editDistance_length_bounds (s1 s2 : jsstring) :
  (Z.abs (Zlen s1 - Zlen s2) <= editDistance s1 s2 <= Z.max (Zlen s1) (Zlen s2))%Z.
Proof.
  rewrite editDistance_levenshtein.
  pose proof (levenshtein_bounds (rev s1) (rev s2)) as H. rewrite !Zlen_rev in H. exact H.
Qed.

(** X2. [editDistance] lies between the difference of the two lengths and
    the longer length; against the empty string it is the length. *)
Theorem editDistance_bounds :
  forall s1 s2 : jsstring,
    (Z.abs (Zlen s1 - Zlen s2) <= editDistance s1 s2 <= Z.max (Zlen s1) (Zlen s2))%Z
    /\ editDistance s1 [] = Zlen s1
    /\ editDistance [] s2 = Zlen s2.
Proof.
  intros s1 s2. split; [apply editDistance_length_bounds|].
  rewrite !editDistance_levenshtein. split.
  - change (rev []) with (@nil N). now rewrite levenshtein_nil_r, Zlen_rev.
  - change (rev []) with (@nil N). change (levenshtein [] (rev s2)) with (Zlen (rev s2)).
    apply Zlen_rev.
Qed.

Lemma Zratio_unit (a b : Z) : (0 <= a <= b)%Z -> 0 <= Zratio a b <= 1.
Proof.
  intros [Ha Hb]. unfold Zratio, Qle. cbn [Qnum Qden].
  destruct (Z.eq_dec b 0) as [-> | Hne].
  - cbn. lia.
  - rewrite Z2Pos.id by lia. lia.
Qed.

Lemma Qmax2_range (a b : Q) : 0 <= a <= 1 -> 0 <= b <= 1 -> 0 <= Qmax2 a b <= 1.
Proof. intros Ha Hb. unfold Qmax2. now destruct (Qle_bool a b). Qed.

(** X3. [calculateSimilarity] returns a value in [[0, 1]]; it is [0] as
    soon as one input is the empty string, and at least [0.8] when one
    normalised title contains the other. *)
Theorem calculateSimilarity_range :
  forall str1 str2 : jsstring,
    0 <= calculateSimilarity str1 str2 <= 1
    /\ (str1 = [] \/ str2 = [] -> calculateSimilarity str1 str2 = 0)
    /\ (str1 <> [] -> str2 <> [] ->
        includes (cleanText str1) (cleanText str2)
        || includes (cleanText str2) (cleanText str1) = true ->
        8 # 10 <= calculateSimilarity str1 str2).
Proof.
  intros str1 str2.
  assert (R : forall a b, 0 <= Zratio (Z.min (Zlen a) (Zlen b)) (Z.max (Zlen a) (Zlen b)) <= 1).
  { intros a b. apply Zratio_unit. pose proof (Zlen_nonneg a). pose proof (Zlen_nonneg b). lia. }
  split; [|split].
  - unfold calculateSimilarity.
    destruct (isEmpty str1 || isEmpty str2); [split; discriminate|].
    destruct (jsstring_eqb (cleanText str1) (cleanText str2)); [split; discriminate|].
    destruct (includes (cleanText str1) (cleanText str2)
              || includes (cleanText str2) (cleanText str1)).
    + specialize (R (cleanText str1) (cleanText str2)). lra.
    + apply Qmax2_range; [|apply calculateDiceSimilarity_range].
      destruct (Z.max (Zlen (cleanText str1)) (Zlen (cleanText str2)) =? 0)%Z eqn:E;
        [split; discriminate|].
      apply Z.eqb_neq in E.
      destruct (editDistance_length_bounds (cleanText str1) (cleanText str2)) as [L U].
      assert (0 <= Zratio (editDistance (cleanText str1) (cleanText str2))
                          (Z.max (Zlen (cleanText str1)) (Zlen (cleanText str2))) <= 1)
        by (apply Zratio_unit; lia).
      lra.
  - intros [-> | ->]; unfold calculateSimilarity; cbn [isEmpty orb]; [reflexivity|].
    now rewrite orb_true_r.
  - intros N1 N2 Hinc. unfold calculateSimilarity.
    destruct str1; [congruence|]. destruct str2; [congruence|]. cbn [isEmpty orb].
    destruct (jsstring_eqb _ _); [discriminate|].
    rewrite Hinc.
    specialize (R (cleanText (n :: str1)) (cleanText (n0 :: str2))). lra.
Qed.

Lemma filter_setHas_self (s : list N) : filter (fun ch => setHas ch s) s = s.
Proof.
  apply forallb_filter_id. apply forallb_forall. intros x Hx. now apply setHas_In.
Qed.

(** X4. [calculateDiceSimilarity] is symmetric, and a non-empty string has
    coefficient [1.0] with itself. *)
Theorem calculateDiceSimilarity_symmetric_self :
  (forall s1 s2 : jsstring, calculateDiceSimilarity s1 s2 = calculateDiceSimilarity s2 s1)
  /\ (forall s : jsstring, s <> [] -> calculateDiceSimilarity s s == 1).
Proof.
  split; [apply calculateDiceSimilarity_sym|].
  intros s Hs. unfold calculateDiceSimilarity.
  destruct s as [|c r]; [congruence|]. cbn [isEmpty orb].
  set (set1 := newSet (replaceAll reSpace (fun _ => []) (c :: r))).
  rewrite filter_setHas_self.
  destruct (Z.of_nat (List.length set1) =? 0)%Z eqn:E; cbn [andb orb]; [reflexivity|].
  apply Z.eqb_neq in E. unfold Zratio, Qeq. cbn [Qnum Qden].
  rewrite Z2Pos.id by lia. lia.
Qed.

(** ** ConflictDetector: order of the two sides *)

Lemma startsWith_same_length (a b : jsstring) :
  List.length a = List.length b -> startsWith a b = true -> a = b.
Proof.
  revert b. induction a as [|x a IH]; destruct b as [|y b]; cbn; intros L H;
    try reflexivity; try discriminate.
  apply andb_prop in H as [E H]. apply N.eqb_eq in E. subst. f_equal. apply IH; [lia|exact H].
Qed.

(** X5. [checkTitleSubtitleConflict] does not depend on the order of the
    two titles; it reports no conflict for a title against itself, nor when
    a title is empty. *)
Theorem checkTitleSubtitleConflict_symmetric :
  forall titleA titleB : jsstring,
    checkTitleSubtitleConflict titleA titleB = checkTitleSubtitleConflict titleB titleA
    /\ checkTitleSubtitleConflict titleA titleA = false
    /\ checkTitleSubtitleConflict titleA [] = false
    /\ checkTitleSubtitleConflict [] titleB = false.
Proof.
  intros titleA titleB. split; [|split; [|split]].
  - unfold checkTitleSubtitleConflict.
    rewrite (orb_comm (isEmpty titleB)).
    destruct (isEmpty titleA || isEmpty titleB); [reflexivity|].
    set (t1 := lightCleanSubtitle titleA). set (t2 := lightCleanSubtitle titleB).
    rewrite (jsstring_eqb_sym t2 t1).
    destruct (jsstring_eqb t1 t2) eqn:E; [reflexivity|].
    destruct (Nat.ltb_spec (List.length t1) (List.length t2)) as [L12 | L12];
      destruct (Nat.ltb_spec (List.length t2) (List.length t1)) as [L21 | L21];
      try lia; try reflexivity.
    assert (L : List.length t1 = List.length t2) by lia.
    destruct (startsWith t1 t2) eqn:S1.
    + apply startsWith_same_length in S1; [|exact L]. subst t1.
      rewrite S1, jsstring_eqb_refl in E. discriminate.
    + destruct (startsWith t2 t1) eqn:S2; [|reflexivity].
      apply startsWith_same_length in S2; [|now symmetry].
      rewrite S2, jsstring_eqb_refl in E. discriminate.
  - unfold checkTitleSubtitleConflict. destruct (isEmpty titleA || isEmpty titleA); [reflexivity|].
    now rewrite jsstring_eqb_refl.
  - unfold checkTitleSubtitleConflict. cbn [isEmpty]. now rewrite orb_true_r.
  - reflexivity.
Qed.

Lemma checkTheatricalExemption_sym (titleA titleB : jsstring) (typeA typeB : option jsstring) :
  checkTheatricalExemption titleA titleB typeA typeB
  = checkTheatricalExemption titleB titleA typeB typeA.
Proof.
  unfold checkTheatricalExemption.
  rewrite (orb_comm (includes (orEmpty typeB) (js "剧场版"))).
  destruct (negb _); [reflexivity|]. apply andb_comm.
Qed.

Lemma MediaType_eqb_sym (a b : MediaType) : MediaType_eqb a b = MediaType_eqb b a.
Proof. now destruct a, b. Qed.

(** X6. The theatrical exemption and the media-type conflict do not
    depend on which entry is the first: [checkTheatricalExemption] and
    [checkMediaTypeMismatch] give the same answer with the two sides
    exchanged; the exemption needs a type description naming a theatrical
    release. *)
Theorem checkMediaTypeMismatch_symmetric :
  forall (titleA titleB : jsstring) (typeDescA typeDescB : option jsstring)
         (countA countB : Z),
    checkTheatricalExemption titleA titleB typeDescA typeDescB
    = checkTheatricalExemption titleB titleA typeDescB typeDescA
    /\ checkMediaTypeMismatch titleA titleB typeDescA typeDescB countA countB
       = checkMediaTypeMismatch titleB titleA typeDescB typeDescA countB countA
    /\ (includes (orEmpty typeDescA) (js "剧场版") = false ->
        includes (orEmpty typeDescB) (js "剧场版") = false ->
        checkTheatricalExemption titleA titleB typeDescA typeDescB = false).
Proof.
  intros titleA titleB typeDescA typeDescB countA countB. split; [|split].
  - apply checkTheatricalExemption_sym.
  - unfold checkMediaTypeMismatch.
    rewrite (checkTheatricalExemption_sym titleB titleA).
    destruct (getStrictMediaType titleA typeDescA) as [a|],
             (getStrictMediaType titleB typeDescB) as [b|]; try reflexivity.
    rewrite (MediaType_eqb_sym b a). destruct (MediaType_eqb a b); [reflexivity|].
    destruct (checkTheatricalExemption titleA titleB typeDescA typeDescB); [reflexivity|].
    rewrite (andb_comm (0 <? countB)%Z).
    replace (Z.abs (countB - countA)) with (Z.abs (countA - countB)) by lia.
    reflexivity.
  - intros HA HB. unfold checkTheatricalExemption. now rewrite HA, HB.
Qed.

(** X7. [hasSameSeasonMarker] does not depend on the order of the two
    sides, and it holds exactly when the two marker sets share a marker
    starting with [S]. *)
Theorem hasSameSeasonMarker_symmetric :
  forall (titleA titleB : jsstring) (typeA typeB : option jsstring),
    hasSameSeasonMarker titleA titleB typeA typeB = hasSameSeasonMarker titleB titleA typeB typeA
    /\ (hasSameSeasonMarker titleA titleB typeA typeB = true <->
        exists m, In m (extractSeasonMarkers titleA typeA)
                  /\ In m (extractSeasonMarkers titleB typeB)
                  /\ startsWith m (js "S") = true).
Proof.
  intros titleA titleB typeA typeB.
  assert (C : forall a b ta tb,
             hasSameSeasonMarker a b ta tb = true <->
             exists m, In m (extractSeasonMarkers a ta) /\ In m (extractSeasonMarkers b tb)
                       /\ startsWith m (js "S") = true).
  { intros a b ta tb. unfold hasSameSeasonMarker.
    set (sa := filter _ (extractSeasonMarkers a ta)).
    set (sb := filter _ (extractSeasonMarkers b tb)). split.
    - intro H. destruct ((0 <? List.length sa)%nat && (0 <? List.length sb)%nat); [|discriminate].
      apply existsb_exists in H as [m [Hm Hb]]. apply markerHas_In in Hb.
      apply filter_In in Hm as [Hm Hs]. apply filter_In in Hb as [Hb _]. now exists m.
    - intros [m (Hm & Hb & Hs)].
      assert (Ia : In m sa) by (apply filter_In; now split).
      assert (Ib : In m sb) by (apply filter_In; now split).
      replace (0 <? List.length sa)%nat with true
        by (symmetry; apply Nat.ltb_lt; destruct sa; [destruct Ia|cbn; lia]).
      replace (0 <? List.length sb)%nat with true
        by (symmetry; apply Nat.ltb_lt; destruct sb; [destruct Ib|cbn; lia]).
      cbn [andb]. apply existsb_exists. exists m. split; [exact Ia|now apply markerHas_In]. }
  split; [|apply C].
  destruct (hasSameSeasonMarker titleA titleB typeA typeB) eqn:E1,
           (hasSameSeasonMarker titleB titleA typeB typeA) eqn:E2; try reflexivity.
  - apply C in E1 as [m (H1 & H2 & H3)].
    assert (hasSameSeasonMarker titleB titleA typeB typeA = true) by (apply C; now exists m).
    congruence.
  - apply C in E2 as [m (H1 & H2 & H3)].
    assert (hasSameSeasonMarker titleA titleB typeA typeB = true) by (apply C; now exists m).
    congruence.
Qed.

(** X8. [checkDateMatch] does not depend on the order of the two dates;
    its value is [-1], [0], [0.1] or [0.2]; it is the hard mismatch [-1]
    exactly when both years are known and more than one year apart. *)
Theorem checkDateMatch_values :
  forall dateA dateB : DateInfo,
    checkDateMatch dateA dateB = checkDateMatch dateB dateA
    /\ In (checkDateMatch dateA dateB) [-(1); 0; 1 # 10; 2 # 10]
    /\ (checkDateMatch dateA dateB = -(1) <->
        truthyNum (year dateA) = true /\ truthyNum (year dateB) = true
        /\ (1 < Z.abs (numOr0 (year dateA) - numOr0 (year dateB)))%Z).
Proof.
  intros dateA dateB. unfold checkDateMatch.
  rewrite (orb_comm (negb (truthyNum (year dateB)))).
  rewrite (andb_comm (truthyNum (month dateB))).
  replace (Z.abs (numOr0 (year dateB) - numOr0 (year dateA)))
    with (Z.abs (numOr0 (year dateA) - numOr0 (year dateB))) by lia.
  replace (Z.abs (numOr0 (month dateB) - numOr0 (month dateA)))
    with (Z.abs (numOr0 (month dateA) - numOr0 (month dateB))) by lia.
  split; [reflexivity|].
  destruct (truthyNum (year dateA)), (truthyNum (year dateB)); cbn [negb orb];
    try (split; [cbn; tauto|split; [discriminate|intros (? & ? & ?); discriminate]]).
  destruct (Z.ltb_spec 1 (Z.abs (numOr0 (year dateA) - numOr0 (year dateB)))) as [L | L].
  - split; [cbn; tauto|]. split; [intros _; repeat split; exact L|reflexivity].
  - assert (NL : ~ (1 < Z.abs (numOr0 (year dateA) - numOr0 (year dateB)))%Z) by lia.
    destruct (_ =? 0)%Z;
      [destruct (truthyNum (month dateA) && truthyNum (month dateB));
       [destruct (2 <? _)%Z; [|destruct (_ =? 0)%Z]|]|];
      (split; [cbn; tauto|split; [discriminate|intros (_ & _ & ?); contradiction]]).
Qed.

(** X9. [isMergeRatioValid] in integers: with [animeko] on either side it
    always holds; otherwise it fails when both totals are [0], holds when
    the larger total is between 1 and 5, and above 5 holds exactly when
    [mergedCount / maxTotal >= 0.18], that is [50 * mergedCount >= 9 *
    maxTotal]; so it is monotone in the number of merged episodes. *)
Theorem isMergeRatioValid_threshold :
  forall (mergedCount totalA totalB : Z) (sourceA sourceB : jsstring),
    let maxTotal := Z.max totalA totalB in
    (sourceA = js "animeko" \/ sourceB = js "animeko" ->
     isMergeRatioValid mergedCount totalA totalB sourceA sourceB = true)
    /\ (sourceA <> js "animeko" -> sourceB <> js "animeko" ->
        (maxTotal = 0%Z -> isMergeRatioValid mergedCount totalA totalB sourceA sourceB = false)
        /\ ((0 < maxTotal <= 5)%Z ->
            isMergeRatioValid mergedCount totalA totalB sourceA sourceB = true)
        /\ ((5 < maxTotal)%Z ->
            (isMergeRatioValid mergedCount totalA totalB sourceA sourceB = true
             <-> (9 * maxTotal <= 50 * mergedCount)%Z))
        /\ (forall more : Z,
               (mergedCount <= more)%Z ->
               isMergeRatioValid mergedCount totalA totalB sourceA sourceB = true ->
               isMergeRatioValid more totalA totalB sourceA sourceB = true)).
Proof.
  intros mergedCount totalA totalB sourceA sourceB maxTotal.
  assert (Q18 : forall m t : Z, (0 < t)%Z ->
                (Qltb (Zratio m t) (18 # 100) = true <-> (50 * m < 9 * t)%Z)).
  { intros m t Ht. rewrite Qltb_lt. unfold Zratio, Qlt. cbn [Qnum Qden].
    rewrite Z2Pos.id by lia. lia. }
  split.
  - intros [-> | ->]; unfold isMergeRatioValid; rewrite jsstring_eqb_refl;
      [reflexivity|rewrite orb_true_r; reflexivity].
  - intros NA NB.
    assert (EA : jsstring_eqb sourceA (js "animeko") = false).
    { destruct (jsstring_eqb sourceA (js "animeko")) eqn:E; [|reflexivity].
      apply jsstring_eqb_eq in E. contradiction. }
    assert (EB : jsstring_eqb sourceB (js "animeko") = false).
    { destruct (jsstring_eqb sourceB (js "animeko")) eqn:E; [|reflexivity].
      apply jsstring_eqb_eq in E. contradiction. }
    assert (U : forall m, isMergeRatioValid m totalA totalB sourceA sourceB
                          = if (maxTotal =? 0)%Z then false
                            else if (5 <? maxTotal)%Z && Qltb (Zratio m maxTotal) (18 # 100)
                                 then false else true).
    { intro m. unfold isMergeRatioValid. rewrite EA, EB. reflexivity. }
    split; [|split; [|split]].
    + intro Z0. rewrite U, Z0. reflexivity.
    + intros [L1 L2]. rewrite U.
      replace (maxTotal =? 0)%Z with false by (symmetry; apply Z.eqb_neq; lia).
      replace (5 <? maxTotal)%Z with false by (symmetry; apply Z.ltb_ge; lia). reflexivity.
    + intro L. rewrite U.
      replace (maxTotal =? 0)%Z with false by (symmetry; apply Z.eqb_neq; lia).
      replace (5 <? maxTotal)%Z with true by (symmetry; apply Z.ltb_lt; lia). cbn [andb].
      destruct (Qltb (Zratio mergedCount maxTotal) (18 # 100)) eqn:E.
      * apply Q18 in E; [|lia]. split; [discriminate|lia].
      * split; [intros _|reflexivity].
        destruct (Z_lt_le_dec (50 * mergedCount) (9 * maxTotal)) as [Lt | Le]; [|exact Le].
        apply Q18 in Lt; [|lia]. congruence.
    + intros more Hm. rewrite !U.
      destruct (maxTotal =? 0)%Z eqn:Z0; [discriminate|]. apply Z.eqb_neq in Z0.
      destruct (Z.ltb_spec 5 maxTotal) as [L5 | L5]; [|reflexivity]. cbn [andb].
      destruct (Qltb (Zratio mergedCount maxTotal) (18 # 100)) eqn:E; [discriminate|].
      intros _. destruct (Qltb (Zratio more maxTotal) (18 # 100)) eqn:E'; [|reflexivity].
      apply Q18 in E'; [|lia].
      assert (Qltb (Zratio mergedCount maxTotal) (18 # 100) = true) by (apply Q18; lia).
      congruence.
Qed.

(** ** The choice of [findSecondaryMatch] *)

(** The loop body is the running maximum over [candidateScore]. *)
Lemma matchStep_candidateScore (primaryAnime : Anime) (st : option Anime * Q) (c : Anime) :
  matchStep primaryAnime st c
  = match candidateScore primaryAnime c with
    | Some s => if Qltb (snd st) s then (Some c, s) else st
    | None => st
    end.
Proof.
  destruct st as [b m]. unfold matchStep, candidateScore. cbv zeta. cbn [snd].
  destruct (checkMediaTypeMismatch _ _ _ _ _ _); [reflexivity|].
  destruct (negb (hasSameSeasonMarker _ _ _ _) && _); [reflexivity|].
  destruct (checkSeasonMismatch _ _ _ _); reflexivity.
Qed.

(** A candidate with a score passed the three vetoes of the loop. *)
Lemma candidateScore_not_vetoed (primaryAnime c : Anime) (s : Q) :
  candidateScore primaryAnime c = Some s ->
  checkMediaTypeMismatch (animeTitle primaryAnime) (animeTitle c)
                         (typeDescription primaryAnime) (typeDescription c)
                         (knownCount primaryAnime) (knownCount c) = false
  /\ checkSeasonMismatch (titleForSim (animeTitle primaryAnime)) (titleForSim (animeTitle c))
                         (typeDescription primaryAnime) (typeDescription c) = false
  /\ (hasSameSeasonMarker (titleForSim (animeTitle primaryAnime)) (titleForSim (animeTitle c))
                          (typeDescription primaryAnime) (typeDescription c) = true
      \/ Qeq_bool (checkDateMatch (parseDate (startDate primaryAnime))
                                  (parseDate (startDate c))) (-(1)) = false).
Proof.
  unfold candidateScore. cbv zeta.
  destruct (checkMediaTypeMismatch _ _ _ _ _ _); [discriminate|].
  destruct (hasSameSeasonMarker _ _ _ _) eqn:M; cbn [negb andb].
  - destruct (checkSeasonMismatch _ _ _ _); [discriminate|]. intros _.
    repeat split. now left.
  - destruct (Qeq_bool _ (-(1))) eqn:D; [discriminate|].
    destruct (checkSeasonMismatch _ _ _ _); [discriminate|]. intros _.
    repeat split. now right.
Qed.

(** The loop over the candidates keeps the first candidate of the highest
    score above the initial [maxScore]. *)
Lemma matchStep_fold (primaryAnime : Anime) :
  forall (l : list Anime) (b0 : option Anime) (m0 : Q) (b : option Anime) (m : Q),
    fold_left (matchStep primaryAnime) l (b0, m0) = (b, m) ->
    (forall c s, In c l -> candidateScore primaryAnime c = Some s -> s <= m)
    /\ m0 <= m
    /\ ((b = b0 /\ m = m0)
        \/ (exists l1 c l2, b = Some c /\ l = l1 ++ c :: l2
                            /\ candidateScore primaryAnime c = Some m /\ m0 < m
                            /\ forall c' s, In c' l1 ->
                                            candidateScore primaryAnime c' = Some s -> s < m)).
Proof.
  induction l as [|o rest IH]; intros b0 m0 b m H.
  - cbn in H. inversion H; subst. repeat split.
    + intros o s [].
    + apply Qle_refl.
    + now left.
  - cbn [fold_left] in H. rewrite matchStep_candidateScore in H. cbn [snd] in H.
    destruct (candidateScore primaryAnime o) as [s|] eqn:Es.
    + destruct (Qltb m0 s) eqn:El.
      * apply Qltb_lt in El. apply IH in H as (A & B & C). repeat split.
        -- intros o' s' [<- | Hin] Hs'; [|now apply (A o')].
           rewrite Es in Hs'. inversion Hs'; subst. exact B.
        -- apply Qlt_le_weak. now apply Qlt_le_trans with s.
        -- right. destruct C as [[-> ->] | (l1 & c & l2 & -> & -> & Sb & Lt & F)].
           ++ exists [], o, rest. repeat split; [exact Es|exact El|]. intros o' s' [].
           ++ exists (o :: l1), c, l2. repeat split; [exact Sb| |].
              ** now apply Qlt_trans with s.
              ** intros o' s' [<- | Hin] Hs'; [|now apply (F o')].
                 rewrite Es in Hs'. inversion Hs'; subst. exact Lt.
      * apply Qltb_ge in El. apply IH in H as (A & B & C). repeat split.
        -- intros o' s' [<- | Hin] Hs'; [|now apply (A o')].
           rewrite Es in Hs'. inversion Hs'; subst. now apply Qle_trans with m0.
        -- exact B.
        -- destruct C as [C | (l1 & c & l2 & -> & -> & Sb & Lt & F)]; [now left|right].
           exists (o :: l1), c, l2. repeat split; [exact Sb|exact Lt|].
           intros o' s' [<- | Hin] Hs'; [|now apply (F o')].
           rewrite Es in Hs'. inversion Hs'; subst. now apply Qle_lt_trans with m0.
    + apply IH in H as (A & B & C). repeat split.
      * intros o' s' [<- | Hin] Hs'; [congruence|now apply (A o')].
      * exact B.
      * destruct C as [C | (l1 & c & l2 & -> & -> & Sb & Lt & F)]; [now left|right].
        exists (o :: l1), c, l2. repeat split; [exact Sb|exact Lt|].
        intros o' s' [<- | Hin] Hs'; [congruence|now apply (F o')].
Qed.

(** What [findSecondaryMatch] returns, in terms of [candidateScore]. *)
Lemma findSecondaryMatch_cases (primaryAnime : Anime) (l : list Anime) :
  match findSecondaryMatch primaryAnime l with
  | Some c =>
    exists l1 l2 s,
      l = l1 ++ c :: l2 /\ candidateScore primaryAnime c = Some s /\ round64 (6 # 10) <= s
      /\ (forall c' s', In c' l -> candidateScore primaryAnime c' = Some s' -> s' <= s)
      /\ (forall c' s', In c' l1 -> candidateScore primaryAnime c' = Some s' -> s' < s)
  | None =>
    forall c' s', In c' l -> candidateScore primaryAnime c' = Some s' -> s' < round64 (6 # 10)
  end.
Proof.
  unfold findSecondaryMatch. destruct l as [|a r].
  - intros c' s' [].
  - destruct (fold_left (matchStep primaryAnime) (a :: r) (None, 0)) as [b m] eqn:F.
    apply matchStep_fold in F as (A & B & C).
    destruct (Qle_bool (round64 (6 # 10)) m) eqn:T.
    + apply Qle_bool_iff in T.
      destruct C as [[-> ->] | (l1 & c & l2 & -> & E & Sb & Lt & Fi)].
      * exfalso. revert T. apply Qlt_not_le. vm_compute. reflexivity.
      * exists l1, l2, m. repeat split; try assumption.
    + intros c' s' Hin Hs. apply Qle_lt_trans with m; [now apply (A c')|].
      apply Qnot_le_lt. intro L. apply Qle_bool_iff in L. congruence.
Qed.

(** X10. The entry [findSecondaryMatch] returns is one of the candidates
    given, and none of the vetoes of the loop holds of it: no media type
    mismatch, no season mismatch, and no hard date mismatch unless both
    titles carry the same season marker. Without candidates the result is
    [null]. *)
Theorem findSecondaryMatch_not_vetoed :
  forall (primaryAnime : Anime) (secondaryList : list Anime),
    match findSecondaryMatch primaryAnime secondaryList with
    | Some c =>
      In c secondaryList
      /\ checkMediaTypeMismatch (animeTitle primaryAnime) (animeTitle c)
                                (typeDescription primaryAnime) (typeDescription c)
                                (knownCount primaryAnime) (knownCount c) = false
      /\ checkSeasonMismatch (titleForSim (animeTitle primaryAnime))
                             (titleForSim (animeTitle c))
                             (typeDescription primaryAnime) (typeDescription c) = false
      /\ (hasSameSeasonMarker (titleForSim (animeTitle primaryAnime))
                              (titleForSim (animeTitle c))
                              (typeDescription primaryAnime) (typeDescription c) = true
          \/ Qeq_bool (checkDateMatch (parseDate (startDate primaryAnime))
                                      (parseDate (startDate c))) (-(1)) = false)
    | None => True
    end
    /\ findSecondaryMatch primaryAnime [] = None.
Proof.
  intros primaryAnime l. split; [|reflexivity].
  pose proof (findSecondaryMatch_cases primaryAnime l) as H.
  destruct (findSecondaryMatch primaryAnime l) as [c|]; [|exact I].
  destruct H as (l1 & l2 & s & -> & Sc & _).
  split; [apply in_or_app; right; now left|].
  now apply candidateScore_not_vetoed with s.
Qed.

(** ** The index kept by [filterEpisodes] *)

Lemma withIndex_In (l : list Link) :
  forall (i : nat) (item : LinkItem),
    In item (withIndex i l)
    <-> exists k, nth_error l k = Some (link item) /\ originalIndex item = (i + k)%nat.
Proof.
  induction l as [|x r IH]; intros i item; cbn [withIndex In].
  - split; [intros []|]. intros (k & H & _). destruct k; discriminate H.
  - rewrite IH. split.
    + intros [<- | (k & H & E)].
      * exists 0%nat. cbn. split; [reflexivity|lia].
      * exists (S k). cbn. split; [exact H|lia].
    + intros ([|k] & H & E).
      * left. cbn in H. destruct item as [lk ix]. cbn in *. inversion H; subst.
        f_equal. lia.
      * right. exists k. cbn in H. split; [exact H|lia].
Qed.

Lemma withIndex_links (l : list Link) : forall i : nat, map link (withIndex i l) = l.
Proof.
  induction l as [|x r IH]; intro i; cbn; [reflexivity|]. now rewrite IH.
Qed.

Lemma withIndex_sorted (p : LinkItem -> bool) (l : list Link) :
  forall i : nat,
    StronglySorted lt (map originalIndex (filter p (withIndex i l)))
    /\ Forall (fun k => (i <= k)%nat) (map originalIndex (filter p (withIndex i l))).
Proof.
  induction l as [|x r IH]; intro i; cbn [withIndex filter].
  - split; constructor.
  - destruct (IH (S i)) as [S1 F1].
    assert (F2 : Forall (fun k => (i <= k)%nat)
                        (map originalIndex (filter p (withIndex (S i) r)))).
    { eapply Forall_impl; [|exact F1]. cbn. intros; lia. }
    destruct (p (mkItem x i)); cbn [map].
    + split.
      * constructor; [exact S1|]. eapply Forall_impl; [|exact F1]. cbn. intros; lia.
      * constructor; [cbn; lia|exact F2].
    + now split.
Qed.

(** X12. [filterEpisodes] keeps, in their order, exactly the links whose
    title (or name) the filter does not match, each with the index it has
    in the list given: the indices are strictly increasing and
    [links[originalIndex]] is the link of the item. Without a filter every
    link is kept, and a missing list gives the empty list. *)
Theorem filterEpisodes_index :
  forall (l : list Link) (filterRegex : option (jsstring -> bool)),
    (forall item,
        In item (filterEpisodes (Some l) filterRegex)
        <-> nth_error l (originalIndex item) = Some (link item)
            /\ passesFilter filterRegex (link item) = true)
    /\ StronglySorted lt (map originalIndex (filterEpisodes (Some l) filterRegex))
    /\ map link (filterEpisodes (Some l) filterRegex) = filter (passesFilter filterRegex) l
    /\ map link (filterEpisodes (Some l) None) = l
    /\ filterEpisodes None filterRegex = [].
Proof.
  intros l f.
  assert (W : withIndex 0 l = filter (fun _ => true) (withIndex 0 l)).
  { generalize (withIndex 0 l). induction l0 as [|a r IH]; cbn; congruence. }
  assert (M : forall (q : Link -> bool) (i : nat),
             map link (filter (fun item => q (link item)) (withIndex i l)) = filter q l).
  { intro q. clear W. induction l as [|x r IH]; intro i; cbn; [reflexivity|].
    destruct (q x); cbn; [f_equal|]; apply IH. }
  split; [|split; [|split; [|split]]].
  - intro item. unfold filterEpisodes, passesFilter. destruct f as [test|].
    + rewrite filter_In, withIndex_In. split.
      * intros [(k & H & E) T]. cbn in E. subst k. now split.
      * intros [H T]. split; [|exact T]. exists (originalIndex item). now split.
    + rewrite withIndex_In. split.
      * intros (k & H & E). cbn in E. subst k. now split.
      * intros [H _]. exists (originalIndex item). now split.
  - unfold filterEpisodes. destruct f as [test|].
    + apply withIndex_sorted.
    + rewrite W. apply withIndex_sorted.
  - unfold filterEpisodes, passesFilter. destruct f as [test|].
    + apply (M (fun x => negb (test (titleOrName x)))).
    + rewrite withIndex_links. clear. induction l as [|a r IH]; cbn; congruence.
  - apply withIndex_links.
  - reflexivity.
Qed.

(** ** What the loops of [applyMergeLogic] keep true *)

Lemma findSecondaryMatch_In (primaryAnime : Anime) (l : list Anime) (c : Anime) :
  findSecondaryMatch primaryAnime l = Some c -> In c l.
Proof.
  intro H. pose proof (findSecondaryMatch_cases primaryAnime l) as C. rewrite H in C.
  destruct C as (l1 & l2 & s & -> & _). apply in_or_app. right. now left.
Qed.

Lemma idAdd_incl (s u : list JsId) (x : JsId) : incl s u -> In x u -> incl (idAdd s x) u.
Proof.
  intros I Hx y Hy. apply idAdd_In in Hy as [Hy | ->]; [now apply I|exact Hx].
Qed.

Lemma idAdd_mono (s u : list JsId) (x : JsId) : incl s u -> incl (idAdd s x) (idAdd u x).
Proof.
  intros I y Hy. apply idAdd_In. apply idAdd_In in Hy as [Hy | ->]; [left; now apply I|now right].
Qed.

Lemma NoDup_snoc {A : Type} (l : list A) (x : A) : NoDup l -> ~ In x l -> NoDup (l ++ [x]).
Proof.
  induction l as [|a r IH]; intros N Hx; cbn [app].
  - constructor; [intros []|constructor].
  - inversion N as [|a' r' Ha Nr]; subst. constructor.
    + intro H. apply in_app_iff in H as [H | [H | []]]; [now apply Ha|].
      subst. apply Hx. now left.
    + apply IH; [exact Nr|]. intro H. apply Hx. now right.
Qed.

Lemma mergeInto_idOk (epFilter : option (jsstring -> bool)) (fp src sec : jsstring)
      (derived matched : Anime) (cachedLinks : list Link) :
  mergedIdOk (fst (fst (fst (mergeInto epFilter fp src sec derived matched cachedLinks)))).
Proof.
  pose proof (mergeInto_ids epFilter fp src sec derived matched cachedLinks) as H.
  destruct (mergeInto _ _ _ _ _ _ _) as [[[d mc] tp] tm]. destruct H as [H1 H2]. cbn [fst].
  exists (generateSafeMergedId (animeId derived) (animeId matched) fp).
  split; [exact H1|split; [|exact H2]].
  unfold generateSafeMergedId.
  pose proof (Z.mod_pos_bound (Z.abs (hashString
    (idToString (animeId derived) ++ underscore ++ idToString (animeId matched)
       ++ underscore ++ fp))) 1000000000 ltac:(lia)). lia.
Qed.

Lemma trySecondary_runInvariant (cache curAnimes : list Anime)
      (epFilter : option (jsstring -> bool)) (fp src : jsstring) (pAnime : Anime)
      (st : MergeState) (run : PrimaryRun) (sec : jsstring) :
  runInvariant cache curAnimes st ->
  (hasMergedAny run = true -> mergedIdOk (derivedAnime run)) ->
  runInvariant cache curAnimes
    (fst (trySecondary curAnimes epFilter fp src pAnime (st, run) sec))
  /\ (hasMergedAny (snd (trySecondary curAnimes epFilter fp src pAnime (st, run) sec)) = true ->
      mergedIdOk (derivedAnime
                    (snd (trySecondary curAnimes epFilter fp src pAnime (st, run) sec)))).
Proof.
  intros I R. unfold trySecondary.
  destruct (filter _ curAnimes) as [|a0 l0] eqn:F; [split; [exact I|exact R]|]. rewrite <- F.
  destruct (findSecondaryMatch pAnime _) as [matched|] eqn:M; [|split; [exact I|exact R]].
  apply findSecondaryMatch_In in M. apply filter_In in M as [M _].
  destruct (findCached (animes st) (animeId matched)) as [cachedMatch|];
    [|split; [exact I|exact R]].
  destruct (links cachedMatch) as [cachedLinks|]; [|split; [exact I|exact R]].
  pose proof (mergeInto_idOk epFilter fp src sec (derivedAnime run) matched cachedLinks) as Ok.
  destruct (mergeInto _ _ _ _ _ _ _) as [[[derived mergedCount] totalP] totalM].
  unfold fst in Ok. destruct I as (N & L & D & G & Gr & An).
  destruct (_ && _).
  - split; [|intros _; exact Ok].
    split; [exact N|split; [exact L|split; [exact D|split; [|split; [|exact An]]]]].
    + apply idAdd_incl; [exact G|]. apply in_map. exact M.
    + apply idAdd_mono. exact Gr.
  - split; [|intros _; exact Ok].
    split; [exact N|split; [exact L|split; [exact D|split; [exact G|split; [exact Gr|exact An]]]]].
Qed.

Lemma fold_trySecondary_runInvariant (cache curAnimes : list Anime)
      (epFilter : option (jsstring -> bool)) (fp src : jsstring) (pAnime : Anime) :
  forall (secs : list jsstring) (st : MergeState) (run : PrimaryRun),
    runInvariant cache curAnimes st ->
    (hasMergedAny run = true -> mergedIdOk (derivedAnime run)) ->
    runInvariant cache curAnimes
      (fst (fold_left (trySecondary curAnimes epFilter fp src pAnime) secs (st, run)))
    /\ (hasMergedAny (snd (fold_left (trySecondary curAnimes epFilter fp src pAnime) secs
                                     (st, run))) = true ->
        mergedIdOk (derivedAnime
                      (snd (fold_left (trySecondary curAnimes epFilter fp src pAnime) secs
                                      (st, run))))).
Proof.
  induction secs as [|sec secs IH]; intros st run I R; [split; [exact I|exact R]|].
  change (fold_left (trySecondary curAnimes epFilter fp src pAnime) (sec :: secs) (st, run))
    with (fold_left (trySecondary curAnimes epFilter fp src pAnime) secs
                    (trySecondary curAnimes epFilter fp src pAnime (st, run) sec)).
  pose proof (trySecondary_runInvariant cache curAnimes epFilter fp src pAnime st run sec I R)
    as [I1 R1].
  destruct (trySecondary curAnimes epFilter fp src pAnime (st, run) sec) as [st1 run1].
  apply IH; [exact I1|exact R1].
Qed.

Lemma processPrimary_runInvariant (cache curAnimes : list Anime)
      (epFilter : option (jsstring -> bool)) (fp src : jsstring) (secs : list jsstring)
      (st : MergeState) (pAnime : Anime) :
  In pAnime curAnimes -> source pAnime = src ->
  runInvariant cache curAnimes st ->
  runInvariant cache curAnimes (processPrimary curAnimes epFilter fp src secs st pAnime).
Proof.
  intros Hin Hsrc I. unfold processPrimary.
  destruct (findCached (animes st) (animeId pAnime)) as [cachedPAnime|]; [|exact I].
  destruct (links cachedPAnime); [|exact I].
  assert (R0 : hasMergedAny (mkRun cachedPAnime [] [animeId pAnime] false) = true ->
               mergedIdOk (derivedAnime (mkRun cachedPAnime [] [animeId pAnime] false))).
  { unfold hasMergedAny. discriminate. }
  pose proof (fold_trySecondary_runInvariant cache curAnimes epFilter fp src pAnime secs st
                (mkRun cachedPAnime [] [animeId pAnime] false) I R0) as [I' R].
  destruct (fold_left _ secs _) as [st' run]. unfold fst in I'. unfold snd in R.
  destruct (hasMergedAny run); [|exact I'].
  destruct (existsb _ (generatedSignatures st')) eqn:E; [exact I'|].
  destruct I' as (N & L & D & G & Gr & An). specialize (R eq_refl).
  split; [|split; [|split; [|split; [|split]]]].
  - apply NoDup_snoc; [exact N|]. intro Hs.
    assert (existsb (jsstring_eqb
                       (join (js "|") (map idToString (contentSignatureParts run))))
                    (generatedSignatures st') = true).
    { apply existsb_exists. eexists. split; [exact Hs|apply jsstring_eqb_refl]. }
    congruence.
  - unfold newMergedAnimes at 1, generatedSignatures at 1.
    rewrite !length_app. cbn [List.length]. lia.
  - intros d Hd. unfold newMergedAnimes at 1 in Hd.
    apply in_app_iff in Hd as [Hd | [<- | []]]; [apply D; exact Hd|].
    split.
    + destruct R as (n & R1 & R2 & R3). exists n.
      split; [exact R1|split; [exact R2|exact R3]].
    + exists pAnime. split; [exact Hin|exact Hsrc].
  - apply idAdd_incl; [exact G|]. apply in_map. exact Hin.
  - apply idAdd_mono. exact Gr.
  - unfold animes at 1. unfold newMergedAnimes at 1.
    rewrite fold_left_app. cbn [fold_left]. rewrite An. reflexivity.
Qed.

Lemma applyMergeLogic_runInvariant (groups : list MergeGroup)
      (epFilter : option (jsstring -> bool)) (cache curAnimes : list Anime) :
  runInvariant cache curAnimes (finalState (applyMergeLogic groups epFilter cache curAnimes)).
Proof.
  assert (I0 : runInvariant cache curAnimes (mkState cache [] [] [] [] [])).
  { unfold runInvariant.
    cbn [generatedSignatures newMergedAnimes globalConsumedIds groupConsumedIds animes].
    split; [constructor|split; [reflexivity|split; [intros d []|]]].
    split; [intros x []|split; [intros x []|reflexivity]]. }
  assert (P : forall fp src secs items st,
             (forall p, In p items -> In p curAnimes /\ source p = src) ->
             runInvariant cache curAnimes st ->
             runInvariant cache curAnimes
               (fold_left (processPrimary curAnimes epFilter fp src secs) items st)).
  { intros fp src secs. induction items as [|p items IH]; intros st Hp I; [exact I|].
    cbn [fold_left]. apply IH; [intros q Hq; apply Hp; now right|].
    destruct (Hp p (or_introl eq_refl)) as [H1 H2].
    apply processPrimary_runInvariant; assumption. }
  assert (R : forall fp chain st,
             runInvariant cache curAnimes st ->
             runInvariant cache curAnimes (rotate curAnimes epFilter fp chain st)).
  { intro fp. induction chain as [|src secs IH]; intros st I; [exact I|].
    cbn [rotate]. destruct secs as [|s secs']; [exact I|].
    apply IH. unfold rotationStep.
    destruct (filter _ curAnimes) as [|a0 l0] eqn:F; [exact I|]. rewrite <- F.
    apply P; [|exact I]. intros p Hp.
    apply filter_In in Hp as [Hp _]. apply filter_In in Hp as [Hp E].
    apply jsstring_eqb_eq in E. split; [exact Hp|exact E]. }
  assert (G : forall gs st,
             runInvariant cache curAnimes st ->
             runInvariant cache curAnimes (fold_left (processGroup curAnimes epFilter) gs st)).
  { induction gs as [|g gs IH]; intros st I; [exact I|].
    cbn [fold_left]. apply IH. unfold processGroup. apply R.
    destruct I as (N & L & D & Gl & Gr & An). unfold runInvariant.
    cbn [generatedSignatures newMergedAnimes globalConsumedIds groupConsumedIds animes].
    split; [exact N|split; [exact L|split; [exact D|split; [exact Gl|split; [|exact An]]]]].
    intros x []. }
  unfold applyMergeLogic. destruct groups as [|g gs]; [exact I0|].
  cbn [finalState]. now apply G.
Qed.

(** X13. Every merged entry [applyMergeLogic] creates has a numeric
    [animeId] of the range [[1_000_000_000, 2_147_483_647]], its decimal
    print as [bangumiId], and the source of an entry of the list given. *)
Theorem applyMergeLogic_merged_ids :
  forall (groups : list MergeGroup) (epFilter : option (jsstring -> bool))
         (cache curAnimes : list Anime),
    Forall (fun d => mergedIdOk d /\ exists a, In a curAnimes /\ source a = source d)
           (newMergedAnimes (finalState (applyMergeLogic groups epFilter cache curAnimes))).
Proof.
  intros groups epFilter cache curAnimes. apply Forall_forall.
  exact (proj1 (proj2 (proj2 (applyMergeLogic_runInvariant groups epFilter cache curAnimes)))).
Qed.

(** X14. The content signatures [applyMergeLogic] registers are pairwise
    distinct, and it registers one for every merged entry it creates: an
    entry whose signature is registered already is not created again. *)
Theorem applyMergeLogic_signatures_distinct :
  forall (groups : list MergeGroup) (epFilter : option (jsstring -> bool))
         (cache curAnimes : list Anime),
    NoDup (generatedSignatures (finalState (applyMergeLogic groups epFilter cache curAnimes)))
    /\ List.length (newMergedAnimes
                      (finalState (applyMergeLogic groups epFilter cache curAnimes)))
       = List.length (generatedSignatures
                        (finalState (applyMergeLogic groups epFilter cache curAnimes))).
Proof.
  intros groups epFilter cache curAnimes.
  destruct (applyMergeLogic_runInvariant groups epFilter cache curAnimes) as (N & L & _).
  split; [exact N|exact L].
Qed.

(** X15. [applyMergeLogic] consumes only ids of entries of the list given,
    and what a group consumed is consumed globally. *)
Theorem applyMergeLogic_consumes_known_ids :
  forall (groups : list MergeGroup) (epFilter : option (jsstring -> bool))
         (cache curAnimes : list Anime),
    incl (globalConsumedIds (finalState (applyMergeLogic groups epFilter cache curAnimes)))
         (map animeId curAnimes)
    /\ incl (groupConsumedIds (finalState (applyMergeLogic groups epFilter cache curAnimes)))
            (globalConsumedIds (finalState (applyMergeLogic groups epFilter cache curAnimes))).
Proof.
  intros groups epFilter cache curAnimes.
  destruct (applyMergeLogic_runInvariant groups epFilter cache curAnimes)
    as (_ & _ & _ & G & Gr & _).
  split; [exact G|exact Gr].
Qed.

(** X16. The only thing [applyMergeLogic] does to the cache
    [globals.animes] is [addAnime] of the merged entries, in the order of
    their creation; without configured groups the list and the cache stay as
    they are. *)
Theorem applyMergeLogic_cache :
  forall (groups : list MergeGroup) (epFilter : option (jsstring -> bool))
         (cache curAnimes : list Anime),
    animes (finalState (applyMergeLogic groups epFilter cache curAnimes))
    = fold_left (fun c d => addAnime d c)
                (newMergedAnimes (finalState (applyMergeLogic groups epFilter cache curAnimes)))
                cache
    /\ applyMergeLogic [] epFilter cache curAnimes
       = mkResult curAnimes (mkState cache [] [] [] [] []).
Proof.
  intros groups epFilter cache curAnimes.
  destruct (applyMergeLogic_runInvariant groups epFilter cache curAnimes)
    as (_ & _ & _ & _ & _ & An).
  split; [exact An|reflexivity].
Qed.

(** ** The link loop of a merge attempt *)

Lemma setNth_length {A : Type} (x : A) (l : list A) :
  forall i : nat, List.length (setNth i x l) = List.length l.
Proof.
  induction l as [|y r IH]; intros [|i]; cbn; try reflexivity. now rewrite IH.
Qed.

Lemma nth_error_setNth_same {A : Type} (x : A) (l : list A) :
  forall (i : nat) (y : A), nth_error l i = Some y -> nth_error (setNth i x l) i = Some x.
Proof.
  induction l as [|z r IH]; intros [|i] y H; cbn in *; try discriminate; [reflexivity|].
  now apply IH with y.
Qed.

Lemma nth_error_setNth_other {A : Type} (x : A) (l : list A) :
  forall i j : nat, i <> j -> nth_error (setNth i x l) j = nth_error l j.
Proof.
  induction l as [|z r IH]; intros [|i] [|j] H; cbn; try reflexivity; [congruence|].
  apply IH. congruence.
Qed.

Lemma changedUrls_setNth (x t : Link) :
  jsstring_eqb (url t) (url x) = false ->
  forall (l0 l : list Link) (i : nat),
    nth_error l0 i = Some t -> nth_error l i = Some t ->
    changedUrls l0 (setNth i x l) = (changedUrls l0 l + 1)%Z.
Proof.
  intro Hx. unfold changedUrls.
  induction l0 as [|a0 r0 IH]; intros l i H0 H; [destruct i; discriminate H0|].
  destruct l as [|a r]; [destruct i; discriminate H|].
  destruct i as [|i]; cbn [nth_error] in H0, H.
  - inversion H0; inversion H; subst. cbn [setNth combine filter fst snd].
    rewrite Hx, jsstring_eqb_refl. cbn [negb List.length]. lia.
  - cbn [setNth combine filter fst snd].
    specialize (IH r i H0 H).
    destruct (negb (jsstring_eqb (url a0) (url a))); cbn [List.length]; lia.
Qed.

Lemma url_fuseLink (src sec : jsstring) (t s : Link) :
  exists prefix, url (fuseLink src sec t s)
                 = prefix ++ url t ++ MERGE_DELIMITER ++ sec ++ js ":" ++ sanitizeUrl (url s).
Proof.
  unfold fuseLink. cbv zeta.
  set (u := if negb (includes (url t) MERGE_DELIMITER)
            then if negb (startsWith (url t) (src ++ js ":"))
                 then src ++ js ":" ++ url t else url t
            else url t).
  assert (U : exists prefix, u = prefix ++ url t).
  { subst u. destruct (negb (includes _ _)); [|now exists []].
    destruct (negb (startsWith _ _)); [|now exists []].
    exists (src ++ js ":"). now rewrite <- app_assoc. }
  destruct U as [prefix U]. exists prefix.
  destruct (truthy (title (setUrl t _))); unfold setTitle, setUrl, url;
    rewrite U, <- !app_assoc; reflexivity.
Qed.

Lemma fuseLink_changes_url (src sec : jsstring) (t s : Link) :
  jsstring_eqb (url t) (url (fuseLink src sec t s)) = false.
Proof.
  destruct (jsstring_eqb (url t) (url (fuseLink src sec t s))) eqn:E; [|reflexivity].
  apply jsstring_eqb_eq in E. destruct (url_fuseLink src sec t s) as [prefix U].
  rewrite U in E. apply (f_equal (@List.length N)) in E.
  rewrite !length_app in E.
  assert (D : List.length MERGE_DELIMITER = 3%nat) by (vm_compute; reflexivity).
  rewrite D in E. lia.
Qed.

Lemma forIndexed_mergeLinkStep (src sec : jsstring) (offset : Z) (all : list LinkItem)
      (l0 : list Link) :
  forall (items done : list LinkItem) (l : list Link) (mc : Z),
    all = done ++ items ->
    List.length l = List.length l0 ->
    (forall i, (Z.of_nat (List.length done) + offset <= Z.of_nat i)%Z ->
               nth_error l i = nth_error l0 i) ->
    (forall i, fusedAt src sec offset all l0 l i) ->
    mc = changedUrls l0 l ->
    exists l' mc',
      forIndexed (mergeLinkStep src sec offset) (Z.of_nat (List.length done)) items (l, mc)
      = (l', mc')
      /\ List.length l' = List.length l0
      /\ (forall i, fusedAt src sec offset all l0 l' i)
      /\ mc' = changedUrls l0 l'
      /\ (mc <= mc' <= mc + Z.of_nat (List.length items))%Z.
Proof.
  induction items as [|x r IH]; intros done l mc Hall Hlen Hun Hf Hmc.
  - exists l, mc. cbn [forIndexed List.length]. repeat split; try assumption; lia.
  - cbn [forIndexed].
    assert (Hall' : all = (done ++ [x]) ++ r) by (now rewrite <- app_assoc).
    assert (Hk : (Z.of_nat (List.length done) + 1)%Z = Z.of_nat (List.length (done ++ [x]))).
    { rewrite length_app. cbn [List.length]. lia. }
    assert (Keep : exists l' mc',
               forIndexed (mergeLinkStep src sec offset) (Z.of_nat (List.length done) + 1) r
                          (l, mc) = (l', mc')
               /\ List.length l' = List.length l0
               /\ (forall i, fusedAt src sec offset all l0 l' i)
               /\ mc' = changedUrls l0 l'
               /\ (mc <= mc' <= mc + Z.of_nat (List.length (x :: r)))%Z).
    { rewrite Hk.
      destruct (IH (done ++ [x]) l mc Hall' Hlen) as (l' & mc' & E & A & B & C & D);
        try assumption.
      - intros i Hi. apply Hun. lia.
      - exists l', mc'. cbn [List.length]. repeat split; try assumption; lia. }
    unfold mergeLinkStep at 2.
    set (pIndex := (Z.of_nat (List.length done) + offset)%Z).
    destruct ((0 <=? pIndex)%Z && (pIndex <? Z.of_nat (List.length l))%Z) eqn:R; [|exact Keep].
    apply andb_true_iff in R as [R1 R2]. apply Z.leb_le in R1. apply Z.ltb_lt in R2.
    destruct (nth_error l (Z.to_nat pIndex)) as [t|] eqn:Ht; [|exact Keep].
    destruct (optSpecial_eqb (getSpecialEpisodeType (title t))
                             (getSpecialEpisodeType (title (link x)))) eqn:Sp;
      cbn [negb]; [|exact Keep].
    assert (Ht0 : nth_error l0 (Z.to_nat pIndex) = Some t).
    { rewrite <- Hun; [exact Ht|]. subst pIndex. lia. }
    rewrite Hk.
    destruct (IH (done ++ [x])
                 (setNth (Z.to_nat pIndex) (fuseLink src sec t (link x)) l) (mc + 1)%Z Hall')
      as (l' & mc' & E & A & B & C & D).
    + now rewrite setNth_length.
    + intros i Hi. rewrite nth_error_setNth_other; [apply Hun; lia|].
      rewrite <- Hk in Hi. subst pIndex. lia.
    + intro i. destruct (Nat.eq_dec i (Z.to_nat pIndex)) as [-> | Ne].
      * right. exists t, (List.length done), x. repeat split.
        -- exact Ht0.
        -- rewrite Hall. apply nth_error_middle.
        -- subst pIndex. lia.
        -- exact Sp.
        -- now apply nth_error_setNth_same with t.
      * destruct (Hf i) as [Same | (t' & k & item & F1 & F2 & F3 & F4 & F5)].
        -- left. rewrite nth_error_setNth_other; [exact Same|congruence].
        -- right. exists t', k, item. repeat split; try assumption.
           rewrite nth_error_setNth_other; [exact F5|congruence].
    + rewrite (changedUrls_setNth (fuseLink src sec t (link x)) t);
        [now rewrite Hmc|apply fuseLink_changes_url|exact Ht0|exact Ht].
    + exists l', mc'. cbn [List.length]. repeat split; try assumption; lia.
Qed.

(** X17. A merge attempt on a derived entry with links [l0] leaves the
    title, source, date, type and episode count of the entry as they are and
    the number of its links unchanged. Each link is either untouched or
    fused with the link of one filtered item [k] of the matched entry, the
    one with [i = k + offset], whose special episode type is that of the
    link; [mergedCount] is the number of links whose url changed, at most
    the number of filtered links of the matched entry. *)
Theorem mergeInto_fuses_aligned_links :
  forall (epFilter : option (jsstring -> bool)) (fp src sec : jsstring)
         (derived matched : Anime) (cachedLinks l0 : list Link),
    links derived = Some l0 ->
    let filteredM := filterEpisodes (Some cachedLinks) epFilter in
    let offset :=
      findBestAlignmentOffset calculateSimilarity64 (filterEpisodes (Some l0) epFilter)
                              filteredM in
    let '(derived', mergedCount, totalP, totalM) :=
      mergeInto epFilter fp src sec derived matched cachedLinks in
    (animeTitle derived', source derived', startDate derived', typeDescription derived',
     episodeCount derived', _isMerged derived')
    = (animeTitle derived, source derived, startDate derived, typeDescription derived,
       episodeCount derived, _isMerged derived)
    /\ totalP = Z.of_nat (List.length (filterEpisodes (Some l0) epFilter))
    /\ totalM = Z.of_nat (List.length filteredM)
    /\ exists l',
        links derived' = Some l'
        /\ List.length l' = List.length l0
        /\ (forall i, fusedAt src sec offset filteredM l0 l' i)
        /\ mergedCount = changedUrls l0 l'
        /\ (0 <= mergedCount <= totalM)%Z.
Proof.
  intros epFilter fp src sec derived matched cachedLinks l0 H filteredM offset.
  unfold mergeInto. cbv zeta.
  change (links (setIds derived
                   (IdNum (generateSafeMergedId (animeId derived) (animeId matched) fp))
                   (decimalZ (generateSafeMergedId (animeId derived) (animeId matched) fp))))
    with (links derived).
  rewrite H. fold filteredM. fold offset.
  assert (C0 : 0%Z = changedUrls l0 l0).
  { unfold changedUrls. clear. induction l0 as [|a r IH]; [reflexivity|].
    cbn [combine filter fst snd]. rewrite jsstring_eqb_refl. exact IH. }
  destruct (forIndexed_mergeLinkStep src sec offset filteredM l0 filteredM [] l0 0%Z
              eq_refl eq_refl (fun i _ => eq_refl) (fun i => or_introl eq_refl) C0)
    as (l' & mc' & E & A & B & C & D).
  change (Z.of_nat (List.length (@nil LinkItem))) with 0%Z in E. rewrite E.
  split; [reflexivity|split; [reflexivity|split; [reflexivity|]]].
  exists l'. split; [reflexivity|split; [exact A|split; [exact B|split; [exact C|lia]]]].
Qed.

(** ** The normal form [cleanText] returns *)

Lemma matchAt_class (p : N -> bool) (s : jsstring) (pos : N) :
  matchAt (re (RSet p)) s pos =
  match s with
  | c :: r => if p c then Some (MState r (pos + 1) []) else None
  | [] => None
  end.
Proof. destruct s; reflexivity. Qed.

(** Replacing the units of a class by a fixed text. *)
Lemma replaceAllFrom_class (p : N -> bool) (t : jsstring) (fuel : nat) :
  forall (before s : jsstring) (pos : N),
    (List.length s < fuel)%nat ->
    replaceAllFrom fuel (re (RSet p)) (fun _ => t) before s pos
    = flat_map (fun c => if p c then t else [c]) s.
Proof.
  induction fuel as [|fuel IH]; intros before s pos Hlen; [lia|].
  cbn [replaceAllFrom]. rewrite matchAt_class.
  destruct s as [|c r]; [reflexivity|].
  cbn [List.length] in Hlen.
  destruct (p c) eqn:E; cbn [flat_map]; rewrite E; cbn [m_rest].
  - replace (List.length (c :: r) - List.length r)%nat with 1%nat by (cbn [List.length]; lia).
    cbn [Nat.eqb]. f_equal. apply IH. lia.
  - cbn [app]. f_equal. apply IH. lia.
Qed.

Lemma punctList :
  js "!！?？,，.。、~～:：-–—"
  = [33; 65281; 63; 65311; 44; 65292; 46; 12290; 12289; 126; 65374; 58; 65306; 45; 8211;
     8212]%N.
Proof. vm_compute. reflexivity. Qed.

Lemma isStrippedPunct_letter (x : N) : (97 <= x <= 122)%N -> isStrippedPunct x = false.
Proof.
  intro Hx. unfold isStrippedPunct. rewrite punctList. cbn [existsb].
  repeat match goal with
         | |- context [(x =? ?b)%N] =>
           replace (x =? b)%N with false by (symmetry; apply N.eqb_neq; lia)
         end.
  reflexivity.
Qed.

Lemma isStrippedPunct_lowerUnit (c : N) :
  isStrippedPunct c = false -> isStrippedPunct (lowerUnit c) = false.
Proof.
  intro H. unfold lowerUnit. destruct (isUpperAscii c) eqn:E; [|exact H].
  unfold isUpperAscii in E. apply andb_prop in E as [E1 E2]. apply N.leb_le in E1, E2.
  apply isStrippedPunct_letter. lia.
Qed.

Lemma isStrippedPunct_blank : isStrippedPunct 32 = false.
Proof. unfold isStrippedPunct. rewrite punctList. reflexivity. Qed.

Lemma blank_js : js " " = [32%N].
Proof. vm_compute. reflexivity. Qed.

Lemma rePunct_class : rePunct = re (RSet isStrippedPunct).
Proof. unfold rePunct, oneOf, ROneOf, isStrippedPunct. reflexivity. Qed.

Lemma replaceAll_rePunct_Forall (z : jsstring) :
  Forall (fun c => isStrippedPunct c = false) (replaceAll rePunct (fun _ => js " ") z).
Proof.
  rewrite rePunct_class. unfold replaceAll.
  rewrite replaceAllFrom_class by lia.
  induction z as [|c r IH]; [constructor|]. cbn [flat_map].
  destruct (isStrippedPunct c) eqn:E.
  - rewrite blank_js at 1. cbn [app]. constructor; [apply isStrippedPunct_blank|exact IH].
  - cbn [app]. constructor; assumption.
Qed.

Lemma Forall_dropWhile (P : N -> Prop) (p : N -> bool) (s : jsstring) :
  Forall P s -> Forall P (dropWhile p s).
Proof.
  induction 1 as [|c r Hc Hr IH]; cbn [dropWhile]; [constructor|].
  destruct (p c); [exact IH|now constructor].
Qed.

Lemma Forall_dropEndWhile (P : N -> Prop) (p : N -> bool) (s : jsstring) :
  Forall P s -> Forall P (dropEndWhile p s).
Proof.
  induction 1 as [|c r Hc Hr IH]; cbn [dropEndWhile]; [constructor|].
  destruct (dropEndWhile p r).
  - destruct (p c); [constructor|now constructor].
  - now constructor.
Qed.

Lemma replaceAllFrom_reSpaces_Forall (P : N -> Prop) :
  P 32%N ->
  forall (fuel : nat) (before s : jsstring) (pos : N),
    Forall P s -> Forall P (replaceAllFrom fuel reSpaces (fun _ => js " ") before s pos).
Proof.
  intros P32. induction fuel as [|fuel IH]; intros before s pos F; [exact F|].
  pose proof (replaceAllFrom_reSpaces_step fuel before s pos) as R.
  destruct s as [|c r]; [rewrite R; constructor|].
  inversion F as [|c' r' Hc Hr]; subst.
  destruct (isSpace c).
  - destruct R as (before' & pos' & ->). constructor; [exact P32|].
    apply IH. now apply Forall_dropWhile.
  - rewrite R. constructor; [exact Hc|]. now apply IH.
Qed.

Lemma dropEndWhile_length (p : N -> bool) (s : jsstring) :
  (List.length (dropEndWhile p s) <= List.length s)%nat.
Proof.
  induction s as [|c r IH]; cbn [dropEndWhile List.length]; [lia|].
  destruct (dropEndWhile p r); [destruct (p c)|]; cbn [List.length] in *; lia.
Qed.

Lemma dropEndWhile_snoc (p : N -> bool) (c : N) (s : jsstring) :
  dropEndWhile p (s ++ [c]) = if p c then dropEndWhile p s else s ++ [c].
Proof.
  induction s as [|d r IH]; cbn [app dropEndWhile]; [now destruct (p c)|].
  rewrite IH. destruct (p c); [reflexivity|].
  destruct (r ++ [c]) eqn:E; [|reflexivity]. now destruct r.
Qed.

Lemma lastSpace_dropEndWhile (s : jsstring) : lastSpace (dropEndWhile isSpace s) = false.
Proof.
  pose proof (dropEndWhile_idem isSpace s) as I. unfold lastSpace.
  destruct (rev (dropEndWhile isSpace s)) as [|c r] eqn:R; [reflexivity|].
  cbn [headSpace]. destruct (isSpace c) eqn:E; [|reflexivity]. exfalso.
  assert (T : dropEndWhile isSpace s = rev r ++ [c]).
  { rewrite <- (rev_involutive (dropEndWhile isSpace s)), R. reflexivity. }
  rewrite T in I. rewrite dropEndWhile_snoc, E in I.
  pose proof (dropEndWhile_length isSpace (rev r)) as L. rewrite I in L.
  rewrite length_app in L. cbn [List.length] in L. lia.
Qed.

Lemma squeeze_no_punct (z : jsstring) :
  Forall (fun c => isStrippedPunct c = false) z ->
  Forall (fun c => isStrippedPunct c = false) (squeeze z).
Proof.
  intro P. unfold squeeze, trim.
  apply Forall_dropEndWhile, Forall_dropWhile. unfold toLowerCase.
  apply Forall_map. unfold replaceAll.
  eapply Forall_impl; [|apply (replaceAllFrom_reSpaces_Forall
                                 (fun c => isStrippedPunct c = false)
                                 isStrippedPunct_blank); exact P].
  intros c Hc. now apply isStrippedPunct_lowerUnit.
Qed.

Lemma cleanText_no_punct (x : jsstring) :
  Forall (fun c => isStrippedPunct c = false) (cleanText x).
Proof.
  rewrite (cleanText_eq x). destruct (isEmpty x); [constructor|].
  apply squeeze_no_punct. unfold cleanRules. cbv zeta. apply replaceAll_rePunct_Forall.
Qed.

(** X18. The string [cleanText] returns is in normal form: every
    whitespace unit in it is a single U+0020 between two other units (none
    at either end, no two in a row), it has no upper-case Basic Latin letter
    and none of the punctuation marks the function strips, and lower-casing
    or trimming it again changes nothing. The empty string gives the empty
    string. *)
Theorem cleanText_normal_form :
  forall x : jsstring,
    collapsed (cleanText x) = true
    /\ headSpace (cleanText x) = false
    /\ lastSpace (cleanText x) = false
    /\ Forall (fun c => isUpperAscii c = false /\ isStrippedPunct c = false) (cleanText x)
    /\ toLowerCase (cleanText x) = cleanText x
    /\ trim (cleanText x) = cleanText x
    /\ cleanText [] = [].
Proof.
  intro x. rewrite (cleanText_eq x).
  destruct (isEmpty x).
  { split; [reflexivity|split; [reflexivity|split; [reflexivity|]]].
    split; [constructor|split; [reflexivity|split; reflexivity]]. }
  assert (P : Forall (fun c => isStrippedPunct c = false) (cleanRules x)).
  { unfold cleanRules. cbv zeta. apply replaceAll_rePunct_Forall. }
  generalize dependent (cleanRules x). intros z P.
  assert (H : headSpace (squeeze z) = false).
  { unfold squeeze, trim. apply headSpace_dropEndWhile, dropWhile_headSpace. }
  assert (L : toLowerCase (squeeze z) = squeeze z).
  { unfold squeeze, trim.
    now rewrite toLowerCase_dropEndWhile, toLowerCase_dropWhile, toLowerCase_idem. }
  split; [|split; [exact H|split; [|split; [|split; [exact L|split]]]]].
  - unfold squeeze, trim. apply collapsed_dropEndWhile, collapsed_dropWhile,
      collapsed_toLowerCase. unfold replaceAll. apply replaceAllFrom_reSpaces_collapsed. lia.
  - unfold squeeze, trim. apply lastSpace_dropEndWhile.
  - apply Forall_forall. intros c Hc. split.
    + rewrite <- L in Hc. now apply toLowerCase_no_upper with (squeeze z).
    + revert c Hc. apply Forall_forall. now apply squeeze_no_punct.
  - apply trim_fixed; [exact H|]. unfold squeeze, trim. apply dropEndWhile_idem.
  - reflexivity.
Qed.

(** ** The matcher reads its input only *)

Lemma isFactor_refl (s : jsstring) : isFactor s s.
Proof. exists [], []. now rewrite app_nil_r. Qed.

Lemma isFactor_nil (s : jsstring) : isFactor [] s.
Proof. exists [], s. reflexivity. Qed.

Lemma isFactor_trans (x y z : jsstring) : isFactor x y -> isFactor y z -> isFactor x z.
Proof.
  intros (a & b & ->) (c & d & ->). exists (c ++ a), (b ++ d).
  now rewrite <- !app_assoc.
Qed.

Lemma isFactor_cons (x s : jsstring) (c : N) : isFactor x s -> isFactor x (c :: s).
Proof. intros (a & b & ->). now exists (c :: a), b. Qed.

Lemma starLoop_good (s0 : jsstring)
      (body : mstate -> (mstate -> option mstate) -> option mstate) :
  (forall st k res,
      (forall st' res', goodState s0 st' -> k st' = Some res' -> goodState s0 res') ->
      goodState s0 st -> body st k = Some res -> goodState s0 res) ->
  forall (fuel : nat) (greedy : bool) (k : mstate -> option mstate) (st res : mstate),
    (forall st' res', goodState s0 st' -> k st' = Some res' -> goodState s0 res') ->
    goodState s0 st -> starLoop body greedy k fuel st = Some res -> goodState s0 res.
Proof.
  intros Hb. induction fuel as [|fuel IH]; intros greedy k st res Hk G H.
  - cbn [starLoop] in H. now apply (Hk st).
  - cbn [starLoop] in H.
    assert (A : forall r,
               body st (fun st1 =>
                          if (List.length (m_rest st1) <? List.length (m_rest st))%nat
                          then starLoop body greedy k fuel st1 else None) = Some r ->
               goodState s0 r).
    { intros r Hr. apply (Hb st _ r) in Hr; [exact Hr| |exact G].
      intros st' res' G' H'.
      destruct (List.length (m_rest st') <? List.length (m_rest st))%nat; [|discriminate].
      now apply (IH greedy k st'). }
    destruct greedy; unfold orTry in H.
    + destruct (body st _) as [r|] eqn:E.
      * inversion H; subst. now apply A.
      * now apply (Hk st).
    + destruct (k st) as [r|] eqn:E.
      * inversion H; subst. now apply (Hk st).
      * now apply A.
Qed.

(** A match records as captures only factors of the input, and leaves a
    suffix of it to read. *)
Lemma rmatch_good (s0 : jsstring) (ic : bool) (r : regex) :
  forall (st : mstate) (k : mstate -> option mstate) (res : mstate),
    (forall st' res', goodState s0 st' -> k st' = Some res' -> goodState s0 res') ->
    goodState s0 st -> rmatch ic r st k = Some res -> goodState s0 res.
Proof.
  assert (Step : forall st x rest,
             goodState s0 st -> m_rest st = x :: rest ->
             goodState s0 (MState rest (m_pos st + 1) (m_caps st))).
  { intros st x rest [[a Ha] Hc] E. split; [|exact Hc].
    exists (a ++ [x]). cbn [m_rest]. rewrite <- app_assoc. cbn [app]. now rewrite <- E. }
  induction r as [c|p|a IHa b IHb|a IHa b IHb|greedy a IHa|n a IHa| | |];
    intros st k res Hk G H; cbn [rmatch] in H.
  - destruct (m_rest st) as [|x rest] eqn:E; [discriminate|].
    destruct (unitMatches ic x c); [|discriminate].
    apply (Hk _ _ (Step st x rest G E) H).
  - destruct (m_rest st) as [|x rest] eqn:E; [discriminate|].
    destruct (p x); [|discriminate].
    apply (Hk _ _ (Step st x rest G E) H).
  - apply (IHa st _ res) in H; [exact H| |exact G].
    intros st' res' G' H'. now apply (IHb st' k res').
  - unfold orTry in H. destruct (rmatch ic a st k) as [r|] eqn:E.
    + inversion H; subst. now apply (IHa st k res).
    + now apply (IHb st k res).
  - apply (starLoop_good s0 (rmatch ic a)) in H; [exact H| |exact Hk|exact G].
    intros st1 k1 res1 Hk1 G1 H1. now apply (IHa st1 k1 res1).
  - apply (IHa st _ res) in H; [exact H| |exact G].
    intros st' res' G' H'. refine (Hk _ _ _ H').
    destruct G' as [Ga Gc]. split; [exact Ga|]. cbn [m_caps]. constructor; [|exact Gc].
    cbn [snd]. destruct G as [[a0 Ha0] _]. exists a0.
    eexists. rewrite Ha0 at 1. f_equal. symmetry. apply firstn_skipn.
  - now apply (Hk st).
  - destruct (m_pos st =? 0)%N; [|discriminate]. now apply (Hk st).
  - destruct (isEmpty (m_rest st)); [|discriminate]. now apply (Hk st).
Qed.

Lemma matchAt_caps (p : pattern) (s : jsstring) (pos : N) (st : mstate) :
  matchAt p s pos = Some st -> Forall (fun c => isFactor (snd c) s) (m_caps st).
Proof.
  unfold matchAt. intro H.
  apply (rmatch_good s) in H; [exact (proj2 H)| |].
  - intros st' res' G' E. now inversion E; subst.
  - split; [now exists []|constructor].
Qed.

Lemma searchFrom_caps (p : pattern) :
  forall (s before : jsstring) (pos : N) (m : matchInfo),
    searchFrom p before s pos = Some m ->
    Forall (fun c => isFactor (snd c) s) (mi_caps m).
Proof.
  induction s as [|c r IH]; intros before pos m H; cbn [searchFrom] in H.
  - destruct (matchAt p [] pos) as [st|] eqn:E; [|discriminate].
    inversion H; subst. cbn [mi_caps]. exact (matchAt_caps p _ pos st E).
  - destruct (matchAt p (c :: r) pos) as [st|] eqn:E.
    + inversion H; subst. cbn [mi_caps]. exact (matchAt_caps p _ pos st E).
    + apply IH in H. eapply Forall_impl; [|exact H].
      intros x Hx. now apply isFactor_cons.
Qed.

Lemma capText_factor (p : pattern) (s : jsstring) (m : matchInfo) (n : nat) :
  reExec p s = Some m -> isFactor (capText n m) s.
Proof.
  unfold reExec. intro H. apply searchFrom_caps in H.
  unfold capText, cap. induction (mi_caps m) as [|[k t] caps IH]; cbn [lookupCap].
  - apply isFactor_nil.
  - inversion H as [|x l Hx Hl]; subst. destruct (k =? n)%nat; [exact Hx|now apply IH].
Qed.

(** The iterations of a star add no empty capture for the group [n] when
    the operand adds none. *)
Lemma starLoop_inv (n : nat) (a : regex)
      (body : mstate -> (mstate -> option mstate) -> option mstate) :
  (forall st k res,
      body st k = Some res ->
      exists st' new,
        k st' = Some res
        /\ (List.length (m_rest st') <= List.length (m_rest st))%nat
        /\ m_caps st' = new ++ m_caps st
        /\ (groupReads n a = true -> forall t, In (n, t) new -> t <> [])) ->
  forall (fuel : nat) (greedy : bool) (k : mstate -> option mstate) (st res : mstate),
    starLoop body greedy k fuel st = Some res ->
    exists st' new,
      k st' = Some res
      /\ (List.length (m_rest st') <= List.length (m_rest st))%nat
      /\ m_caps st' = new ++ m_caps st
      /\ (groupReads n a = true -> forall t, In (n, t) new -> t <> []).
Proof.
  intro Hb.
  assert (Hz : forall (k : mstate -> option mstate) (st res : mstate), k st = Some res ->
                 exists st' new,
                   k st' = Some res
                   /\ (List.length (m_rest st') <= List.length (m_rest st))%nat
                   /\ m_caps st' = new ++ m_caps st
                   /\ (groupReads n a = true -> forall t, In (n, t) new -> t <> [])).
  { intros k st res H. exists st, []. split; [exact H|]. split; [lia|].
    split; [reflexivity|]. intros _ t []. }
  induction fuel as [|fuel IH]; intros greedy k st res H; cbn [starLoop] in H.
  - now apply Hz.
  - assert (A : forall r : mstate,
               body st (fun st1 =>
                          if (List.length (m_rest st1) <? List.length (m_rest st))%nat
                          then starLoop body greedy k fuel st1 else None) = Some r ->
               exists st' new,
                 k st' = Some r
                 /\ (List.length (m_rest st') <= List.length (m_rest st))%nat
                 /\ m_caps st' = new ++ m_caps st
                 /\ (groupReads n a = true -> forall t, In (n, t) new -> t <> [])).
    { intros r Hr. apply Hb in Hr as (st1 & new1 & K1 & L1 & C1 & N1).
      destruct (List.length (m_rest st1) <? List.length (m_rest st))%nat; [|discriminate].
      apply IH in K1 as (st' & new2 & K2 & L2 & C2 & N2).
      exists st', (new2 ++ new1). split; [exact K2|]. split; [lia|].
      split; [rewrite C2, C1; apply app_assoc|].
      intros G t Ht. apply in_app_iff in Ht as [Ht | Ht]; [now apply N2|now apply N1]. }
    destruct greedy; unfold orTry in H.
    + destruct (body st _) as [r|] eqn:E.
      * inversion H; subst. now apply A.
      * now apply Hz.
    + destruct (k st) as [r|] eqn:E.
      * inversion H; subst. now apply Hz.
      * now apply A.
Qed.

(** A successful match went through its continuation, in a state reached by
    reading input and adding captures. *)
Lemma rmatch_inv (n : nat) (ic : bool) (r : regex) :
  forall (st : mstate) (k : mstate -> option mstate) (res : mstate),
    rmatch ic r st k = Some res ->
    exists st' new,
      k st' = Some res
      /\ (List.length (m_rest st') + (if consumes r then 1 else 0)
          <= List.length (m_rest st))%nat
      /\ m_caps st' = new ++ m_caps st
      /\ capsNew n r new.
Proof.
  induction r as [c|p|a IHa b IHb|a IHa b IHb|greedy a IHa|m a IHa| | |];
    intros st k res H; cbn [rmatch] in H.
  - destruct (m_rest st) as [|x rest] eqn:E; [discriminate|].
    destruct (unitMatches ic x c); [|discriminate].
    exists (MState rest (m_pos st + 1) (m_caps st)), []. split; [exact H|].
    cbn [m_rest m_caps consumes List.length app]. split; [lia|]. split; [reflexivity|].
    split; [discriminate|intros _ t []].
  - destruct (m_rest st) as [|x rest] eqn:E; [discriminate|].
    destruct (p x); [|discriminate].
    exists (MState rest (m_pos st + 1) (m_caps st)), []. split; [exact H|].
    cbn [m_rest m_caps consumes List.length app]. split; [lia|]. split; [reflexivity|].
    split; [discriminate|intros _ t []].
  - apply IHa in H as (st1 & new1 & K1 & L1 & C1 & R1 & G1).
    apply IHb in K1 as (st' & new2 & K2 & L2 & C2 & R2 & G2).
    exists st', (new2 ++ new1). split; [exact K2|]. cbn [consumes records groupReads].
    split; [destruct (consumes a), (consumes b); cbn [orb]; lia|].
    split; [rewrite C2, C1; apply app_assoc|]. split.
    + intro R. apply orb_prop in R as [R | R].
      * destruct (R1 R) as [t Ht]. exists t. apply in_or_app. now right.
      * destruct (R2 R) as [t Ht]. exists t. apply in_or_app. now left.
    + intros G t Ht. apply andb_prop in G as [Ga Gb].
      apply in_app_iff in Ht as [Ht | Ht]; [now apply (G2 Gb)|now apply (G1 Ga)].
  - unfold orTry in H. destruct (rmatch ic a st k) as [r|] eqn:E.
    + inversion H; subst. apply IHa in E as (st' & new & K & L & C & R1 & G1).
      exists st', new. split; [exact K|]. cbn [consumes records groupReads].
      split; [destruct (consumes a), (consumes b); cbn [andb]; lia|].
      split; [exact C|]. split.
      * intro R. apply andb_prop in R as [R _]. now apply R1.
      * intro G. apply andb_prop in G as [G _]. now apply G1.
    + apply IHb in H as (st' & new & K & L & C & R1 & G1).
      exists st', new. split; [exact K|]. cbn [consumes records groupReads].
      split; [destruct (consumes a), (consumes b); cbn [andb]; lia|].
      split; [exact C|]. split.
      * intro R. apply andb_prop in R as [_ R]. now apply R1.
      * intro G. apply andb_prop in G as [_ G]. now apply G1.
  - apply (starLoop_inv n a (rmatch ic a)) in H as (st' & new & K & L & C & G).
    + exists st', new. split; [exact K|]. cbn [consumes records groupReads].
      split; [lia|]. split; [exact C|]. split; [discriminate|exact G].
    + intros st1 k1 res1 H1. apply IHa in H1 as (st' & new & K & L & C & _ & G).
      exists st', new. split; [exact K|]. split; [destruct (consumes a); lia|].
      split; [exact C|exact G].
  - apply IHa in H as (st1 & new1 & K1 & L1 & C1 & R1 & G1).
    exists (MState (m_rest st1) (m_pos st1)
                   ((m, firstn (List.length (m_rest st) - List.length (m_rest st1))
                               (m_rest st)) :: m_caps st1)),
           ((m, firstn (List.length (m_rest st) - List.length (m_rest st1)) (m_rest st))
              :: new1).
    split; [exact K1|]. cbn [m_rest m_caps consumes records groupReads].
    split; [exact L1|]. split; [rewrite C1; reflexivity|]. split.
    + intro R. cbn [records] in R. destruct (Nat.eqb_spec m n) as [-> | Ne].
      * eexists. left. reflexivity.
      * cbn [orb] in R. destruct (R1 R) as [t Ht]. exists t. now right.
    + intros G t Ht. cbn [groupReads] in G. apply andb_prop in G as [Gm Ga].
      destruct Ht as [Ht | Ht]; [|now apply (G1 Ga)].
      inversion Ht; subst. rewrite Nat.eqb_refl in Gm. cbn [negb orb] in Gm.
      rewrite Gm in L1. destruct (m_rest st) as [|x rest]; [cbn in L1; lia|].
      cbn [List.length] in *.
      destruct (S (List.length rest) - List.length (m_rest st1))%nat eqn:D; [lia|].
      discriminate.
  - exists st, []. split; [exact H|]. cbn [consumes]. split; [lia|]. split; [reflexivity|].
    split; [discriminate|intros _ t []].
  - destruct (m_pos st =? 0)%N; [|discriminate].
    exists st, []. split; [exact H|]. cbn [consumes]. split; [lia|]. split; [reflexivity|].
    split; [discriminate|intros _ t []].
  - destruct (isEmpty (m_rest st)); [|discriminate].
    exists st, []. split; [exact H|]. cbn [consumes]. split; [lia|]. split; [reflexivity|].
    split; [discriminate|intros _ t []].
Qed.

(** A group that every match records around an expression that reads a
    unit captures a non-empty text. *)
Lemma capText_nonempty (p : pattern) (s : jsstring) (m : matchInfo) (n : nat) :
  records n (p_re p) = true -> groupReads n (p_re p) = true ->
  reExec p s = Some m -> capText n m <> [].
Proof.
  intros R G H.
  assert (C : capsNew n (p_re p) (mi_caps m)).
  { unfold reExec in H. revert H. generalize (@nil N) as before. generalize 0%N as pos.
    induction s as [|c r IH]; intros pos before H; cbn [searchFrom] in H.
    - destruct (matchAt p [] pos) as [st|] eqn:E; [|discriminate].
      inversion H; subst. cbn [mi_caps]. unfold matchAt in E.
      apply (rmatch_inv n) in E as (st' & new & K & _ & C & N).
      inversion K; subst. cbn [m_caps] in C. rewrite app_nil_r in C. now rewrite C.
    - destruct (matchAt p (c :: r) pos) as [st|] eqn:E.
      + inversion H; subst. cbn [mi_caps]. unfold matchAt in E.
        apply (rmatch_inv n) in E as (st' & new & K & _ & C & N).
        inversion K; subst. cbn [m_caps] in C. rewrite app_nil_r in C. now rewrite C.
      + now apply IH in H. }
  destruct C as [C1 C2]. destruct (C1 R) as [t Ht]. specialize (C2 G). clear C1.
  unfold capText, cap. induction (mi_caps m) as [|[k u] caps IH]; [destruct Ht|].
  cbn [lookupCap]. destruct (Nat.eqb_spec k n) as [-> | Ne].
  - cbn [orEmpty]. apply C2. now left.
  - apply IH.
    + intros t' Ht'. apply C2. now right.
    + destruct Ht as [Ht | Ht]; [inversion Ht; congruence|exact Ht].
Qed.

(** ** SimilarityEngine: the scores in Number arithmetic *)

Lemma calculateDiceSimilarity64_sym (s1 s2 : jsstring) :
  calculateDiceSimilarity64 s1 s2 = calculateDiceSimilarity64 s2 s1.
Proof.
  unfold calculateDiceSimilarity64.
  rewrite (orb_comm (isEmpty s2)).
  destruct (isEmpty s1 || isEmpty s2); [reflexivity|].
  rewrite (intersection_sym _ _ (newSet_NoDup (replaceAll reSpace (fun _ => []) s2))
                            (newSet_NoDup (replaceAll reSpace (fun _ => []) s1))).
  set (set1 := newSet (replaceAll reSpace (fun _ => []) s1)).
  set (set2 := newSet (replaceAll reSpace (fun _ => []) s2)).
  rewrite (andb_comm (Z.of_nat (List.length set2) =? 0)%Z).
  rewrite (orb_comm (Z.of_nat (List.length set2) =? 0)%Z).
  now rewrite (Z.add_comm (Z.of_nat (List.length set2))).
Qed.

(** X26. The score [calculateSimilarity] computes in Number arithmetic, each
    operation rounding to binary64, is symmetric as well; it is [1] for a
    non-empty string and itself and [0] as soon as a string is empty. *)
Theorem calculateSimilarity64_symmetric :
  (forall a b : jsstring, calculateSimilarity64 a b = calculateSimilarity64 b a)
  /\ (forall a : jsstring, a <> [] -> calculateSimilarity64 a a = 1)
  /\ (forall a : jsstring,
         calculateSimilarity64 a [] = 0 /\ calculateSimilarity64 [] a = 0).
Proof.
  split; [|split].
  - intros a b. unfold calculateSimilarity64.
    rewrite (orb_comm (isEmpty b)).
    destruct (isEmpty a || isEmpty b); [reflexivity|].
    rewrite (jsstring_eqb_sym (cleanText b)).
    destruct (jsstring_eqb (cleanText a) (cleanText b)); [reflexivity|].
    rewrite (orb_comm (includes (cleanText b) (cleanText a))).
    rewrite (Z.min_comm (Zlen (cleanText b))), (Z.max_comm (Zlen (cleanText b))).
    destruct (includes (cleanText a) (cleanText b) || includes (cleanText b) (cleanText a));
      [reflexivity|].
    now rewrite (editDistance_sym (cleanText b)), (calculateDiceSimilarity64_sym (cleanText b)).
  - intros a Ha. unfold calculateSimilarity64.
    destruct a; [congruence|]. cbn [isEmpty orb].
    now rewrite jsstring_eqb_refl.
  - intro a. unfold calculateSimilarity64. cbn [isEmpty].
    rewrite orb_true_r. split; reflexivity.
Qed.

(** ** TextNormalizer: a second pass of [cleanText] *)















(** ** [includes], [startsWith] and [split] *)

Lemma startsWith_iff (s p : jsstring) : startsWith s p = true <-> exists b, s = p ++ b.
Proof.
  revert s. induction p as [|c p IH]; intro s.
  - split; [intros _; now exists s|intros _; destruct s; reflexivity].
  - destruct s as [|d s]; cbn [startsWith];
      [split; [discriminate|intros [b Hb]; discriminate Hb]|].
    rewrite andb_true_iff, N.eqb_eq, IH. split.
    + intros [-> [b ->]]. now exists b.
    + intros [b Hb]. inversion Hb; subst. split; [reflexivity|now exists b].
Qed.

Lemma includes_iff (s d : jsstring) : includes s d = true <-> isFactor d s.
Proof.
  induction s as [|c s IH]; cbn [includes]; rewrite orb_true_iff, startsWith_iff.
  - split.
    + intros [[b Hb] | H]; [|discriminate]. exists [], b. exact Hb.
    + intros (a & b & H). left. destruct a; [|discriminate]. now exists b.
  - rewrite IH. split.
    + intros [[b Hb] | (a & b & ->)]; [exists [], b; exact Hb|now exists (c :: a), b].
    + intros ([|x a] & b & H).
      * left. now exists b.
      * right. inversion H; subst. now exists a, b.
Qed.

Lemma includes_factor_false (x s d : jsstring) :
  isFactor x s -> includes s d = false -> includes x d = false.
Proof.
  intros F H. destruct (includes x d) eqn:E; [|reflexivity].
  apply includes_iff in E. assert (T : includes s d = true).
  { apply includes_iff. now apply isFactor_trans with x. }
  congruence.
Qed.

Lemma splitHead_prefix (s d : jsstring) : exists rest, s = splitHead s d ++ rest.
Proof.
  induction s as [|c r IH]; cbn [splitHead]; [now exists []|].
  destruct (startsWith (c :: r) d); [now exists (c :: r)|].
  destruct IH as [rest IH]. exists rest. cbn [app]. now rewrite <- IH.
Qed.

Lemma splitHead_no_delim (s d : jsstring) : d <> [] -> includes (splitHead s d) d = false.
Proof.
  intro Hd. induction s as [|c r IH]; cbn [splitHead].
  - destruct d; [congruence|reflexivity].
  - destruct (startsWith (c :: r) d) eqn:E; [destruct d; [congruence|reflexivity]|].
    change (includes (c :: splitHead r d) d)
      with (startsWith (c :: splitHead r d) d || includes (splitHead r d) d).
    rewrite IH, orb_false_r.
    destruct (startsWith (c :: splitHead r d) d) eqn:E'; [|reflexivity].
    apply startsWith_iff in E' as [b Hb].
    destruct (splitHead_prefix r d) as [rest Hr].
    assert (T : startsWith (c :: r) d = true).
    { apply startsWith_iff. exists (b ++ rest). rewrite app_assoc, <- Hb.
      cbn [app]. now rewrite <- Hr. }
    congruence.
Qed.

Lemma dropWhile_suffix (p : N -> bool) (s : jsstring) : exists a, s = a ++ dropWhile p s.
Proof.
  induction s as [|c r IH]; cbn [dropWhile]; [now exists []|].
  destruct (p c); [|now exists []]. destruct IH as [a IH]. exists (c :: a).
  cbn [app]. now rewrite <- IH.
Qed.

Lemma dropEndWhile_prefix (p : N -> bool) (s : jsstring) :
  exists b, s = dropEndWhile p s ++ b.
Proof.
  induction s as [|c r IH]; cbn [dropEndWhile]; [now exists []|].
  destruct IH as [b IH]. destruct (dropEndWhile p r) as [|d r'] eqn:D.
  - destruct (p c); [now exists (c :: r)|]. exists b. cbn [app] in *. now rewrite <- IH.
  - exists b. cbn [app] in *. now rewrite <- IH.
Qed.

Lemma trim_factor (s : jsstring) : isFactor (trim s) s.
Proof.
  unfold trim. destruct (dropWhile_suffix isSpace s) as [a Ha].
  destruct (dropEndWhile_prefix isSpace (dropWhile isSpace s)) as [b Hb].
  exists a, b. now rewrite <- Hb.
Qed.

Lemma https_js : js "https:" = [104; 116; 116; 112; 115; 58]%N.
Proof. vm_compute. reflexivity. Qed.

Lemma delimiter_js : MERGE_DELIMITER = [36; 36; 36]%N.
Proof. vm_compute. reflexivity. Qed.

Lemma https_no_delimiter (x : jsstring) :
  includes x MERGE_DELIMITER = false -> includes (js "https:" ++ x) MERGE_DELIMITER = false.
Proof.
  rewrite https_js, delimiter_js. intro H. cbn [app includes startsWith N.eqb Pos.eqb andb orb].
  exact H.
Qed.

(** X19. [sanitizeUrl] never returns a string that contains the merge
    delimiter, and it invents nothing but the scheme [https:]: its result
    is a factor of its argument, or [https:] followed by one. The empty
    string gives the empty string. *)
Theorem sanitizeUrl_no_delimiter :
  forall urlStr : jsstring,
    includes (sanitizeUrl urlStr) MERGE_DELIMITER = false
    /\ (isFactor (sanitizeUrl urlStr) urlStr
        \/ exists x, sanitizeUrl urlStr = js "https:" ++ x /\ isFactor x urlStr)
    /\ sanitizeUrl [] = [].
Proof.
  intro u.
  assert (D : MERGE_DELIMITER <> []) by (rewrite delimiter_js; discriminate).
  split; [|split; [|reflexivity]]; unfold sanitizeUrl; cbv zeta.
  - destruct (isEmpty u); [rewrite delimiter_js; reflexivity|].
    assert (C : includes (trim (splitHead u MERGE_DELIMITER)) MERGE_DELIMITER = false).
    { apply includes_factor_false with (splitHead u MERGE_DELIMITER);
        [apply trim_factor|now apply splitHead_no_delim]. }
    generalize dependent (trim (splitHead u MERGE_DELIMITER)). intros clean C.
    destruct (startsWith clean (js "//")); [now apply https_no_delimiter|].
    destruct (reExec reSourceId clean) as [m|] eqn:M; [|exact C].
    assert (B : includes (capText 2 m) MERGE_DELIMITER = false).
    { apply includes_factor_false with clean; [|exact C].
      now apply capText_factor with reSourceId. }
    destruct (_ || _); [exact C|].
    destruct (reTest reHttpScheme (capText 2 m)); [exact B|].
    destruct (startsWith (capText 2 m) (js "//")); [now apply https_no_delimiter|exact B].
  - destruct (isEmpty u); [left; apply isFactor_nil|].
    assert (C : isFactor (trim (splitHead u MERGE_DELIMITER)) u).
    { apply isFactor_trans with (splitHead u MERGE_DELIMITER); [apply trim_factor|].
      destruct (splitHead_prefix u MERGE_DELIMITER) as [rest Hr]. now exists [], rest. }
    generalize dependent (trim (splitHead u MERGE_DELIMITER)). intros clean C.
    destruct (startsWith clean (js "//")); [right; now exists clean|].
    destruct (reExec reSourceId clean) as [m|] eqn:M; [|now left].
    assert (B : isFactor (capText 2 m) u).
    { apply isFactor_trans with clean; [|exact C]. now apply capText_factor with reSourceId. }
    destruct (_ || _); [now left|].
    destruct (reTest reHttpScheme (capText 2 m)); [now left|].
    destruct (startsWith (capText 2 m) (js "//")); [right; now exists (capText 2 m)|now left].
Qed.

(** ** What a fusion does to a link *)

Lemma url_fuseLink_eq (src sec : jsstring) (t s : Link) :
  url (fuseLink src sec t s)
  = (if negb (includes (url t) MERGE_DELIMITER)
     then if negb (startsWith (url t) (src ++ js ":"))
          then src ++ js ":" ++ url t else url t
     else url t) ++ MERGE_DELIMITER ++ sec ++ js ":" ++ sanitizeUrl (url s).
Proof.
  unfold fuseLink. cbv zeta.
  destruct (truthy (title (setUrl t _))); unfold setTitle, setUrl, url; reflexivity.
Qed.

(** X20. A fusion appends [$$$source:id] to the url of the link, the id
    being the sanitized url of the secondary link, after prefixing the url
    with the primary source when it is neither prefixed nor merged yet. The
    result contains the delimiter, so a further fusion only appends; the
    name of the link is kept, and so is a missing or empty title. *)
Theorem fuseLink_appends :
  forall (src sec : jsstring) (t s : Link),
    let idPart := MERGE_DELIMITER ++ sec ++ js ":" ++ sanitizeUrl (url s) in
    name (fuseLink src sec t s) = name t
    /\ (url (fuseLink src sec t s) = url t ++ idPart
        \/ url (fuseLink src sec t s) = src ++ js ":" ++ url t ++ idPart)
    /\ (includes (url t) MERGE_DELIMITER || startsWith (url t) (src ++ js ":") = true ->
        url (fuseLink src sec t s) = url t ++ idPart)
    /\ includes (url (fuseLink src sec t s)) MERGE_DELIMITER = true
    /\ (forall (sec2 : jsstring) (s2 : Link),
           url (fuseLink src sec2 (fuseLink src sec t s) s2)
           = url (fuseLink src sec t s)
                 ++ MERGE_DELIMITER ++ sec2 ++ js ":" ++ sanitizeUrl (url s2))
    /\ (truthy (title t) = false -> title (fuseLink src sec t s) = title t).
Proof.
  intros src sec t s idPart.
  assert (I : includes (url (fuseLink src sec t s)) MERGE_DELIMITER = true).
  { apply includes_iff. destruct (url_fuseLink src sec t s) as [prefix ->].
    exists (prefix ++ url t), (sec ++ js ":" ++ sanitizeUrl (url s)).
    now rewrite <- !app_assoc. }
  split; [|split; [|split; [|split; [exact I|split]]]].
  - unfold fuseLink. cbv zeta.
    destruct (truthy (title (setUrl t _))); unfold setTitle, setUrl, name; reflexivity.
  - rewrite url_fuseLink_eq. fold idPart.
    destruct (negb (includes _ _)); [|now left].
    destruct (negb (startsWith _ _)); [right; now rewrite <- !app_assoc|now left].
  - intro H. rewrite url_fuseLink_eq. fold idPart.
    destruct (includes (url t) MERGE_DELIMITER); cbn [negb]; [reflexivity|].
    cbn [orb] in H. rewrite H. reflexivity.
  - intros sec2 s2. rewrite (url_fuseLink_eq src sec2 (fuseLink src sec t s) s2).
    rewrite I. reflexivity.
  - intro H. unfold fuseLink. cbv zeta.
    destruct (truthy (title (setUrl t _))) eqn:E.
    + unfold setUrl, title in E. unfold title in H. rewrite H in E. discriminate E.
    + unfold setUrl, title. reflexivity.
Qed.

(** ** The pairs an offset compares *)

Lemma pairStep_matchCount (similarity : jsstring -> jsstring -> Q)
      (primaryLinks : list LinkItem) (seasonShift : option JsNumber)
      (offset : Z) (acc : OffsetAcc) (i : Z) (sItem : LinkItem) :
  matchCount (pairStep similarity primaryLinks seasonShift offset acc i sItem)
  = if (0 <=? i + offset)%Z && (i + offset <? Z.of_nat (List.length primaryLinks))%Z
    then (matchCount acc + 1)%Z else matchCount acc.
Proof.
  unfold pairStep. cbv zeta.
  destruct ((0 <=? i + offset)%Z && (i + offset <? Z.of_nat (List.length primaryLinks))%Z)
           eqn:R; [|reflexivity].
  destruct (nth_error primaryLinks (Z.to_nat (i + offset))) eqn:E; [reflexivity|].
  apply nth_error_None in E. apply andb_prop in R as [R1 R2].
  apply Z.leb_le in R1. apply Z.ltb_lt in R2. lia.
Qed.

(** The number of pairs in range: the indices [i + k] of [secondaryLinks]
    with [0 <= i + k + offset < primaryLinks.length]. *)
Lemma forIndexed_pairStep_matchCount (similarity : jsstring -> jsstring -> Q)
      (primaryLinks : list LinkItem) (seasonShift : option JsNumber) (offset : Z) :
  forall (secondaryLinks : list LinkItem) (i : Z) (acc : OffsetAcc),
    matchCount (forIndexed (pairStep similarity primaryLinks seasonShift offset) i
                           secondaryLinks acc)
    = (matchCount acc
       + Z.max 0 (Z.min (i + Z.of_nat (List.length secondaryLinks))
                        (Z.of_nat (List.length primaryLinks) - offset)
                  - Z.max i (- offset)))%Z.
Proof.
  induction secondaryLinks as [|x r IH]; intros i acc.
  - cbn [forIndexed List.length]. lia.
  - cbn [forIndexed]. rewrite IH, pairStep_matchCount.
    replace (Z.of_nat (List.length (x :: r))) with (1 + Z.of_nat (List.length r))%Z
      by (cbn [List.length]; lia).
    destruct ((0 <=? i + offset)%Z && (i + offset <? Z.of_nat (List.length primaryLinks))%Z)
             eqn:R.
    + apply andb_prop in R as [R1 R2]. apply Z.leb_le in R1. apply Z.ltb_lt in R2. lia.
    + apply andb_false_iff in R as [R | R]; [apply Z.leb_gt in R|apply Z.ltb_ge in R]; lia.
Qed.

Lemma offsetScore_None_iff (similarity : jsstring -> jsstring -> Q)
      (primaryLinks secondaryLinks : list LinkItem)
      (seasonShift : option JsNumber) (offset : Z) :
  offsetScore similarity primaryLinks secondaryLinks seasonShift offset = None
  <-> (Z.min (Z.of_nat (List.length secondaryLinks))
             (Z.of_nat (List.length primaryLinks) - offset) <= Z.max 0 (- offset))%Z.
Proof.
  unfold offsetScore. cbv zeta.
  rewrite forIndexed_pairStep_matchCount.
  change (matchCount (mkOffsetAcc 0 0 0%Z [])) with 0%Z.
  destruct (0 <? _)%Z eqn:E.
  - apply Z.ltb_lt in E. split; [discriminate|]. lia.
  - apply Z.ltb_ge in E. split; [|reflexivity]. lia.
Qed.

(** X21. An offset has a score exactly when it puts at least one link of
    [secondaryLinks] on a link of [primaryLinks]; hence, unless a list is
    empty, the offset [findBestAlignmentOffset] returns lies strictly
    between [-secondaryLinks.length] and [primaryLinks.length]. *)
Theorem offsetScore_defined_iff_overlap :
  forall (similarity : jsstring -> jsstring -> Q)
         (primaryLinks secondaryLinks : list LinkItem)
         (seasonShift : option JsNumber) (offset : Z),
    (offsetScore similarity primaryLinks secondaryLinks seasonShift offset <> None
     <-> exists k : Z,
        (0 <= k < Z.of_nat (List.length secondaryLinks))%Z
        /\ (0 <= k + offset < Z.of_nat (List.length primaryLinks))%Z)
    /\ ((primaryLinks = [] \/ secondaryLinks = [])
        \/ (- Z.of_nat (List.length secondaryLinks)
            < findBestAlignmentOffset similarity primaryLinks secondaryLinks
            < Z.of_nat (List.length primaryLinks))%Z).
Proof.
  intros similarity primaryLinks secondaryLinks seasonShift offset. split.
  - rewrite offsetScore_None_iff. split.
    + intro H. exists (Z.max 0 (- offset)). lia.
    + intros [k Hk]. lia.
  - unfold findBestAlignmentOffset.
    destruct ((List.length primaryLinks =? 0)%nat || (List.length secondaryLinks =? 0)%nat)
             eqn:E.
    + left. apply orb_prop in E as [E | E]; apply Nat.eqb_eq in E.
      * left. now destruct primaryLinks.
      * right. now destruct secondaryLinks.
    + right. apply orb_false_iff in E as [E1 E2]. apply Nat.eqb_neq in E1, E2. cbv zeta.
      destruct (fold_left _ (offsetRange _) (0%Z, - (999))) as [bestOffset maxScore] eqn:F.
      apply selectOffset_fold in F as (_ & _ & C).
      destruct (Qltb (round64 (3 # 10)) maxScore); [|lia].
      destruct C as [[-> _] | (l1 & l2 & _ & Sb & _)]; [lia|].
      assert (N : offsetScore similarity primaryLinks secondaryLinks
                              (seasonShiftOf primaryLinks secondaryLinks) bestOffset <> None)
        by congruence.
      rewrite offsetScore_None_iff in N. lia.
Qed.

(** ** The merged comment list *)

Lemma insertByTime_perm (x : option Danmaku) (l : list (option Danmaku)) :
  Permutation (x :: l) (insertByTime x l).
Proof.
  induction l as [|y r IH]; cbn [insertByTime]; [apply Permutation_refl|].
  destruct (Qle_bool (getTime x) (getTime y)); [apply Permutation_refl|].
  apply Permutation_trans with (y :: x :: r); [apply perm_swap|now apply perm_skip].
Qed.

Lemma insertByTime_sorted (x : option Danmaku) (l : list (option Danmaku)) :
  StronglySorted (fun a b => getTime a <= getTime b) l ->
  StronglySorted (fun a b => getTime a <= getTime b) (insertByTime x l).
Proof.
  induction 1 as [|y r Sr IH Fy]; cbn [insertByTime].
  - constructor; constructor.
  - destruct (Qle_bool (getTime x) (getTime y)) eqn:E.
    + apply Qle_bool_iff in E. constructor; [now constructor|].
      constructor; [exact E|]. eapply Forall_impl; [|exact Fy].
      intros a Ha. now apply Qle_trans with (getTime y).
    + assert (L : getTime y <= getTime x).
      { apply Qlt_le_weak, Qnot_le_lt. intro H. apply Qle_bool_iff in H. congruence. }
      constructor; [exact IH|].
      apply (Permutation_Forall (insertByTime_perm x r)). now constructor.
Qed.

Lemma insertByTime_filter (q : Q) (x : option Danmaku) (l : list (option Danmaku)) :
  filter (fun d => Qeq_bool (getTime d) q) (insertByTime x l)
  = filter (fun d => Qeq_bool (getTime d) q) (x :: l).
Proof.
  induction l as [|y r IH]; cbn [insertByTime]; [reflexivity|].
  destruct (Qle_bool (getTime x) (getTime y)) eqn:E; [reflexivity|].
  cbn [filter] in *. rewrite IH.
  destruct (Qeq_bool (getTime y) q) eqn:Ey; [|reflexivity].
  destruct (Qeq_bool (getTime x) q) eqn:Ex; [|reflexivity].
  exfalso. apply Qeq_bool_iff in Ex, Ey.
  assert (H : Qle_bool (getTime x) (getTime y) = true).
  { apply Qle_bool_iff. rewrite Ex, Ey. apply Qle_refl. }
  congruence.
Qed.

(** X22. [mergeDanmakuList] returns the comments of both lists (a missing
    list counting as empty), each as often as it was given, in ascending
    order of their time, and comments of the same time in the order in
    which they were given, those of [listA] first. *)
Theorem mergeDanmakuList_sorted_stable :
  forall listA listB : option (list (option Danmaku)),
    let given := match listA with Some l => l | None => [] end
                 ++ match listB with Some l => l | None => [] end in
    Permutation given (mergeDanmakuList listA listB)
    /\ StronglySorted (fun a b => getTime a <= getTime b) (mergeDanmakuList listA listB)
    /\ (forall q : Q,
           filter (fun d => Qeq_bool (getTime d) q) (mergeDanmakuList listA listB)
           = filter (fun d => Qeq_bool (getTime d) q) given)
    /\ mergeDanmakuList None None = [].
Proof.
  intros listA listB given. unfold mergeDanmakuList. cbv zeta. fold given.
  split; [|split; [|split; [|reflexivity]]].
  - unfold sortByTime. induction given as [|x r IH]; cbn [fold_right]; [constructor|].
    apply Permutation_trans with (x :: fold_right insertByTime [] r);
      [now apply perm_skip|apply insertByTime_perm].
  - unfold sortByTime. induction given as [|x r IH]; cbn [fold_right]; [constructor|].
    now apply insertByTime_sorted.
  - intro q. unfold sortByTime. induction given as [|x r IH]; cbn [fold_right]; [reflexivity|].
    rewrite insertByTime_filter. cbn [filter]. now rewrite IH.
Qed.

(** ** The markers of [extractSeasonMarkers] *)

Lemma markerAdd_vocabulary (s : list jsstring) (m : jsstring) :
  markerVocabulary m ->
  NoDup s /\ Forall markerVocabulary s ->
  NoDup (markerAdd s m) /\ Forall markerVocabulary (markerAdd s m).
Proof.
  intros Hm [N F]. unfold markerAdd. destruct (markerHas m s) eqn:E; [now split|].
  split.
  - apply NoDup_snoc; [exact N|]. intro H. apply markerHas_In in H. congruence.
  - apply Forall_app. split; [exact F|]. constructor; [exact Hm|constructor].
Qed.

Lemma applyMarkerRule_vocabulary (t : jsstring) (s : list jsstring) (rule : markerRule) :
  ruleInVocabulary rule ->
  NoDup s /\ Forall markerVocabulary s ->
  NoDup (applyMarkerRule t s rule) /\ Forall markerVocabulary (applyMarkerRule t s rule).
Proof.
  intros R I. destruct rule as [p prefix | p val]; cbn [applyMarkerRule ruleInVocabulary] in *.
  - destruct (reExec p t) as [m|] eqn:E; [|exact I].
    destruct R as (R1 & R2 & R).
    apply markerAdd_vocabulary; [|exact I]. right.
    exists (parseDigits (capText 1 m)). unfold parseIntDigits.
    pose proof (capText_nonempty p t m 1 R1 R2 E) as Ne.
    destruct (capText 1 m) as [|c r]; [congruence|]. cbn [isEmpty].
    destruct R as [-> | ->]; [now left|now right].
  - destruct (reExec p t) as [m|]; [|exact I].
    apply markerAdd_vocabulary; [|exact I]. left. exact R.
Qed.

Lemma seasonPatterns_vocabulary : Forall ruleInVocabulary seasonPatterns.
Proof.
  unfold seasonPatterns.
  constructor; [split; [vm_compute; reflexivity|split; [vm_compute|left]; reflexivity]|].
  constructor; [split; [vm_compute; reflexivity|split; [vm_compute|left]; reflexivity]|].
  constructor; [split; [vm_compute; reflexivity|split; [vm_compute|left]; reflexivity]|].
  constructor; [split; [vm_compute; reflexivity|split; [vm_compute|right]; reflexivity]|].
  constructor; [left; reflexivity|].
  constructor; [right; left; reflexivity|].
  constructor; [right; right; left; reflexivity|].
  constructor; [right; right; right; reflexivity|].
  constructor; [split; [vm_compute; reflexivity|split; [vm_compute|left]; reflexivity]|constructor].
Qed.

Lemma seasonCnNums_vocabulary :
  Forall (fun kv : jsstring * N => markerVocabulary (js "S" ++ decimalN (snd kv)))
         seasonCnNums.
Proof.
  unfold seasonCnNums.
  constructor; [right; exists 1%N; left; vm_compute; reflexivity|].
  constructor; [right; exists 2%N; left; vm_compute; reflexivity|].
  constructor; [right; exists 3%N; left; vm_compute; reflexivity|].
  constructor; [right; exists 4%N; left; vm_compute; reflexivity|].
  constructor; [right; exists 5%N; left; vm_compute; reflexivity|].
  constructor; [right; exists 99%N; left; vm_compute; reflexivity|constructor].
Qed.

(** X23. The set [extractSeasonMarkers] returns has no marker twice, and
    each of its markers is [OVA], [MOVIE], [SEQUEL], [SP], or [S] or [P]
    followed by the print of a number: what Number-to-string gives for the
    Number of a natural number, the one [parseInt] reads from the digits
    captured, so [S2] for [2] and [S1e+21] for [10^21]. *)
Theorem extractSeasonMarkers_vocabulary :
  forall (title : jsstring) (typeDesc : option jsstring),
    NoDup (extractSeasonMarkers title typeDesc)
    /\ Forall markerVocabulary (extractSeasonMarkers title typeDesc)
    /\ numberToString (toNumber (inject_Z 2)) = js "2"
    /\ numberToString (toNumber (inject_Z (10 ^ 21))) = js "1e+21".
Proof.
  intros title typeDesc.
  cut (NoDup (extractSeasonMarkers title typeDesc)
       /\ Forall markerVocabulary (extractSeasonMarkers title typeDesc)).
  { intros [N F]. split; [exact N|split; [exact F|split; vm_compute; reflexivity]]. }
  revert title typeDesc.
  intros title typeDesc. unfold extractSeasonMarkers. cbv zeta.
  assert (A : NoDup (fold_left (applyMarkerRule (cleanText title)) seasonPatterns [])
              /\ Forall markerVocabulary
                        (fold_left (applyMarkerRule (cleanText title)) seasonPatterns [])).
  { assert (G : forall rules s,
               Forall ruleInVocabulary rules ->
               NoDup s /\ Forall markerVocabulary s ->
               NoDup (fold_left (applyMarkerRule (cleanText title)) rules s)
               /\ Forall markerVocabulary
                         (fold_left (applyMarkerRule (cleanText title)) rules s)).
    { induction rules as [|r rules IH]; intros s Fr I; [exact I|].
      inversion Fr; subst. cbn [fold_left]. apply IH; [assumption|].
      now apply applyMarkerRule_vocabulary. }
    apply G; [apply seasonPatterns_vocabulary|split; constructor]. }
  generalize dependent (fold_left (applyMarkerRule (cleanText title)) seasonPatterns []).
  intros m0 A.
  assert (B : forall (c : bool) (v : jsstring) (s : list jsstring),
             markerVocabulary v ->
             NoDup s /\ Forall markerVocabulary s ->
             NoDup (if c then markerAdd s v else s)
             /\ Forall markerVocabulary (if c then markerAdd s v else s)).
  { intros c v s Hv I. destruct c; [now apply markerAdd_vocabulary|exact I]. }
  assert (G2 : forall table m,
             Forall (fun kv : jsstring * N => markerVocabulary (js "S" ++ decimalN (snd kv)))
                    table ->
             NoDup m /\ Forall markerVocabulary m ->
             NoDup (fold_left
                      (fun markers '(cn, num) =>
                         if includes (cleanText title) (js "第" ++ cn ++ js "季")
                         then markerAdd markers (js "S" ++ decimalN num) else markers)
                      table m)
             /\ Forall markerVocabulary
                       (fold_left
                          (fun markers '(cn, num) =>
                             if includes (cleanText title) (js "第" ++ cn ++ js "季")
                             then markerAdd markers (js "S" ++ decimalN num) else markers)
                          table m)).
  { induction table as [|[cn num] table IH]; intros m Ft I; [exact I|].
    inversion Ft as [|kv tl Hkv Htl]; subst.
    cbn [fold_left]. apply IH; [exact Htl|]. apply B; [exact Hkv|exact I]. }
  apply G2; [apply seasonCnNums_vocabulary|].
  apply B; [left; right; right; right; reflexivity|].
  apply B; [left; left; reflexivity|].
  apply B; [left; right; left; reflexivity|].
  exact A.
Qed.

(** ** The episode number of [extractEpisodeInfo] *)

Lemma Forall_factor (P : N -> Prop) (x s : jsstring) :
  isFactor x s -> Forall P s -> Forall P x.
Proof.
  intros (a & b & ->) F. apply Forall_app in F as [_ F]. now apply Forall_app in F as [F _].
Qed.

Lemma dot_js : js "." = [46%N].
Proof. vm_compute. reflexivity. Qed.

Lemma isStrippedPunct_dot : isStrippedPunct 46 = true.
Proof. unfold isStrippedPunct. rewrite punctList. reflexivity. Qed.

Lemma splitHead_no_dot (s : jsstring) :
  Forall (fun c => isStrippedPunct c = false) s -> splitHead s [46%N] = s.
Proof.
  induction 1 as [|c r Hc Hr IH]; [reflexivity|]. cbn [splitHead startsWith].
  destruct (N.eqb_spec c 46) as [-> | Ne].
  - rewrite isStrippedPunct_dot in Hc. discriminate Hc.
  - cbn [andb]. now rewrite IH.
Qed.

Lemma parseDecimal_integer (s : jsstring) :
  s <> [] ->
  Forall (fun c => isStrippedPunct c = false) s ->
  parseDecimal s = toNumber (inject_Z (Z.of_N (parseDigits s))).
Proof.
  intros Hs F. unfold parseDecimal, decimalValue. cbv zeta.
  destruct s as [|c r]; [congruence|]. cbn [isEmpty].
  rewrite dot_js, (splitHead_no_dot (c :: r) F).
  rewrite skipn_all2 by lia. reflexivity.
Qed.

(** X24. The episode number [extractEpisodeInfo] reads is the Number of a
    natural number, that is a non-negative integer rounded to binary64, or
    Infinity: the title is normalised first, which replaces the decimal point
    by a blank, so that the optional decimal part of the patterns is never
    read. A missing title is read as the empty title. *)
Theorem extractEpisodeInfo_integer :
  forall title : option jsstring,
    match num (extractEpisodeInfo title) with
    | Some v => exists n : N, v = toNumber (inject_Z (Z.of_N n))
    | None => True
    end
    /\ extractEpisodeInfo None = extractEpisodeInfo (Some []).
Proof.
  intro title. split; [|reflexivity].
  unfold extractEpisodeInfo. cbv zeta. unfold num.
  pose proof (cleanText_no_punct (orEmpty title)) as P.
  assert (C : forall p m,
             records 1 (p_re p) = true -> groupReads 1 (p_re p) = true ->
             reExec p (cleanText (orEmpty title)) = Some m ->
             exists n : N, parseDecimal (capText 1 m) = toNumber (inject_Z (Z.of_N n))).
  { intros p m R G H. exists (parseDigits (capText 1 m)). apply parseDecimal_integer.
    - now apply capText_nonempty with p (cleanText (orEmpty title)).
    - apply Forall_factor with (cleanText (orEmpty title)); [|exact P].
      now apply capText_factor with p. }
  destruct (reExec reStrongPrefix _) as [m|] eqn:E1.
  { apply (C reStrongPrefix); [vm_compute; reflexivity|vm_compute; reflexivity|exact E1]. }
  destruct (reExec reWeakPrefix _) as [m|] eqn:E2; [|exact I].
  apply (C reWeakPrefix); [vm_compute; reflexivity|vm_compute; reflexivity|exact E2].
Qed.

(** ** [removeParentheses] on a text without brackets *)

Lemma openParens_js : lit "(" = RSeq (RChar 40) REmpty /\ lit "（" = RSeq (RChar 65288) REmpty.
Proof. split; vm_compute; reflexivity. Qed.

Lemma matchAt_reParens_None (s : jsstring) (pos : N) :
  match s with
  | c :: _ => (c =? 40)%N || (c =? 65288)%N = false
  | [] => True
  end ->
  matchAt reParens s pos = None.
Proof.
  intro H. unfold matchAt, reParens, re. cbn [p_re p_ignoreCase RSeqs rmatch].
  destruct openParens_js as [-> ->]. cbn [rmatch m_rest unitMatches orTry].
  destruct s as [|c r]; [reflexivity|].
  apply orb_false_iff in H as [-> ->]. reflexivity.
Qed.

Lemma replaceAllFrom_reParens_id (f : matchInfo -> jsstring) (fuel : nat) :
  forall (before s : jsstring) (pos : N),
    Forall (fun c => (c =? 40)%N || (c =? 65288)%N = false) s ->
    replaceAllFrom fuel reParens f before s pos = s.
Proof.
  induction fuel as [|fuel IH]; intros before s pos F; [reflexivity|].
  cbn [replaceAllFrom]. rewrite matchAt_reParens_None.
  - destruct s as [|c r]; [reflexivity|]. inversion F; subst. f_equal. now apply IH.
  - destruct s as [|c r]; [exact I|]. now inversion F.
Qed.

(** X25. [removeParentheses] only trims a text that has no opening
    bracket, ASCII or full-width; its result never begins or ends with
    whitespace, and the empty string gives the empty string. *)
Theorem removeParentheses_without_brackets :
  forall text : jsstring,
    (Forall (fun c => (c =? 40)%N || (c =? 65288)%N = false) text ->
     removeParentheses text = trim text)
    /\ headSpace (removeParentheses text) = false
    /\ lastSpace (removeParentheses text) = false
    /\ removeParentheses [] = [].
Proof.
  intro text. unfold removeParentheses.
  split; [|split; [|split; [|reflexivity]]].
  - intro F. destruct text as [|c r]; [reflexivity|]. cbn [isEmpty].
    unfold replaceAll. now rewrite replaceAllFrom_reParens_id.
  - destruct (isEmpty text); [reflexivity|].
    unfold trim. apply headSpace_dropEndWhile, dropWhile_headSpace.
  - destruct (isEmpty text); [reflexivity|]. unfold trim. apply lastSpace_dropEndWhile.
Qed.
End Merge.

(** * Concrete runs *)

Example js_di : js "第1季" = [31532; 49; 23395]%N.
Proof. reflexivity. Qed.

Example decimalN_ex : decimalN 1147483648 = js "1147483648" /\ decimalN 0 = js "0"
                      /\ decimalZ (-35) = js "-35" /\ parseDigits (js "0120") = 120%N.
Proof. conj_compute. Qed.

Example regex_smoke :
  replaceAll (rei (RSeqs [RAlt (lit "Season") (lit "S"); RStar true RSpace; RGroup 1 (RPlus RDigit)]))
             (fun m => js "第" ++ capText 1 m ++ js "季") (js "Foo season 12 s3 ss")
  = js "Foo 第12季 第3季 ss"
  /\ replaceAll (re (RSeqs [lit "【"; RStar false RAny; lit "】"])) (fun _ => []) (js "【a】b【c】】")
     = js "b】"
  /\ replaceAll (re (RSeqs [RGroup 1 (RAlt RSpace RBol); RGroup 2 (RAlts [lit "IV"; lit "III"; lit "II"; lit "I"]);
                            RGroup 3 (RAlt RSpace REol)]))
                (fun m => capText 1 m ++ js "<" ++ capText 2 m ++ js ">" ++ capText 3 m) (js "I II III x IV")
     = js "<I> II <III> x <IV>".
Proof. conj_compute. Qed.

Example cleanText_samples :
  cleanText simplizedModel (js "Attack on Titan The Final Season Part.2 【dandan】") = js "attack on titan 最终季 第2部分"
  /\ cleanText simplizedModel (js "進擊的巨人 第二季（國語版）") = js "進擊的巨人 第2季中配版"
  /\ cleanText simplizedModel (js "Foo III (仅限港澳台地区)") = js "foo 第3季"
  /\ cleanText simplizedModel (js "s.1") = js "s 1"
  /\ cleanText simplizedModel (js "s 1") = js "第1季".
Proof. conj_compute. Qed.

Example similarity_samples :
  editDistance (js "kitten") (js "sitting") = 3%Z
  /\ sanitizeUrl (js "tencent:https://v.qq.com/x$$$b:1") = js "https://v.qq.com/x"
  /\ sanitizeUrl (js "bilibili:12345") = js "12345"
  /\ sanitizeUrl (js "//a.b/c") = js "https://a.b/c"
  /\ Qeq_bool (calculateDiceSimilarity (js "我怎么可能") (js "我们不可能")) (6 # 10) = true
  /\ Qeq_bool (calculateSimilarity simplizedModel (js "abc") (js "abcd")) (95 # 100) = true
  /\ calculateDiceSimilarity [] [] = 0.
Proof. conj_compute. Qed.

Example conflict_samples :
  extractSeasonMarkers simplizedModel (js "进击的巨人 第二季") None = [js "S2"]
  /\ extractSeasonMarkers simplizedModel (js "Foo OVA 2") (Some (js "剧场版")) = [js "OVA"; js "S2"; js "MOVIE"]
  /\ extractSeasonMarkers simplizedModel (js "Foo 第Final季") None = [js "S99"]
  /\ extractSeasonMarkers simplizedModel (js "Foo 第1000000000000000000000季") None = [js "S1e+21"]
  /\ checkMediaTypeMismatch simplizedModel (js "XX 电影") (js "XX 电视剧") (Some (js "电影")) (Some (js "电视剧")) 1 24 = true
  /\ checkMediaTypeMismatch simplizedModel (js "XX 电影") (js "XX 电视剧") (Some (js "电影")) (Some (js "电视剧")) 0 0 = true
  /\ checkTheatricalExemption simplizedModel (js "名侦探柯南 绀青之拳") (js "名侦探柯南 绀青之拳(2019)") (Some (js "剧场版")) None = true
  /\ checkTitleSubtitleConflict simplizedModel (js "Fate") (js "Fate: Zero One") = true
  /\ checkSeasonMismatch simplizedModel (js "Foo 第2季") (js "Foo 第3季") None None = true
  /\ checkSeasonMismatch simplizedModel (js "Foo 第3季") (js "Foo 第3季 OVA") None None = false.
Proof. conj_compute. Qed.

Example episode_samples :
  (let i := extractEpisodeInfo simplizedModel (Some (js "【qq】 第12.5话 Foo")) in
   (isMovie i, isSpecial i, num i)) = (false, false, Some (Finite 12))
  /\ (let i := extractEpisodeInfo simplizedModel (Some (js "SP2 剧场版")) in
   (isMovie i, isSpecial i, num i)) = (true, false, Some (Finite 2))
  /\ (let i := extractEpisodeInfo simplizedModel (Some (js "O1 foo")) in
   (isMovie i, isSpecial i, num i)) = (false, true, Some (Finite 1))
  /\ num (extractEpisodeInfo simplizedModel (Some (js "第9007199254740993话")))
     = Some (Finite 9007199254740992)
  /\ getSpecialEpisodeType (Some (js "NCOP Opening 1")) = Some opening
  /\ getSpecialEpisodeType (Some (js "Bloopers")) = None.
Proof. conj_compute. Qed.

Example align_samples :
  findBestAlignmentOffset simplizedModel (calculateSimilarity64 simplizedModel) episodes123 episodes234 = 1%Z
  /\ findBestAlignmentOffset simplizedModel (calculateSimilarity64 simplizedModel) (sampleItems ["第1集"; "第2集"; "第3集"]%string) (sampleItems ["第1集"; "第2集"; "第3集"]%string) = 0%Z
  /\ findBestAlignmentOffset simplizedModel (calculateSimilarity64 simplizedModel) (sampleItems ["PV"; "第1集"; "第2集"; "第3集"]%string) (sampleItems ["第1集"; "第2集"; "第3集"]%string) = 1%Z
  /\ findBestAlignmentOffset simplizedModel (calculateSimilarity64 simplizedModel) (sampleItems ["aa"]%string) (sampleItems ["aca"; "ad"]%string) = 0%Z
  /\ findBestAlignmentOffset simplizedModel (calculateSimilarity64 simplizedModel) (sampleItems ["o1aaabcdefghijklmnpq"]%string) (sampleItems ["Opening"; "xxaaaxxxxxxxxxxxxxxx"]%string) = (-1)%Z
  /\ round64 (1 # 10) = (3602879701896397 # 36028797018963968)
  /\ fadd (round64 (1 # 10)) (round64 (2 # 10)) = (1351079888211149 # 4503599627370496)
  /\ Qltb (round64 (3 # 10)) (fadd (round64 (1 # 10)) (round64 (2 # 10))) = true
  /\ toFixed4 (-(1 # 3)) = js "-0.3333" /\ toFixed4 (25 # 2) = js "12.5000" /\ toFixed4 0 = js "0.0000".
Proof. conj_compute. Qed.

Example generateSafeMergedId_samples :
  generateSafeMergedId (IdNum 101) (IdNum 202) (js "A&B") = 1452902267%Z
  /\ hashString (js "ab") = 3105%Z
  /\ toInt32 2147483648 = (-2147483648)%Z.
Proof. conj_compute. Qed.


(** C4: each condition on the patterns is needed.  On each of these inputs
    the normal form meets every condition but one, and a second pass of
    [cleanText] changes it: the removal of a source tag, of punctuation or
    of a line break in the first pass has brought together the text that
    the rule rewrites in the second. *)
Example cleanText_second_pass_samples :
  secondPass simplizedModel (js "final.season")
  = (js "final season", js "最终季", [false; true; true; true; true; true; true; true])
  /\ secondPass simplizedModel (js "s.1")
     = (js "s 1", js "第1季", [true; false; true; true; true; true; true; true])
  /\ secondPass simplizedModel (js "第【a】一季")
     = (js "第一季", js "第1季", [true; true; false; true; true; true; true; true])
  /\ secondPass simplizedModel (js "p-1")
     = (js "p 1", js "第1部分", [true; true; true; false; true; true; true; true])
  /\ secondPass simplizedModel (js "国【a】语")
     = (js "国语", js "中配版", [true; true; true; true; false; true; true; true])
  /\ secondPass simplizedModel (js "日【a】语")
     = (js "日语", [], [true; true; true; true; true; false; true; true])
  /\ secondPass simplizedModel (js "【" ++ [10%N] ++ js "】")
     = (js "【 】", [], [true; true; true; true; true; true; false; true])
  /\ secondPass simplizedModel (js "(仅限" ++ [10%N] ++ js "地区)")
     = (js "(仅限 地区)", [], [true; true; true; true; true; true; true; false]).
Proof. conj_compute. Qed.


(** C5, counterexample: on two empty strings the guard [!s1 || !s2]
    answers [0], not [1.0]. *)
Lemma calculateDiceSimilarity_empty_empty :
  calculateDiceSimilarity (js "") (js "") = 0
  /\ Qeq_bool (calculateDiceSimilarity (js "") (js "")) 1 = false.
Proof. conj_compute. Qed.

(** C2, the code at the failing input.  [A] has six episodes, [B] one and
    [C] six, all titled alike; the group is [A > B, C].  The attempt of [A]
    against [B] merges one link of six and is rejected by the ratio check:
    nothing is consumed and [hasMergedAny] stays [false].  Yet the derived
    entry is not what it was before the attempt: its [animeId] and
    [bangumiId] are recomputed and its first link already carries the
    fragment of [B].  When [C] is then accepted, the merged entry that
    [applyMergeLogic] emits keeps that fragment, while [B] itself stays in
    the list.  With [mergedCount = 0] (the only link of [B] is an opening)
    the links are untouched but the ids are still recomputed. *)
Theorem rejected_secondary_keeps_fusion :
  let cur := sampleCur in
  let fp := js "A&B&C" in
  let before := (initialState cur, initialRun animeA animeA) in
  let after :=
    trySecondary simplizedModel hostDateNone cur None fp (js "A") animeA before (js "B") in
  let out := applyMergeLogic simplizedModel hostDateNone addAnimePush [groupABC] None cur cur in
  findSecondaryMatch simplizedModel hostDateNone animeA [animeB] = Some animeB
  /\ (let '(_, mergedCount, totalP, totalM) :=
        mergeInto simplizedModel None fp (js "A") (js "B") animeA animeB (sampleLinks "b" 1) in
      (mergedCount, totalP, totalM, isMergeRatioValid mergedCount totalP totalM (js "A") (js "B")))
     = (1, 6, 1, false)%Z
  /\ fst after = fst before
  /\ hasMergedAny (snd after) = false
  /\ animeId (derivedAnime (snd before)) = IdNum 101
  /\ animeId (derivedAnime (snd after)) = IdNum 1447380446
  /\ bangumiId (derivedAnime (snd after)) = js "1447380446"
  /\ linkUrls (derivedAnime (snd before))
     = [js "a1"; js "a2"; js "a3"; js "a4"; js "a5"; js "a6"]
  /\ linkUrls (derivedAnime (snd after))
     = [js "A:a1$$$B:b1"; js "a2"; js "a3"; js "a4"; js "a5"; js "a6"]
  /\ map animeId (curAnimesOut out) = [IdNum 1777906045; IdNum 202]
  /\ map linkUrls (firstn 1 (curAnimesOut out))
     = [[js "A:a1$$$B:b1$$$C:c1"; js "A:a2$$$C:c2"; js "A:a3$$$C:c3"; js "A:a4$$$C:c4";
         js "A:a5$$$C:c5"; js "A:a6$$$C:c6"]]
  /\ globalConsumedIds (finalState out) = [IdNum 303; IdNum 101]
  /\ (let '(derived, mergedCount, _, _) :=
        mergeInto simplizedModel None fp (js "A") (js "B") animeA animeBOpening
                  [mkLink (Some (js "Opening")) None (js "b1")] in
      (mergedCount, animeId derived, linkUrls derived))
     = (0%Z, IdNum 1447380446, [js "a1"; js "a2"; js "a3"; js "a4"; js "a5"; js "a6"]).
Proof. cbv zeta. conj_compute. Qed.

(** C1 on a run: with the group [A > C] the entry of [C] is accepted as
    secondary and a merged entry is emitted for [A]; neither is in the
    final list, which holds the merged entry and the entry of [B]. *)
Lemma applyMergeLogic_consumed_absent_run :
  let r := applyMergeLogic simplizedModel hostDateNone addAnimePush [groupAC] None
                           sampleCur sampleCur in
  map consumedOf (mergeTrace (finalState r)) = [IdNum 303; IdNum 101]
  /\ map animeId (curAnimesOut r) = [IdNum 1435524936; IdNum 202]
  /\ forall item, In item (curAnimesOut r) ->
                  idHas (animeId item) (globalConsumedIds (finalState r)) = false.
Proof.
  cbv zeta. split; [vm_compute; reflexivity|]. split; [vm_compute; reflexivity|].
  exact (proj1 (applyMergeLogic_consumed_absent simplizedModel hostDateNone addAnimePush
                  [groupAC] None sampleCur sampleCur)).
Defined.

(** C5 on blanks: two blank strings give [1.0], a blank and a letter [0.0]. *)
Lemma calculateDiceSimilarity_blanks_run :
  calculateDiceSimilarity (js " ") (js "  ") = 1
  /\ calculateDiceSimilarity (js " ") (js "a") = 0.
Proof.
  destruct (calculateDiceSimilarity_range_and_blanks (js " ") (js "  ")) as (_ & _ & H1 & _).
  destruct (calculateDiceSimilarity_range_and_blanks (js " ") (js "a")) as (_ & _ & _ & H0).
  split.
  - apply H1; vm_compute; (reflexivity || discriminate).
  - apply H0; vm_compute; discriminate.
Defined.

(** C6 on the scenarios of the specification: a film against a series with
    1 and 24 episodes, with unknown counts, and with 10 and 12 episodes. *)
Lemma checkMediaTypeMismatch_scenarios :
  checkMediaTypeMismatch simplizedModel (js "XX 电影") (js "XX 电视剧")
                         (Some (js "电影")) (Some (js "电视剧")) 1 24 = true
  /\ checkMediaTypeMismatch simplizedModel (js "XX 电影") (js "XX 电视剧")
                            (Some (js "电影")) (Some (js "电视剧")) 0 0 = true
  /\ checkMediaTypeMismatch simplizedModel (js "XX 电影") (js "XX 电视剧")
                            (Some (js "电影")) (Some (js "电视剧")) 10 12 = false.
Proof.
  assert (C : forall a b : Z,
             (((0 < a)%Z /\ (0 < b)%Z /\ (Z.abs (a - b) <= 5)%Z ->
               checkMediaTypeMismatch simplizedModel (js "XX 电影") (js "XX 电视剧")
                                      (Some (js "电影")) (Some (js "电视剧")) a b = false)
              /\ ((0 < a)%Z /\ (0 < b)%Z /\ (5 < Z.abs (a - b))%Z ->
                  checkMediaTypeMismatch simplizedModel (js "XX 电影") (js "XX 电视剧")
                                         (Some (js "电影")) (Some (js "电视剧")) a b = true)
              /\ (a = 0%Z \/ b = 0%Z ->
                  checkMediaTypeMismatch simplizedModel (js "XX 电影") (js "XX 电视剧")
                                         (Some (js "电影")) (Some (js "电视剧")) a b = true))).
  { intros a b.
    apply (proj2 (checkMediaTypeMismatch_cases simplizedModel (js "XX 电影") (js "XX 电视剧")
                    (Some (js "电影")) (Some (js "电视剧")) a b) MOVIE TV);
      try (vm_compute; reflexivity). discriminate. }
  split; [|split].
  - destruct (C 1 24)%Z as (_ & H & _). apply H. lia.
  - destruct (C 0 0)%Z as (_ & _ & H). apply H. now left.
  - destruct (C 10 12)%Z as (H & _). apply H. lia.
Defined.

(** C7 on two seasons of one title: the second season against the third is
    a conflict. *)
Lemma checkSeasonMismatch_seasons_run :
  extractSeasonMarkers simplizedModel (js "Foo 第2季") None = [js "S2"]
  /\ extractSeasonMarkers simplizedModel (js "Foo 第3季") None = [js "S3"]
  /\ checkSeasonMismatch simplizedModel (js "Foo 第2季") (js "Foo 第3季") None None = true.
Proof.
  assert (EA : extractSeasonMarkers simplizedModel (js "Foo 第2季") None = [js "S2"])
    by (vm_compute; reflexivity).
  assert (EB : extractSeasonMarkers simplizedModel (js "Foo 第3季") None = [js "S3"])
    by (vm_compute; reflexivity).
  split; [exact EA|]. split; [exact EB|].
  pose proof (checkSeasonMismatch_cases simplizedModel (js "Foo 第2季") (js "Foo 第3季")
                None None) as H.
  cbv zeta in H. destruct H as (_ & H & _). rewrite EA, EB in H.
  apply H.
  - split; discriminate.
  - split.
    + exists (js "S2"). split; [now left|]. split; [vm_compute; reflexivity|].
      intros [E | []]. vm_compute in E. discriminate E.
    + exists (js "S3"). split; [now left|vm_compute; reflexivity].
Defined.


(** C9 on two titles. *)
Lemma calculateSimilarity_symmetric_run :
  calculateSimilarity simplizedModel (js "进击的巨人 第二季") (js "進擊的巨人 Season 2")
  = calculateSimilarity simplizedModel (js "進擊的巨人 Season 2") (js "进击的巨人 第二季")
  /\ calculateSimilarity simplizedModel (js "Foo") (js "Foo") = 1.
Proof.
  destruct (calculateSimilarity_symmetric simplizedModel) as [S R].
  split; [apply S|]. apply R. vm_compute. discriminate.
Defined.

Example parseDecimal_samples :
  parseDecimal (js "12.50") = Finite (25 # 2)
  /\ parseDecimal (js "7") = Finite 7
  /\ parseDecimal (js "0.125") = Finite (1 # 8)
  /\ parseDecimal (js "0.1") = Finite (3602879701896397 # 36028797018963968)
  /\ parseDecimal (js "9007199254740993") = Finite 9007199254740992
  /\ parseDecimal (js "1" ++ repeat 48%N 309) = PosInf
  /\ parseDecimal [] = NaN.
Proof. conj_compute. Qed.

(** X17 on a concrete attempt: the entry of [A] with six links against the
    entry of [C]. *)
Lemma mergeInto_fuses_aligned_links_run :
  links animeA = Some (sampleLinks "a" 6)
  /\ exists l',
      links (fst (fst (fst (mergeInto simplizedModel None (js "A&C") (js "A") (js "C")
                                      animeA animeC (sampleLinks "c" 6))))) = Some l'
      /\ List.length l' = 6%nat.
Proof.
  split; [reflexivity|].
  pose proof (mergeInto_fuses_aligned_links simplizedModel None (js "A&C") (js "A") (js "C")
                animeA animeC (sampleLinks "c" 6) (sampleLinks "a" 6) eq_refl) as H.
  cbv zeta in H.
  destruct (mergeInto simplizedModel None (js "A&C") (js "A") (js "C") animeA animeC
                      (sampleLinks "c" 6)) as [[[d mc] tp] tm].
  destruct H as (_ & _ & _ & l' & L & Len & _).
  exists l'. split; [exact L|]. rewrite Len. vm_compute. reflexivity.
Defined.
